(** * lib/zookeeper.py: the coordination layer

    A shallow embedding of [Zookeeper], [ZkParty] and [ZkSharedCache] from
    [lib/zookeeper.py], together with a small executable model of the parts of
    their environment the code talks to: the ZooKeeper tree reached through
    the Kazoo client, the wall clock behind [SCIONTime.get_time], and the
    [threading.Event] the state worker signals.

    Python objects are records, methods are state-passing computations in the
    monad [M], exceptions are the [Raise] outcome, and [try ... except] is
    [try_].  Dictionaries are [gmap]s, sets are [gset]s, the [deque] used as a
    FIFO is a list (append on the right, pop on the left).  Timestamps and
    durations are Python floats in the source; they are rationals here. *)

From Stdlib Require Import QArith Qminmax Qround Lqa.
From stdpp Require Import gmap strings list fin_maps.

#[local] Set Warnings "-clear-no-such-hyp".

Local Open Scope string_scope.
Local Open Scope list_scope.
Local Open Scope Z_scope.

Abbreviation bytes := (list Byte.byte).

(** ** Exceptions and outcomes *)

(** The exceptions the module imports from [kazoo.exceptions], the ones it
    defines itself, and Python's [KeyError] (raised by [del d[k]]). *)
Inductive PyExc : Type :=
  | ConnectionLoss
  | LockTimeout
  | NoNodeError
  | NodeExistsError
  | SessionExpiredError
  | KeyError (key : string)
  | ZkNoConnection
  | ZkNoNodeError
  | ZkRetryLimit (desc : string) (failed : Z).

Global Instance PyExc_eq_dec : EqDecision PyExc.
Proof. solve_decision. Defined.

(** What a call produces: a value, an exception, or nothing, because a loop
    that is bounded by fuel here did not finish or because the call blocks
    for ever. *)
Inductive Res (A : Type) : Type :=
  | Ok (a : A)
  | Raise (e : PyExc)
  | Diverge.
Arguments Ok {A} a.
Arguments Raise {A} e.
Arguments Diverge {A}.

(** A method call: it reads and updates the object graph [S] it runs on.
    State changes made before an exception is raised are kept. *)
Definition M (S A : Type) : Type := S -> Res A * S.

Definition ret {S A} (a : A) : M S A := fun s => (Ok a, s).
Definition raise {S A} (e : PyExc) : M S A := fun s => (Raise e, s).
Definition diverge {S A} : M S A := fun s => (Diverge, s).
Definition bind {S A B} (m : M S A) (k : A -> M S B) : M S B :=
  fun s => match m s with
           | (Ok a, s') => k a s'
           | (Raise e, s') => (Raise e, s')
           | (Diverge, s') => (Diverge, s')
           end.
Definition get_state {S} : M S S := fun s => (Ok s, s).
Definition gets {S A} (f : S -> A) : M S A := fun s => (Ok (f s), s).
Definition modify {S} (f : S -> S) : M S unit := fun s => (Ok tt, f s).

Notation "x <- m ;; k" := (bind m (fun x => k))
  (at level 100, m at next level, right associativity).
Notation "m ;;; k" := (bind m (fun _ => k))
  (at level 100, right associativity).

(** [try: m except: h].  The handler selects the exceptions it catches by
    returning [Some] of the except-clause body; [None] lets the exception
    propagate. *)
Definition try_ {S A} (m : M S A) (except : PyExc -> option (M S A)) : M S A :=
  fun s => match m s with
           | (Raise e, s') =>
               match except e with
               | Some handler => handler s'
               | None => (Raise e, s')
               end
           | r => r
           end.

(** Run a computation on a component [T] of the state [S]. *)
Definition zoom {S T A} (proj : S -> T) (upd : T -> S -> S) (m : M T A) : M S A :=
  fun s => let '(r, t') := m (proj s) in (r, upd t' s).

(** [for x in xs: body x], with no [break]. *)
Fixpoint for_each {S X} (xs : list X) (body : X -> M S unit) : M S unit :=
  match xs with
  | [] => ret tt
  | x :: rest => body x ;;; for_each rest body
  end.

(** ** [os.path.join] on two components (posixpath) *)

Definition sep : Ascii.ascii := Ascii.ascii_of_nat 47.

Definition startswith_sep (s : string) : bool :=
  match s with
  | String c _ => Ascii.eqb c sep
  | EmptyString => false
  end.

Fixpoint endswith_sep (s : string) : bool :=
  match s with
  | EmptyString => false
  | String c EmptyString => Ascii.eqb c sep
  | String _ rest => endswith_sep rest
  end.

Definition os_path_join (a b : string) : string :=
  if startswith_sep b then b
  else if String.eqb a "" || endswith_sep a then String.append a b
  else String.append a (String.append "/" b).

(** ** The environment: ZooKeeper behind Kazoo, the clock, the state worker *)

(** Kazoo is an external library.  What follows is the behaviour the module
    relies on, made executable: a tree of nodes keyed by their full paths,
    requests that fail with the exceptions the module catches, and a script
    of what the rest of the world does meanwhile.  Of ZooKeeper's own rules,
    only those the module's code can observe are kept. *)
Module Kazoo.

(** What happens around one request of this client.  The script of a world
    lists, request by request, what the network and the other clients do:
    nothing, a connection loss or session expiry that makes the request
    fail, a peer creating or deleting a node just before the request is
    served, time passing.  [WorkerConnects] is only meaningful to a thread
    blocked in [threading.Event.wait]: the state worker sets the connected
    flag. *)
Inductive EnvEvent : Type :=
  | Calm
  | Drop
  | Expire
  | PeerCreate (path : string) (value : bytes)
  | PeerDelete (path : string)
  | Elapse (d : Q)
  | WorkerConnects.

Record World : Type := {
  nodes : gmap string bytes;     (* the ZooKeeper tree, keyed by full path *)
  pending : list EnvEvent;       (* what the environment will do next *)
  clock : Q                      (* the wall clock, in seconds *)
}.

Definition with_nodes (f : gmap string bytes -> gmap string bytes) (w : World) : World :=
  {| nodes := f (nodes w); pending := pending w; clock := clock w |}.
Definition with_pending (p : list EnvEvent) (w : World) : World :=
  {| nodes := nodes w; pending := p; clock := clock w |}.
Definition with_clock (t : Q) (w : World) : World :=
  {| nodes := nodes w; pending := pending w; clock := t |}.

(** The proper ancestors of a path: ["/a/b/c"] has ["/a"] and ["/a/b"]. *)
Fixpoint ancestors_from (seen rest : string) : list string :=
  match rest with
  | EmptyString => []
  | String c rest' =>
      (if Ascii.eqb c sep && negb (String.eqb seen "") then [seen] else [])
        ++ ancestors_from (String.append seen (String c EmptyString)) rest'
  end.
Definition ancestors (path : string) : list string := ancestors_from "" path.

Definition touch (path : string) (m : gmap string bytes) : gmap string bytes :=
  match m !! path with
  | Some _ => m
  | None => <[path := []]> m
  end.

(** Create the missing ancestors of [path] as empty nodes. *)
Definition make_parents (path : string) (m : gmap string bytes) : gmap string bytes :=
  foldr touch m (ancestors path).

Fixpoint has_sep (s : string) : bool :=
  match s with
  | EmptyString => false
  | String c rest => Ascii.eqb c sep || has_sep rest
  end.

Definition dir_prefix (dir : string) : string :=
  if endswith_sep dir then dir else String.append dir "/".

(** The name under which [key] is a direct child of [dir], if it is one. *)
Definition child_name (dir key : string) : option string :=
  let d := dir_prefix dir in
  if String.prefix d key then
    let n := String.substring (String.length d) (String.length key - String.length d) key in
    if String.eqb n "" || has_sep n then None else Some n
  else None.

Definition children_of (dir : string) (m : gmap string bytes) : list string :=
  omap (child_name dir) (elements (dom m)).

(** Every request first lets the environment take its next step. *)
Definition request : M World unit := fun w =>
  match pending w with
  | [] => (Ok tt, w)
  | ev :: rest =>
      let w := with_pending rest w in
      match ev with
      | Calm | WorkerConnects => (Ok tt, w)
      | Drop => (Raise ConnectionLoss, w)
      | Expire => (Raise SessionExpiredError, w)
      | PeerCreate p v => (Ok tt, with_nodes (fun m => <[p := v]> (make_parents p m)) w)
      | PeerDelete p => (Ok tt, with_nodes (delete p) w)
      | Elapse d => (Ok tt, with_clock (clock w + d)%Q w)
      end
  end.

Definition ensure_path (path : string) : M World unit :=
  request ;;;
  modify (with_nodes (fun m => touch path (make_parents path m))).

Definition create (path : string) (value : bytes) (makepath : bool) : M World unit :=
  request ;;;
  m <- gets nodes ;;
  match m !! path with
  | Some _ => raise NodeExistsError
  | None =>
      if makepath then modify (with_nodes (fun m => <[path := value]> (make_parents path m)))
      else if forallb (fun a => bool_decide (is_Some (m !! a))) (ancestors path)
           then modify (with_nodes (insert path value))
           else raise NoNodeError
  end.

Definition set (path : string) (value : bytes) : M World unit :=
  request ;;;
  m <- gets nodes ;;
  match m !! path with
  | Some _ => modify (with_nodes (insert path value))
  | None => raise NoNodeError
  end.

(** [get] returns the payload (the stat the real call also returns is
    discarded by the caller). *)
Definition get (path : string) : M World bytes :=
  request ;;;
  m <- gets nodes ;;
  match m !! path with
  | Some data => ret data
  | None => raise NoNodeError
  end.

Definition get_children (path : string) : M World (list string) :=
  request ;;;
  m <- gets nodes ;;
  match m !! path with
  | Some _ => ret (children_of path m)
  | None => raise NoNodeError
  end.

Definition delete (path : string) : M World unit :=
  request ;;;
  m <- gets nodes ;;
  match m !! path with
  | Some _ => modify (with_nodes (base.delete path))
  | None => raise NoNodeError
  end.

(** The lock recipe, as far as [release_lock] uses it.  The contender of
    this client is one node under the lock path. *)
Record Lock : Type := {
  lock_path : string;
  identifier : string;
  is_acquired : bool
}.

Definition set_is_acquired (b : bool) (l : Lock) : Lock :=
  {| lock_path := lock_path l; identifier := identifier l; is_acquired := b |}.

Definition contender (l : Lock) : string :=
  os_path_join (lock_path l) (identifier l).

(** [Lock.release()]: nothing to do when the lock object does not believe
    it holds the lock; otherwise the contender node is deleted. *)
Definition release (l : Lock) : M World (bool * Lock) :=
  if is_acquired l then
    delete (contender l) ;;;
    ret (true, set_is_acquired false l)
  else ret (false, l).

(** [Lock.acquire(timeout)]: the lock is granted when no other contender
    is queued under the lock path; otherwise the call waits, for [timeout]
    seconds and then raises [LockTimeout], or for ever. *)
Definition acquire (timeout : option Q) (l : Lock) : M World (bool * Lock) :=
  request ;;;
  m <- gets nodes ;;
  match List.filter (fun n => negb (String.eqb n (identifier l))) (children_of (lock_path l) m) with
  | [] =>
      modify (with_nodes (fun m => touch (contender l) (make_parents (contender l) m))) ;;;
      ret (true, set_is_acquired true l)
  | _ :: _ =>
      match timeout with
      | Some d => modify (fun w => with_clock (clock w + d)%Q w) ;;; raise LockTimeout
      | None => diverge
      end
  end.

(** The party recipe: members are children of the party path. *)
Record Party : Type := {
  party_path : string;
  party_id : string
}.

Definition party_join (p : Party) : M World unit :=
  ensure_path (os_path_join (party_path p) (party_id p)).

Definition party_iter (p : Party) : M World (list string) :=
  request ;;;
  m <- gets nodes ;;
  ret (children_of (party_path p) m).

(** Modelled from the spec: [SCIONTime.get_time] of [lib/util.py], which is
    not among the sources here.  It is the spec's [now]: reading the wall
    clock, with no other effect. *)
Definition get_time : M World Q := gets clock.

End Kazoo.


(** Comparisons of floats that the code branches on. *)
Definition Qgtb (x y : Q) : bool := if Qlt_le_dec y x then true else false.
Definition Qgeb (x y : Q) : bool := if Qlt_le_dec x y then false else true.

(** The except clause [except (ConnectionLoss, SessionExpiredError): raise
    ZkNoConnection from None]. *)
Definition no_connection {S A} (e : PyExc) : option (M S A) :=
  match e with
  | ConnectionLoss | SessionExpiredError => Some (raise ZkNoConnection)
  | _ => None
  end.

(** ** class ZkParty *)

Module ZkParty.

Record t : Type := {
  _autojoin : bool;
  _path : string;
  _party : Kazoo.Party
}.

Definition join (self : t) : M Kazoo.World unit :=
  try_ (Kazoo.party_join (_party self)) no_connection.

Definition list (self : t) : M Kazoo.World (gset string) :=
  try_ (members <- Kazoo.party_iter (_party self) ;; ret (list_to_set members))
       no_connection.

(** The names computed from the entries are only logged. *)
Definition autojoin (self : t) : M Kazoo.World unit :=
  (if _autojoin self then join self else ret tt) ;;;
  entries <- list self ;;
  ret tt.

(** [ZkParty(zk, path, id_, autojoin_)] *)
Definition init (path id_ : string) (autojoin_ : bool) : M Kazoo.World t :=
  party <- try_ (ret {| Kazoo.party_path := path; Kazoo.party_id := id_ |}) no_connection ;;
  let self := {| _autojoin := autojoin_; _path := path; _party := party |} in
  autojoin self ;;;
  ret self.

End ZkParty.

(** ** class Zookeeper *)

Inductive KazooState : Type := CONNECTED | SUSPENDED | LOST.

Global Instance KazooState_eq_dec : EqDecision KazooState.
Proof. solve_decision. Defined.

(** The state worker's [old_state]: the string ["startup"] or the last
    state it dispatched. *)
Inductive WorkerState : Type :=
  | startup
  | seen (s : KazooState).

Global Instance WorkerState_eq_dec : EqDecision WorkerState.
Proof. solve_decision. Defined.

(** The user-supplied hooks.  A hook is opaque code; the model records each
    invocation. *)
Inductive Hook : Type := on_connect | on_disconnect.

Module Zookeeper.

Record t : Type := {
  _srv_id : string;
  prefix : string;                       (* "/<isd_as>/<srv_type>" *)
  _on_connect : bool;                    (* was a hook supplied? *)
  _on_disconnect : bool;
  _connected : bool;                     (* threading.Event *)
  _lock : bool;                          (* threading.Event *)
  _state_events : list KazooState;       (* queue.Queue *)
  conn_epoch : Z;
  _parties : gmap string ZkParty.t;
  _zk_lock : option Kazoo.Lock;
  _lock_epoch : Z;
  kazoo : Kazoo.World;
  hook_calls : list Hook                 (* invocations of the hooks, oldest first *)
}.

Definition with_connected (b : bool) (zk : t) : t :=
  {| _srv_id := _srv_id zk; prefix := prefix zk; _on_connect := _on_connect zk;
     _on_disconnect := _on_disconnect zk; _connected := b; _lock := _lock zk;
     _state_events := _state_events zk; conn_epoch := conn_epoch zk;
     _parties := _parties zk; _zk_lock := _zk_lock zk; _lock_epoch := _lock_epoch zk;
     kazoo := kazoo zk; hook_calls := hook_calls zk |}.
Definition with_lock (b : bool) (zk : t) : t :=
  {| _srv_id := _srv_id zk; prefix := prefix zk; _on_connect := _on_connect zk;
     _on_disconnect := _on_disconnect zk; _connected := _connected zk; _lock := b;
     _state_events := _state_events zk; conn_epoch := conn_epoch zk;
     _parties := _parties zk; _zk_lock := _zk_lock zk; _lock_epoch := _lock_epoch zk;
     kazoo := kazoo zk; hook_calls := hook_calls zk |}.
Definition with_state_events (q : list KazooState) (zk : t) : t :=
  {| _srv_id := _srv_id zk; prefix := prefix zk; _on_connect := _on_connect zk;
     _on_disconnect := _on_disconnect zk; _connected := _connected zk; _lock := _lock zk;
     _state_events := q; conn_epoch := conn_epoch zk;
     _parties := _parties zk; _zk_lock := _zk_lock zk; _lock_epoch := _lock_epoch zk;
     kazoo := kazoo zk; hook_calls := hook_calls zk |}.
Definition with_conn_epoch (n : Z) (zk : t) : t :=
  {| _srv_id := _srv_id zk; prefix := prefix zk; _on_connect := _on_connect zk;
     _on_disconnect := _on_disconnect zk; _connected := _connected zk; _lock := _lock zk;
     _state_events := _state_events zk; conn_epoch := n;
     _parties := _parties zk; _zk_lock := _zk_lock zk; _lock_epoch := _lock_epoch zk;
     kazoo := kazoo zk; hook_calls := hook_calls zk |}.
Definition with_parties (p : gmap string ZkParty.t) (zk : t) : t :=
  {| _srv_id := _srv_id zk; prefix := prefix zk; _on_connect := _on_connect zk;
     _on_disconnect := _on_disconnect zk; _connected := _connected zk; _lock := _lock zk;
     _state_events := _state_events zk; conn_epoch := conn_epoch zk;
     _parties := p; _zk_lock := _zk_lock zk; _lock_epoch := _lock_epoch zk;
     kazoo := kazoo zk; hook_calls := hook_calls zk |}.
Definition with_zk_lock (l : option Kazoo.Lock) (zk : t) : t :=
  {| _srv_id := _srv_id zk; prefix := prefix zk; _on_connect := _on_connect zk;
     _on_disconnect := _on_disconnect zk; _connected := _connected zk; _lock := _lock zk;
     _state_events := _state_events zk; conn_epoch := conn_epoch zk;
     _parties := _parties zk; _zk_lock := l; _lock_epoch := _lock_epoch zk;
     kazoo := kazoo zk; hook_calls := hook_calls zk |}.
Definition with_lock_epoch (n : Z) (zk : t) : t :=
  {| _srv_id := _srv_id zk; prefix := prefix zk; _on_connect := _on_connect zk;
     _on_disconnect := _on_disconnect zk; _connected := _connected zk; _lock := _lock zk;
     _state_events := _state_events zk; conn_epoch := conn_epoch zk;
     _parties := _parties zk; _zk_lock := _zk_lock zk; _lock_epoch := n;
     kazoo := kazoo zk; hook_calls := hook_calls zk |}.
Definition with_kazoo (w : Kazoo.World) (zk : t) : t :=
  {| _srv_id := _srv_id zk; prefix := prefix zk; _on_connect := _on_connect zk;
     _on_disconnect := _on_disconnect zk; _connected := _connected zk; _lock := _lock zk;
     _state_events := _state_events zk; conn_epoch := conn_epoch zk;
     _parties := _parties zk; _zk_lock := _zk_lock zk; _lock_epoch := _lock_epoch zk;
     kazoo := w; hook_calls := hook_calls zk |}.
Definition with_hook_calls (h : list Hook) (zk : t) : t :=
  {| _srv_id := _srv_id zk; prefix := prefix zk; _on_connect := _on_connect zk;
     _on_disconnect := _on_disconnect zk; _connected := _connected zk; _lock := _lock zk;
     _state_events := _state_events zk; conn_epoch := conn_epoch zk;
     _parties := _parties zk; _zk_lock := _zk_lock zk; _lock_epoch := _lock_epoch zk;
     kazoo := kazoo zk; hook_calls := h |}.

(** A call on [self.kazoo], or on the clock. *)
Definition on_kazoo {A} (m : M Kazoo.World A) : M t A := zoom kazoo with_kazoo m.

(** Calling a hook. *)
Definition call_hook (h : Hook) : M t unit :=
  modify (fun zk => with_hook_calls (hook_calls zk ++ [h]) zk).

(** [__init__]: the attributes' initial values.  [isd_as] stands for the
text of the ISD-AS.  Creating and starting the Kazoo client and spawning
the worker thread are the environment's part: [w] is the environment the
client starts in. *)
Definition init (isd_as srv_type srv_id : string) (on_connect_ on_disconnect_ : bool)
    (w : Kazoo.World) : t :=
  {| _srv_id := srv_id;
     prefix := String.append "/" (String.append isd_as (String.append "/" srv_type));
     _on_connect := on_connect_; _on_disconnect := on_disconnect_;
     _connected := false; _lock := false; _state_events := [];
     conn_epoch := 0; _parties := ∅; _zk_lock := None; _lock_epoch := 0;
     kazoo := w; hook_calls := [] |}.

Definition _state_listener (new_state : KazooState) : M t bool :=
  modify (fun zk => with_conn_epoch (conn_epoch zk + 1) zk) ;;;
  modify (fun zk => with_state_events (_state_events zk ++ [new_state]) zk) ;;;
  ret false.

Definition is_connected : M t bool := gets _connected.

Definition ensure_path (path : string) (abs : bool) : M t unit :=
  zk <- get_state ;;
  let full_path := if abs then path else os_path_join (prefix zk) path in
  try_ (on_kazoo (Kazoo.ensure_path full_path)) no_connection.

(** The body of the [try] of [_state_connected]. *)
Definition reconnect_setup : M t unit :=
  zk <- get_state ;;
  ensure_path (prefix zk) true ;;;
  zk <- get_state ;;
  for_each (map_to_list (_parties zk)).*2 (fun party => on_kazoo (ZkParty.autojoin party)).

(** [_state_connected].  The [return] in the except clause is the [false]
    the handler yields. *)
Definition _state_connected : M t unit :=
  proceed <- try_ (reconnect_setup ;;; ret true)
                  (fun e => match e with
                            | ZkNoConnection => Some (ret false)
                            | _ => None
                            end) ;;
  if proceed : bool then
    modify (with_connected true) ;;;
    zk <- get_state ;;
    if _on_connect zk then call_hook on_connect else ret tt
  else ret tt.

Definition _state_suspended : M t unit :=
  modify (with_connected false) ;;;
  zk <- get_state ;;
  if _on_disconnect zk then call_hook on_disconnect else ret tt.

Definition _state_lost : M t unit :=
  modify (with_connected false) ;;;
  zk <- get_state ;;
  if _on_disconnect zk then call_hook on_disconnect else ret tt.

(** One iteration of the loop of [_state_handler].  [queue.get()] on an
    empty queue blocks until the listener puts a state, which is outside
    this thread: the iteration does not finish. *)
Definition _state_handler_iter (old_state : WorkerState) : M t WorkerState :=
  zk <- get_state ;;
  match _state_events zk with
  | [] => diverge
  | new_state :: rest =>
      modify (with_state_events rest) ;;;
      if bool_decide (new_state = CONNECTED) && negb (bool_decide (rest = [])) then
        ret old_state
      else if bool_decide (seen new_state = old_state) then
        ret old_state
      else
        (match new_state with
         | CONNECTED => _state_connected
         | SUSPENDED => _state_suspended
         | LOST => _state_lost
         end) ;;;
        ret (seen new_state)
  end.

(** [_state_handler]: the loop never returns; with the notifications that
    are queued it runs until it blocks on the empty queue. *)
Fixpoint _state_handler (fuel : nat) (old_state : WorkerState) : M t WorkerState :=
  match fuel with
  | O => diverge
  | S fuel' =>
      old_state' <- _state_handler_iter old_state ;;
      _state_handler fuel' old_state'
  end.

(** [self._connected.wait(timeout=...)], called with the flag clear: the
    caller blocks until the state worker sets the flag, which the
    environment's script announces, or until the timeout has passed. *)
Definition _connected_wait (timeout : Q) : M t bool :=
  zk <- get_state ;;
  if _connected zk then ret true
  else match Kazoo.pending (kazoo zk) with
       | Kazoo.WorkerConnects :: rest =>
           on_kazoo (modify (Kazoo.with_pending rest)) ;;;
           modify (with_connected true) ;;;
           ret true
       | _ =>
           on_kazoo (modify (fun w => Kazoo.with_clock (Kazoo.clock w + Qmax timeout 0)%Q w)) ;;;
           ret false
       end.

(** The [while True] loop of [wait_connected]. *)
Fixpoint wait_connected_loop (fuel : nat) (timeout : option Q) (start total_time : Q)
    : M t unit :=
  match fuel with
  | O => diverge
  | S fuel' =>
      let next_timeout :=
        match timeout with
        | Some tmo => Qmin (tmo - total_time) 10
        | None => 10%Q
        end in
      ret_ <- _connected_wait next_timeout ;;
      now <- on_kazoo Kazoo.get_time ;;
      let total_time := (now - start)%Q in
      if ret_ : bool then ret tt
      else if match timeout with
              | Some tmo => Qgeb total_time tmo
              | None => false
              end
      then raise ZkNoConnection
      else wait_connected_loop fuel' timeout start total_time
  end.

Definition wait_connected (fuel : nat) (timeout : option Q) : M t unit :=
  connected <- is_connected ;;
  if connected : bool then ret tt
  else
    start <- on_kazoo Kazoo.get_time ;;
    wait_connected_loop fuel timeout start 0%Q.

Definition party_setup (prefix_ : option string) (autojoin : bool) : M t ZkParty.t :=
  connected <- is_connected ;;
  if negb connected then raise ZkNoConnection
  else
    zk <- get_state ;;
    let prefix_ := match prefix_ with Some p => p | None => prefix zk end in
    let party_path := os_path_join prefix_ "party" in
    ensure_path party_path true ;;;
    party <- on_kazoo (ZkParty.init party_path (_srv_id zk) autojoin) ;;
    modify (fun zk => with_parties (<[party_path := party]> (_parties zk)) zk) ;;;
    ret party.

Definition release_lock : M t unit :=
  modify (with_lock false) ;;;
  zk <- get_state ;;
  match _zk_lock zk with
  | None => ret tt
  | Some zk_lock =>
      (if _connected zk then
         try_ (r <- on_kazoo (Kazoo.release zk_lock) ;;
               modify (with_zk_lock (Some (snd r))))
              (fun e => match e with
                        | NoNodeError | ConnectionLoss | SessionExpiredError => Some (ret tt)
                        | _ => None
                        end)
       else ret tt) ;;;
      (* Hack suggested by https://github.com/python-zk/kazoo/issues/2 *)
      modify (fun zk => with_zk_lock (Kazoo.set_is_acquired false <$> _zk_lock zk) zk)
  end.

Definition have_lock : M t bool :=
  zk <- get_state ;;
  if _connected zk && (_lock_epoch zk =? conn_epoch zk) && _lock zk then ret true
  else release_lock ;;; ret false.

(** [get_lock].  The work-around for kazoo issue 288 catches exceptions
    the environment of this model never raises. *)
Definition get_lock (fuel : nat) (lock_timeout conn_timeout : option Q) : M t bool :=
  zk <- get_state ;;
  held <- match _zk_lock zk with
          | None =>
              let lock_path := os_path_join (prefix zk) "lock" in
              modify (with_zk_lock (Some {| Kazoo.lock_path := lock_path;
                                            Kazoo.identifier := _srv_id zk;
                                            Kazoo.is_acquired := false |})) ;;;
              ret false
          | Some _ => have_lock
          end ;;
  if held : bool then ret true
  else
    wait_connected fuel conn_timeout ;;;
    modify (fun zk => with_lock_epoch (conn_epoch zk) zk) ;;;
    try_ (zk <- get_state ;;
          match _zk_lock zk with
          | Some zk_lock =>
              r <- on_kazoo (Kazoo.acquire lock_timeout zk_lock) ;;
              modify (with_zk_lock (Some (snd r))) ;;;
              if fst r then modify (with_lock true) else ret tt
          | None => ret tt
          end)
         (fun e => match e with
                   | ConnectionLoss | SessionExpiredError => Some (raise ZkNoConnection)
                   | LockTimeout => Some (ret tt)
                   | _ => None
                   end) ;;;
    held <- have_lock ;;
    if held : bool then ret true else ret false.

(** [retry(desc, f, args, _retries, _timeout, kwargs)].  [f] stands for
    the call of [f] on its arguments; it runs on the client and its
    environment.  [count] is the value of the loop variable on entry to an
    iteration. *)
Fixpoint retry_loop {A} (fuel : nat) (desc : string) (f : M t A)
    (_retries : option Z) (_timeout : option Q) (count : Z) : M t A :=
  match fuel with
  | O => diverge
  | S fuel' =>
      let count := count + 1 in
      let attempt : M t A :=
        connected <- try_ (wait_connected fuel' _timeout ;;; ret true)
                          (fun e => match e with
                                    | ZkNoConnection => Some (ret false)
                                    | _ => None
                                    end) ;;
        if connected : bool then
          try_ f
               (fun e => match e with
                         | ZkNoConnection =>
                             Some (retry_loop fuel' desc f _retries _timeout count)
                         | _ => None
                         end)
        else retry_loop fuel' desc f _retries _timeout count in   (* continue *)
      match _retries with
      | Some r =>
          if r <? count
          then raise (ZkRetryLimit desc (1 + r))   (* break, then raise *)
          else attempt
      | None => attempt
      end
  end.

Definition retry {A} (fuel : nat) (desc : string) (f : M t A)
    (_retries : option Z) (_timeout : option Q) : M t A :=
  retry_loop fuel desc f _retries _timeout (-1).

End Zookeeper.

(** ** Python dictionaries *)

(** [d.setdefault(k, v)], for its effect on [d]. *)
Definition setdefault {V} (k : string) (v : V) (d : gmap string V) : gmap string V :=
  match d !! k with
  | Some _ => d
  | None => <[k := v]> d
  end.

(** ** class ZkSharedCache *)

Module ZkSharedCache.

Record t : Type := {
  _zk : Zookeeper.t;
  _path : string;
  _entries : gmap string Q;                (* entry name -> first seen *)
  _incoming_entries : list (string * Q);   (* deque: store() -> process() *)
  handled : list (list bytes)              (* the batches given to _handler, oldest first *)
}.

Definition with_zk (zk : Zookeeper.t) (c : t) : t :=
  {| _zk := zk; _path := _path c; _entries := _entries c;
     _incoming_entries := _incoming_entries c; handled := handled c |}.
Definition with_entries (f : gmap string Q -> gmap string Q) (c : t) : t :=
  {| _zk := _zk c; _path := _path c; _entries := f (_entries c);
     _incoming_entries := _incoming_entries c; handled := handled c |}.
Definition with_incoming (q : list (string * Q)) (c : t) : t :=
  {| _zk := _zk c; _path := _path c; _entries := _entries c;
     _incoming_entries := q; handled := handled c |}.
Definition with_handled (h : list (list bytes)) (c : t) : t :=
  {| _zk := _zk c; _path := _path c; _entries := _entries c;
     _incoming_entries := _incoming_entries c; handled := h |}.

(** [__init__] *)
Definition init (zk : Zookeeper.t) (path : string) : t :=
  {| _zk := zk; _path := os_path_join (Zookeeper.prefix zk) path;
     _entries := ∅; _incoming_entries := []; handled := [] |}.

(** A call on [self._zk]; a call on [self._kazoo], which is [zk.kazoo]. *)
Definition on_zk {A} (m : M Zookeeper.t A) : M t A := zoom _zk with_zk m.
Definition on_kazoo {A} (m : M Kazoo.World A) : M t A := on_zk (Zookeeper.on_kazoo m).

(** [self._handler(data)] *)
Definition _handler (data : list bytes) : M t unit :=
  modify (fun c => with_handled (handled c ++ [data]) c).

(** [self._incoming_entries.append((name, SCIONTime.get_time()))] *)
Definition record_incoming (name : string) : M t unit :=
  now <- on_kazoo Kazoo.get_time ;;
  modify (fun c => with_incoming (_incoming_entries c ++ [(name, now)]) c).

Definition store (name : string) (value : bytes) : M t unit :=
  connected <- on_zk Zookeeper.is_connected ;;
  if negb connected then raise ZkNoConnection
  else
    c <- get_state ;;
    let full_path := os_path_join (_path c) name in
    (* First, assume the entry already exists (the normal case) *)
    stored <- try_ (on_kazoo (Kazoo.set full_path value) ;;;
                    record_incoming name ;;;
                    ret true)
                   (fun e => match e with
                             | NoNodeError => Some (ret false)
                             | ConnectionLoss | SessionExpiredError =>
                                 Some (raise ZkNoConnection)
                             | _ => None
                             end) ;;
    if stored : bool then ret tt
    else
      (* Entry doesn't exist, so create it instead. *)
      try_ (on_kazoo (Kazoo.create full_path value true) ;;;
            record_incoming name)
           (fun e => match e with
                     | NodeExistsError => Some (ret tt)
                     | ConnectionLoss | SessionExpiredError =>
                         Some (raise ZkNoConnection)
                     | _ => None
                     end).

Definition _get (name : string) : M t bytes :=
  c <- get_state ;;
  let full_path := os_path_join (_path c) name in
  data <- try_ (on_kazoo (Kazoo.get full_path))
               (fun e => match e with
                         | ConnectionLoss | SessionExpiredError =>
                             Some (raise ZkNoConnection)
                         | NoNodeError =>
                             Some (modify (with_entries (delete name)) ;;;
                                   raise ZkNoNodeError)
                         | _ => None
                         end) ;;
  now <- on_kazoo Kazoo.get_time ;;
  modify (with_entries (setdefault name now)) ;;;
  ret data.

Definition _list_entries : M t (gset string) :=
  c <- get_state ;;
  try_ (children <- on_kazoo (Kazoo.get_children (_path c)) ;;
        ret (list_to_set children))
       (fun e => match e with
                 | ConnectionLoss | SessionExpiredError =>
                     Some (raise ZkNoConnection)
                 | NoNodeError => Some (ret ∅)
                 | _ => None
                 end).

(** The loop of [_handle_entries]: [None] is the [break]. *)
Fixpoint fetch_entries (entry_names : list string) (data : list bytes)
    : M t (list bytes) :=
  match entry_names with
  | [] => ret data
  | name :: rest =>
      step <- try_ (d <- _get name ;; ret (Some (data ++ [d])))
                   (fun e => match e with
                             | ZkNoConnection => Some (ret None)
                             | ZkNoNodeError => Some (ret (Some data))
                             | _ => None
                             end) ;;
      match step with
      | None => ret data
      | Some data' => fetch_entries rest data'
      end
  end.

Definition _handle_entries (entry_names : gset string) : M t nat :=
  data <- fetch_entries (elements entry_names) [] ;;
  _handler data ;;;
  ret (length data).

(** [del self._entries[entry]] *)
Definition del_entry (entry : string) : M t unit :=
  c <- get_state ;;
  match _entries c !! entry with
  | Some _ => modify (with_entries (delete entry))
  | None => raise (KeyError entry)
  end.

(** [while self._incoming_entries: ...], on the content of the deque. *)
Fixpoint drain_incoming (incoming : list (string * Q)) : M t unit :=
  match incoming with
  | [] => ret tt
  | (name, ts) :: rest =>
      modify (with_incoming rest) ;;;
      (* If the entry already exists, don't change it. *)
      modify (with_entries (setdefault name ts)) ;;;
      drain_incoming rest
  end.

(** [process].  The count is only logged. *)
Definition process : M t unit :=
  connected <- on_zk Zookeeper.is_connected ;;
  if negb connected then raise ZkNoConnection
  else
    c <- get_state ;;
    drain_incoming (_incoming_entries c) ;;;
    c <- get_state ;;
    let previous := dom (_entries c) in
    current <- _list_entries ;;
    for_each (elements (previous ∖ current)) del_entry ;;;
    count <- _handle_entries (current ∖ previous) ;;
    ret tt.

(** The loop of [expire] over [self._entries.items()]. *)
Fixpoint expire_entries (now ttl : Q) (items : list (string * Q)) (count : Z)
    : M t Z :=
  match items with
  | [] => ret count
  | (entry, ts) :: rest =>
      if Qgtb (now - ts) ttl then
        c <- get_state ;;
        let full_path := os_path_join (_path c) entry in
        let count := count + 1 in
        try_ (on_kazoo (Kazoo.delete full_path))
             (fun e => match e with
                       | NoNodeError => Some (raise ZkNoNodeError)
                       | ConnectionLoss | SessionExpiredError =>
                           Some (raise ZkNoConnection)
                       | _ => None
                       end) ;;;
        expire_entries now ttl rest count
      else expire_entries now ttl rest count
  end.

(** [expire].  The count is only logged. *)
Definition expire (ttl : Q) : M t unit :=
  connected <- on_zk Zookeeper.is_connected ;;
  if negb connected then raise ZkNoConnection
  else
    now <- on_kazoo Kazoo.get_time ;;
    c <- get_state ;;
    count <- expire_entries now ttl (map_to_list (_entries c)) 0 ;;
    ret tt.

End ZkSharedCache.

(** ** class Zookeeper: waiting for the lock, and its holder *)

(** [wait_lock]: [self._lock.wait()] returns once the acquired bit is set.
    Nothing in the calling thread sets it, so with the bit clear the call
    blocks. *)
Definition wait_lock : M Zookeeper.t unit :=
  zk <- get_state ;;
  if Zookeeper._lock zk then ret tt else diverge.

(** [str.split(sep)] for a separator of one character: the fields between
    the occurrences of [sep], at least one field. *)
Fixpoint py_split (sep_ : Ascii.ascii) (s : string) : list string :=
  match s with
  | EmptyString => [EmptyString]
  | String c rest =>
      match py_split sep_ rest with
      | field :: fields =>
          if Ascii.eqb c sep_ then EmptyString :: field :: fields
          else String c field :: fields
      | [] => [String c EmptyString]
      end
  end.

Definition NUL : Ascii.ascii := Ascii.zero.

(** Kazoo's [Lock.contenders()]: the identifiers of the contenders queued
    under the lock path. *)
Definition lock_contenders (l : Kazoo.Lock) : M Kazoo.World (list string) :=
  Kazoo.request ;;;
  m <- gets Kazoo.nodes ;;
  ret (Kazoo.children_of (Kazoo.lock_path l) m).

(** What [get_lock_holder] produces.  Unpacking the fields of a contender
    raises Python's [ValueError] when there are not exactly three. *)
Inductive HolderRes : Type :=
  | holder (server_addr : option string)
  | holder_raises (e : PyExc)
  | holder_ValueError (fields : list string)
  | holder_blocks.

Definition get_lock_holder (zk : Zookeeper.t) : HolderRes * Zookeeper.t :=
  match Zookeeper._zk_lock zk with
  | None => (holder None, zk)
  | Some zk_lock =>
      match Zookeeper.on_kazoo (lock_contenders zk_lock) zk with
      | (Ok [], zk') => (holder None, zk')
      | (Ok (first :: _), zk') =>
          match py_split NUL first with
          | [_; _; server_addr] => (holder (Some server_addr), zk')
          | fields => (holder_ValueError fields, zk')
          end
      | (Raise ConnectionLoss, zk') | (Raise SessionExpiredError, zk') =>
          (holder_raises ZkNoConnection, zk')
      | (Raise e, zk') => (holder_raises e, zk')
      | (Diverge, zk') => (holder_blocks, zk')
      end
  end.

(** * Properties *)

(** ** Reasoning about computations *)

Create HintDb unf_m.
Global Hint Unfold ret raise diverge bind get_state gets modify try_ zoom : unf_m.

(** Unfold the monad, split on every outcome that is scrutinised, and clean
    up the equations this leaves. *)
Ltac mstep :=
  match goal with
  | H : (_, _) = (_, _) |- _ => inversion H; clear H; subst
  | H : Ok _ = Ok _ |- _ => inversion H; clear H; subst
  | H : Raise _ = Raise _ |- _ => inversion H; clear H; subst
  | H : Some _ = Some _ |- _ => inversion H; clear H; subst
  | H : context [match ?x with _ => _ end] |- _ =>
      let E := fresh "E" in destruct x eqn:E
  | |- context [match ?x with _ => _ end] =>
      let E := fresh "E" in destruct x eqn:E
  | _ => discriminate
  | _ => progress (autounfold with unf_m in *; simpl in * )
  end.
Ltac msimpl := repeat mstep.

(** A computation maintains a relation on a component of its state when
    every run of it, finished or not, leaves the component related to what
    it was.  It keeps the component when the relation is equality. *)
Definition maintains {S X A} (R : relation X) (proj : S -> X) (m : M S A) : Prop :=
  ∀ s, R (proj s) (proj (m s).2).

Abbreviation keeps := (maintains eq).

Section Maintains.
Context {S X : Type} (R : relation X) `{!Reflexive R} `{!Transitive R}.
Context (proj : S -> X).

Lemma maintains_ret {A} (a : A) : maintains R proj (ret a).
Proof. intros s. simpl. reflexivity. Qed.

Lemma maintains_raise {A} e : maintains R proj (raise e : M S A).
Proof. intros s. simpl. reflexivity. Qed.

Lemma maintains_diverge {A} : maintains R proj (diverge : M S A).
Proof. intros s. simpl. reflexivity. Qed.

Lemma maintains_get_state : maintains R proj get_state.
Proof. intros s. simpl. reflexivity. Qed.

Lemma maintains_gets {A} (f : S -> A) : maintains R proj (gets f).
Proof. intros s. simpl. reflexivity. Qed.

Lemma maintains_modify (f : S -> S) :
  (∀ s, R (proj s) (proj (f s))) -> maintains R proj (modify f).
Proof. intros Hf s. apply Hf. Qed.

Lemma maintains_bind {A B} (m : M S A) (k : A -> M S B) :
  maintains R proj m -> (∀ a, maintains R proj (k a)) -> maintains R proj (bind m k).
Proof.
  intros Hm Hk s. unfold bind. specialize (Hm s).
  destruct (m s) as [[a|e|] s']; simpl in *; try done.
  etrans; [exact Hm|apply Hk].
Qed.

Lemma maintains_try {A} (m : M S A) (except : PyExc -> option (M S A)) :
  maintains R proj m ->
  (∀ e handler, except e = Some handler -> maintains R proj handler) ->
  maintains R proj (try_ m except).
Proof.
  intros Hm Hh s. unfold try_. specialize (Hm s).
  destruct (m s) as [[a|e|] s']; simpl in *; try done.
  destruct (except e) as [handler|] eqn:E; simpl; try done.
  etrans; [exact Hm|by apply (Hh _ _ E)].
Qed.

Lemma maintains_zoom {T A} (get_t : S -> T) (upd : T -> S -> S) (m : M T A) :
  (∀ t s, R (proj s) (proj (upd t s))) -> maintains R proj (zoom get_t upd m).
Proof.
  intros Hupd s. unfold zoom. destruct (m (get_t s)) as [r t']. apply Hupd.
Qed.

Lemma maintains_for_each {Y} (xs : list Y) (body : Y -> M S unit) :
  (∀ x, maintains R proj (body x)) -> maintains R proj (for_each xs body).
Proof.
  intros Hb. induction xs as [|x xs IH]; simpl.
  - apply maintains_ret.
  - apply maintains_bind; auto.
Qed.
End Maintains.

Lemma for_each_app {S X} (xs ys : list X) (body : X -> M S unit) s :
  for_each (xs ++ ys) body s = (for_each xs body ;;; for_each ys body) s.
Proof.
  revert s. induction xs as [|x xs IH]; intros s; simpl; [done|].
  unfold bind. destruct (body x s) as [[[]|e|] s']; try done.
Qed.

(** The except clauses of the module only raise, return or continue with a
    computation that is known to keep the component. *)
Ltac keeps_step :=
  match goal with
  | |- maintains _ _ (ret _) => apply maintains_ret; apply _
  | |- maintains _ _ (raise _) => apply maintains_raise; apply _
  | |- maintains _ _ diverge => apply maintains_diverge; apply _
  | |- maintains _ _ get_state => apply maintains_get_state; apply _
  | |- maintains _ _ (gets _) => apply maintains_gets; apply _
  | |- maintains _ _ (modify _) => apply maintains_modify; intros; reflexivity
  | |- maintains _ _ (zoom _ _ _) => apply maintains_zoom; intros; reflexivity
  | |- maintains _ _ (bind _ _) => apply maintains_bind; [apply _| |intros ?]
  | |- maintains _ _ (for_each _ _) =>
      apply maintains_for_each; [apply _|apply _|intros ?]
  | |- maintains _ _ (try_ _ _) =>
      apply maintains_try;
      [apply _| |let e := fresh "e" in let h := fresh "h" in let E := fresh "E" in
        intros e h E; destruct e; simpl in E; try discriminate E;
        inversion E; subst; clear E]
  | |- maintains _ _ (match ?x with _ => _ end) => destruct x
  | |- maintains _ _ _ => assumption
  end.
Ltac keeps_auto := repeat keeps_step.

(** ** The connection epoch *)

(** What can happen to a client: Kazoo notifies the listener of a state
    change, the state worker runs an iteration of its loop, or a service
    thread calls a method. *)
Inductive ApiCall : Type :=
  | call_is_connected
  | call_wait_connected (fuel : nat) (timeout : option Q)
  | call_ensure_path (path : string) (abs : bool)
  | call_party_setup (prefix_ : option string) (autojoin : bool)
  | call_get_lock (fuel : nat) (lock_timeout conn_timeout : option Q)
  | call_release_lock
  | call_have_lock
  | call_retry (fuel : nat) (desc : string) (f : ApiCall)
      (_retries : option Z) (_timeout : option Q).

Fixpoint api (c : ApiCall) : M Zookeeper.t unit :=
  match c with
  | call_is_connected => Zookeeper.is_connected ;;; ret tt
  | call_wait_connected fuel timeout => Zookeeper.wait_connected fuel timeout
  | call_ensure_path path abs => Zookeeper.ensure_path path abs
  | call_party_setup prefix_ autojoin => Zookeeper.party_setup prefix_ autojoin ;;; ret tt
  | call_get_lock fuel lock_timeout conn_timeout =>
      Zookeeper.get_lock fuel lock_timeout conn_timeout ;;; ret tt
  | call_release_lock => Zookeeper.release_lock
  | call_have_lock => Zookeeper.have_lock ;;; ret tt
  | call_retry fuel desc f _retries _timeout =>
      Zookeeper.retry fuel desc (api f) _retries _timeout
  end.

Inductive Activity : Type :=
  | Notified (new_state : KazooState)
  | WorkerIterates
  | Called (c : ApiCall).

(** The client together with the state worker's [old_state]. *)
Definition perform (st : WorkerState * Zookeeper.t) (a : Activity)
    : WorkerState * Zookeeper.t :=
  let '(old_state, zk) := st in
  match a with
  | Notified new_state => (old_state, (Zookeeper._state_listener new_state zk).2)
  | WorkerIterates =>
      match Zookeeper._state_handler_iter old_state zk with
      | (Ok old_state', zk') => (old_state', zk')
      | (_, zk') => (old_state, zk')
      end
  | Called c => (old_state, (api c zk).2)
  end.

Definition run (trace : list Activity) (st : WorkerState * Zookeeper.t)
    : WorkerState * Zookeeper.t :=
  foldl perform st trace.

Definition is_notification (a : Activity) : bool :=
  match a with
  | Notified _ => true
  | _ => false
  end.

Definition notifications (trace : list Activity) : nat :=
  length (List.filter is_notification trace).

Section Epoch.
Import Zookeeper.
Context {X : Type} (proj : Zookeeper.t -> X).

(** The attributes that only [_state_listener] assigns. *)
Hypothesis proj_connected : ∀ b zk, proj (with_connected b zk) = proj zk.
Hypothesis proj_lock : ∀ b zk, proj (with_lock b zk) = proj zk.
Hypothesis proj_parties : ∀ p zk, proj (with_parties p zk) = proj zk.
Hypothesis proj_zk_lock : ∀ l zk, proj (with_zk_lock l zk) = proj zk.
Hypothesis proj_lock_epoch : ∀ n zk, proj (with_lock_epoch n zk) = proj zk.
Hypothesis proj_kazoo : ∀ w zk, proj (with_kazoo w zk) = proj zk.
Hypothesis proj_hook_calls : ∀ h zk, proj (with_hook_calls h zk) = proj zk.

Local Ltac frame :=
  repeat first
    [ keeps_step
    | apply maintains_modify; intros;
      rewrite ?proj_connected, ?proj_lock, ?proj_parties, ?proj_zk_lock,
        ?proj_lock_epoch, ?proj_kazoo, ?proj_hook_calls; reflexivity
    | apply maintains_zoom; intros; symmetry; apply proj_kazoo ].

Lemma keeps_on_kazoo {A} (m : M Kazoo.World A) : keeps proj (on_kazoo m).
Proof. unfold on_kazoo. frame. Qed.

Lemma keeps_ensure_path path abs : keeps proj (ensure_path path abs).
Proof. unfold ensure_path, no_connection. frame. Qed.

Lemma keeps_wait_connected_loop fuel timeout start total :
  keeps proj (wait_connected_loop fuel timeout start total).
Proof.
  revert total. induction fuel as [|fuel IH]; intros total; simpl.
  - frame.
  - unfold _connected_wait. frame; apply IH.
Qed.

Lemma keeps_wait_connected fuel timeout : keeps proj (wait_connected fuel timeout).
Proof.
  unfold wait_connected, is_connected. frame. apply keeps_wait_connected_loop.
Qed.

Lemma keeps_release_lock : keeps proj release_lock.
Proof. unfold release_lock. frame. Qed.

Lemma keeps_have_lock : keeps proj have_lock.
Proof. unfold have_lock. frame. apply keeps_release_lock. Qed.

Lemma keeps_get_lock fuel lock_timeout conn_timeout :
  keeps proj (get_lock fuel lock_timeout conn_timeout).
Proof.
  unfold get_lock.
  frame; first [apply keeps_have_lock | apply keeps_wait_connected].
Qed.

Lemma keeps_party_setup prefix_ autojoin : keeps proj (party_setup prefix_ autojoin).
Proof. unfold party_setup, is_connected. frame. apply keeps_ensure_path. Qed.

Lemma keeps_retry_loop {A} fuel desc (f : M t A) _retries _timeout count :
  keeps proj f -> keeps proj (retry_loop fuel desc f _retries _timeout count).
Proof.
  intros Hf. revert count.
  induction fuel as [|fuel IH]; intros count; simpl; [frame|].
  frame; first [apply keeps_wait_connected | apply IH].
Qed.

Lemma keeps_api c : keeps proj (api c).
Proof.
  induction c; simpl; unfold is_connected, retry.
  all: frame.
  all: auto using keeps_wait_connected, keeps_ensure_path, keeps_party_setup,
         keeps_get_lock, keeps_release_lock, keeps_have_lock, keeps_retry_loop.
Qed.

Lemma keeps_reconnect_setup : keeps proj reconnect_setup.
Proof. unfold reconnect_setup. frame. apply keeps_ensure_path. Qed.

Hypothesis proj_state_events : ∀ q zk, proj (with_state_events q zk) = proj zk.

Lemma keeps_state_connected : keeps proj _state_connected.
Proof.
  unfold _state_connected, call_hook.
  frame; apply keeps_reconnect_setup.
Qed.

Lemma keeps_state_suspended : keeps proj _state_suspended.
Proof. unfold _state_suspended, call_hook. frame. Qed.

Lemma keeps_state_lost : keeps proj _state_lost.
Proof. unfold _state_lost, call_hook. frame. Qed.

Lemma keeps_state_handler_iter old_state : keeps proj (_state_handler_iter old_state).
Proof.
  unfold _state_handler_iter.
  frame; try (apply maintains_modify; intros; symmetry; apply proj_state_events).
  all: auto using keeps_state_connected, keeps_state_suspended, keeps_state_lost.
Qed.
End Epoch.

Lemma perform_conn_epoch st a :
  Zookeeper.conn_epoch (perform st a).2 =
  Zookeeper.conn_epoch st.2 + (if is_notification a then 1 else 0).
Proof.
  destruct st as [old_state zk], a as [new_state| |c]; simpl.
  - done.
  - assert (keeps Zookeeper.conn_epoch (Zookeeper._state_handler_iter old_state)) as H
      by (by apply keeps_state_handler_iter).
    specialize (H zk).
    destruct (Zookeeper._state_handler_iter old_state zk) as [[old'|e|] zk'];
      simpl in *; lia.
  - assert (keeps Zookeeper.conn_epoch (api c)) as H by (by apply keeps_api).
    specialize (H zk). simpl in *. lia.
Qed.

Lemma run_snoc trace a st : run (trace ++ [a]) st = perform (run trace st) a.
Proof. unfold run. by rewrite foldl_app. Qed.

Lemma run_conn_epoch trace st :
  Zookeeper.conn_epoch (run trace st).2 =
  Zookeeper.conn_epoch st.2 + Z.of_nat (notifications trace).
Proof.
  induction trace as [|a trace IH] using rev_ind.
  - unfold notifications. simpl. lia.
  - rewrite run_snoc, perform_conn_epoch, IH.
    unfold notifications. rewrite List.filter_app, length_app. simpl.
    destruct (is_notification a); simpl; lia.
Qed.

Lemma notifications_Notified states :
  notifications (map Notified states) = length states.
Proof.
  unfold notifications. induction states as [|s states IH]; simpl; [done|].
  by rewrite IH.
Qed.

(** C2.  The listener increments the connection epoch by one on every
    notification and queues the state; nothing else the client does changes
    the epoch.  So whatever the worker and the service threads do in between,
    the epoch is the initial one plus the number of notifications: after N
    notifications to a fresh client it is N, and it never decreases. *)
Theorem conn_epoch_counts_notifications :
  (∀ new_state zk,
     ∃ zk', Zookeeper._state_listener new_state zk = (Ok false, zk') ∧
            Zookeeper.conn_epoch zk' = Zookeeper.conn_epoch zk + 1 ∧
            Zookeeper._state_events zk' = Zookeeper._state_events zk ++ [new_state]) ∧
  (∀ trace st,
     Zookeeper.conn_epoch (run trace st).2 =
     Zookeeper.conn_epoch st.2 + Z.of_nat (notifications trace)) ∧
  (∀ isd_as srv_type srv_id on_connect_ on_disconnect_ w states,
     let zk := Zookeeper.init isd_as srv_type srv_id on_connect_ on_disconnect_ w in
     Zookeeper.conn_epoch zk = 0 ∧
     Zookeeper.conn_epoch (run (map Notified states) (startup, zk)).2 =
       Z.of_nat (length states)) ∧
  (∀ trace st a,
     Zookeeper.conn_epoch (run trace st).2 ≤
     Zookeeper.conn_epoch (run (trace ++ [a]) st).2).
Proof.
  split; [|split; [|split]].
  - intros new_state zk. eexists. split; [reflexivity|]. done.
  - apply run_conn_epoch.
  - intros isd_as srv_type srv_id on_connect_ on_disconnect_ w states zk.
    split; [done|].
    rewrite run_conn_epoch, notifications_Notified. simpl. lia.
  - intros trace st a. rewrite run_snoc, perform_conn_epoch.
    destruct (is_notification a); lia.
Qed.

(** ** The lock *)

(** [Lock.release()] fails only with [NoNodeError], [ConnectionLoss] or
    [SessionExpiredError]; it always returns. *)
Lemma Kazoo_release_outcome l w :
  match (Kazoo.release l w).1 with
  | Ok _ => True
  | Raise e => e = NoNodeError ∨ e = ConnectionLoss ∨ e = SessionExpiredError
  | Diverge => False
  end.
Proof.
  unfold Kazoo.release, Kazoo.delete, Kazoo.request.
  destruct (Kazoo.is_acquired l); [|done].
  destruct (Kazoo.pending w) as [|[] rest]; msimpl; auto.
Qed.

Lemma Kazoo_release_lock_object l w b l' w' :
  Kazoo.release l w = (Ok (b, l'), w') ->
  Kazoo.set_is_acquired false l' = Kazoo.set_is_acquired false l.
Proof.
  unfold Kazoo.release. destruct (Kazoo.is_acquired l) eqn:Hacq.
  - autounfold with unf_m. destruct (Kazoo.delete _ w) as [[[]|e|] w1]; by inversion 1.
  - inversion 1; subst. done.
Qed.

(** What [release_lock] does to the client. *)
Definition released (zk zk' : Zookeeper.t) : Prop :=
    Zookeeper._lock zk' = false ∧
    Zookeeper.kazoo zk' =
      (match Zookeeper._zk_lock zk with
       | Some zk_lock =>
           if Zookeeper._connected zk
           then (Kazoo.release zk_lock (Zookeeper.kazoo zk)).2
           else Zookeeper.kazoo zk
       | None => Zookeeper.kazoo zk
       end) ∧
    Zookeeper._zk_lock zk' = (Kazoo.set_is_acquired false <$> Zookeeper._zk_lock zk) ∧
    Zookeeper._connected zk' = Zookeeper._connected zk ∧
    Zookeeper.conn_epoch zk' = Zookeeper.conn_epoch zk ∧
    Zookeeper._lock_epoch zk' = Zookeeper._lock_epoch zk ∧
    Zookeeper.hook_calls zk' = Zookeeper.hook_calls zk.

Lemma release_lock_returns (zk : Zookeeper.t) :
  ∃ zk', Zookeeper.release_lock zk = (Ok tt, zk') ∧ released zk zk'.
Proof.
  unfold Zookeeper.release_lock, Zookeeper.on_kazoo, released.
  destruct zk as [srv pre hc hd conn lk evs ce parties [zk_lock|] le w hooks];
    autounfold with unf_m; simpl; [|eexists; repeat split; done].
  destruct conn; simpl; [|eexists; repeat split; done].
  pose proof (Kazoo_release_outcome zk_lock w) as Hout.
  destruct (Kazoo.release zk_lock w) as [[[b l']|e|] w'] eqn:Hrel; simpl in *.
  - eexists. repeat split; try done.
    simpl. f_equal. by eapply Kazoo_release_lock_object.
  - destruct Hout as [->|[->| ->]]; simpl; eexists; repeat split; done.
  - done.
Qed.

(** C8.  [release_lock] returns normally from every client state, whatever
    the store answers.  The acquired bit is clear afterwards, also when the
    client is disconnected or has no lock object.  The store is contacted
    only when the client is connected and has a lock object; then the
    environment is left as [Lock.release()] leaves it and any error of that
    call ([NoNodeError], [ConnectionLoss] or [SessionExpiredError]) is
    dropped.  The lock object ends with [is_acquired] false; nothing else of
    the client changes. *)
Theorem release_lock_never_raises (zk : Zookeeper.t) :
  ∃ zk', Zookeeper.release_lock zk = (Ok tt, zk') ∧ released zk zk'.
Proof. apply release_lock_returns. Qed.

(** The invariant of the lock state: connected, acquired, and acquired in
    the current connection epoch. *)
Definition lock_held (zk : Zookeeper.t) : Prop :=
  Zookeeper._connected zk = true ∧
  Zookeeper._lock zk = true ∧
  Zookeeper._lock_epoch zk = Zookeeper.conn_epoch zk.

Global Instance lock_held_dec zk : Decision (lock_held zk).
Proof. unfold lock_held. apply _. Defined.

(** C1.  [have_lock] always returns, and it returns [True] exactly when the
    client is connected, the acquired bit is set and the epoch recorded at
    acquisition is the current connection epoch.  In that case the client is
    left as it was.  Otherwise [have_lock] returns [False] after running
    [release_lock], so the acquired bit is clear. *)
Theorem have_lock_iff_lock_held (zk : Zookeeper.t) :
  ∃ (held : bool) (zk' : Zookeeper.t),
    Zookeeper.have_lock zk = (Ok held, zk') ∧
    (held = true ↔ lock_held zk) ∧
    (held = true -> zk' = zk) ∧
    (held = false ->
       Zookeeper._lock zk' = false ∧ zk' = (Zookeeper.release_lock zk).2).
Proof.
  destruct (release_lock_returns zk) as (zk1 & Hrel & Hbit & _).
  assert (¬ lock_held zk ->
          ∃ (held : bool) (zk' : Zookeeper.t),
            (Ok false, zk1) = (Ok held, zk') ∧ (held = true ↔ lock_held zk) ∧
            (held = true -> zk' = zk) ∧
            (held = false -> Zookeeper._lock zk' = false ∧ zk' = zk1))
    as Hno.
  { intros Hnot. exists false, zk1. repeat split; done. }
  unfold Zookeeper.have_lock. autounfold with unf_m.
  destruct (Zookeeper._connected zk) eqn:Hc; simpl.
  2: { rewrite Hrel. cbn [snd]. apply Hno. unfold lock_held. intros (? & _). congruence. }
  destruct (Z.eqb_spec (Zookeeper._lock_epoch zk) (Zookeeper.conn_epoch zk)) as [He|He]; simpl.
  2: { rewrite Hrel. cbn [snd]. apply Hno. unfold lock_held. intros (_ & _ & ?). congruence. }
  destruct (Zookeeper._lock zk) eqn:Hl; simpl.
  - exists true, zk. unfold lock_held. repeat split; done.
  - rewrite Hrel. cbn [snd]. apply Hno. unfold lock_held. intros (_ & ? & _). congruence.
Qed.

(** ** The state worker on CONNECTED *)

(** Setting up the session again fails for lack of a connection: ensuring
    the prefix path raises [ZkNoConnection], or it succeeds, the parties
    before some party rejoin, and that party's [autojoin] raises
    [ZkNoConnection]. *)
Definition reconnect_fails (zk : Zookeeper.t) : Prop :=
  (Zookeeper.ensure_path (Zookeeper.prefix zk) true zk).1 = Raise ZkNoConnection ∨
  ∃ zk1 before party after zk2,
    Zookeeper.ensure_path (Zookeeper.prefix zk) true zk = (Ok tt, zk1) ∧
    (map_to_list (Zookeeper._parties zk1)).*2 = before ++ party :: after ∧
    for_each before (fun p => Zookeeper.on_kazoo (ZkParty.autojoin p)) zk1 = (Ok tt, zk2) ∧
    (Zookeeper.on_kazoo (ZkParty.autojoin party) zk2).1 = Raise ZkNoConnection.

Lemma reconnect_fails_setup zk :
  reconnect_fails zk ->
  (Zookeeper.reconnect_setup zk).1 = Raise ZkNoConnection.
Proof.
  unfold Zookeeper.reconnect_setup.
  intros [Hpath|(zk1 & before & party & after & zk2 & Hpath & Hparties & Hbefore & Hparty)].
  - unfold bind, get_state.
    destruct (Zookeeper.ensure_path _ true zk) as [[[]|e|] zk1]; simpl in *; congruence.
  - unfold bind at 1 2 3, get_state. rewrite Hpath, Hparties, for_each_app.
    unfold bind at 1. rewrite Hbefore. simpl. unfold bind at 1.
    destruct (Zookeeper.on_kazoo (ZkParty.autojoin party) zk2) as [[[]|e|] zk3];
      simpl in *; congruence.
Qed.

(** C9.  When re-establishing the session fails for lack of a connection,
    [_state_connected] returns without setting the connected flag and
    without calling the on-connect hook.  So does the iteration of the state
    worker that dispatches the CONNECTED transition; the worker nevertheless
    records CONNECTED as the state it has seen. *)
Theorem state_connected_returns_early (zk : Zookeeper.t) :
  reconnect_fails zk ->
  (∃ zk', Zookeeper._state_connected zk = (Ok tt, zk') ∧
          zk' = (Zookeeper.reconnect_setup zk).2 ∧
          Zookeeper._connected zk' = Zookeeper._connected zk ∧
          Zookeeper.hook_calls zk' = Zookeeper.hook_calls zk) ∧
  (∀ zk0 old_state,
     Zookeeper._state_events zk0 = [CONNECTED] ->
     old_state ≠ seen CONNECTED ->
     zk = Zookeeper.with_state_events [] zk0 ->
     ∃ zk', Zookeeper._state_handler_iter old_state zk0 = (Ok (seen CONNECTED), zk') ∧
            Zookeeper._connected zk' = Zookeeper._connected zk0 ∧
            Zookeeper.hook_calls zk' = Zookeeper.hook_calls zk0).
Proof.
  intros Hfails.
  assert (∃ zk', Zookeeper._state_connected zk = (Ok tt, zk') ∧
                 zk' = (Zookeeper.reconnect_setup zk).2 ∧
                 Zookeeper._connected zk' = Zookeeper._connected zk ∧
                 Zookeeper.hook_calls zk' = Zookeeper.hook_calls zk) as Hconn.
  { apply reconnect_fails_setup in Hfails.
    assert (keeps Zookeeper._connected Zookeeper.reconnect_setup) as Hc
      by (by apply keeps_reconnect_setup).
    assert (keeps Zookeeper.hook_calls Zookeeper.reconnect_setup) as Hh
      by (by apply keeps_reconnect_setup).
    specialize (Hc zk). specialize (Hh zk).
    unfold Zookeeper._state_connected. unfold bind, try_, ret.
    destruct (Zookeeper.reconnect_setup zk) as [r zk1]; simpl in *; subst r.
    by exists zk1. }
  split; [exact Hconn|].
  intros zk0 old_state Hq Hold ->.
  destruct Hconn as (zk' & Hrun & _ & Hc & Hh).
  exists zk'. unfold Zookeeper._state_handler_iter.
  unfold bind at 1, get_state. rewrite Hq.
  unfold bind at 1, modify. simpl.
  rewrite bool_decide_eq_false_2 by congruence.
  unfold bind, ret. rewrite Hrun. done.
Qed.

(** ** The shared cache *)

(** The environment a cache talks to, and whether its client is connected. *)
Definition world (c : ZkSharedCache.t) : Kazoo.World :=
  Zookeeper.kazoo (ZkSharedCache._zk c).
Definition connected (c : ZkSharedCache.t) : bool :=
  Zookeeper._connected (ZkSharedCache._zk c).
Definition full_path (c : ZkSharedCache.t) (name : string) : string :=
  os_path_join (ZkSharedCache._path c) name.

Lemma app_singleton_neq {X} (l : list X) (x : X) : l ++ [x] ≠ l.
Proof.
  intros H. apply (f_equal length) in H. rewrite length_app in H. simpl in H. lia.
Qed.

(** What a Kazoo request can raise (and it always returns). *)
Definition request_error (e : PyExc) : Prop :=
  e = ConnectionLoss ∨ e = SessionExpiredError.

Lemma Kazoo_request_outcome w :
  match (Kazoo.request w).1 with
  | Ok _ => True
  | Raise e => request_error e
  | Diverge => False
  end.
Proof.
  unfold Kazoo.request, request_error.
  destruct (Kazoo.pending w) as [|[] rest]; simpl; auto.
Qed.

Ltac cache_unfold :=
  unfold ZkSharedCache.on_kazoo, ZkSharedCache.on_zk, Zookeeper.on_kazoo,
    Zookeeper.is_connected, ZkSharedCache.record_incoming, Kazoo.get_time,
    world, connected, full_path in *.

(** C10.  [_get] on a name whose node is absent removes the name from the
    timestamp map and raises [ZkNoNodeError]: afterwards the name has no
    timestamp.  On a successful read it returns the payload and records the
    current time for the name only if the name has no timestamp yet.  When
    the connection is lost the map is left alone. *)
Theorem get_forgets_absent_entry (name : string) (c : ZkSharedCache.t) :
  ∃ c',
    (ZkSharedCache._get name c).2 = c' ∧
    ZkSharedCache._incoming_entries c' = ZkSharedCache._incoming_entries c ∧
    match Kazoo.get (full_path c name) (world c) with
    | (Raise NoNodeError, w') =>
        (ZkSharedCache._get name c).1 = Raise ZkNoNodeError ∧
        world c' = w' ∧
        ZkSharedCache._entries c' = delete name (ZkSharedCache._entries c) ∧
        ZkSharedCache._entries c' !! name = None
    | (Ok data, w') =>
        (ZkSharedCache._get name c).1 = Ok data ∧
        world c' = w' ∧
        ZkSharedCache._entries c' =
          (match ZkSharedCache._entries c !! name with
           | Some _ => ZkSharedCache._entries c
           | None => <[name := Kazoo.clock w']> (ZkSharedCache._entries c)
           end) ∧
        ZkSharedCache._entries c' !! name =
          Some (default (Kazoo.clock w') (ZkSharedCache._entries c !! name))
    | (Raise e, w') =>
        request_error e ∧
        (ZkSharedCache._get name c).1 = Raise ZkNoConnection ∧
        world c' = w' ∧
        ZkSharedCache._entries c' = ZkSharedCache._entries c
    | (Diverge, _) => False
    end.
Proof.
  eexists. split; [reflexivity|].
  destruct c as [zk path entries incoming batches].
  unfold ZkSharedCache._get. cache_unfold. simpl.
  pose proof (Kazoo_request_outcome (Zookeeper.kazoo zk)) as Hreq.
  unfold Kazoo.get in *. autounfold with unf_m. simpl.
  destruct (Kazoo.request (Zookeeper.kazoo zk)) as [[[]|e|] w1]; simpl in *.
  - destruct (Kazoo.nodes w1 !! os_path_join path name) as [data|]; simpl.
    + unfold setdefault. repeat split; try done.
      destruct (entries !! name) as [ts|] eqn:E; simpl; [done|].
      by rewrite lookup_insert_eq.
    + repeat split; try done. by rewrite lookup_delete_eq.
  - destruct Hreq as [-> | ->]; simpl; repeat split; unfold request_error; auto.
  - done.
Qed.

(** [store] on a connected cache, by the outcome of [set] and, when the node
    is absent, of [create]. *)
Lemma store_outcome (name : string) (value : bytes) (c : ZkSharedCache.t) :
  connected c = true ->
  ∃ c',
    (ZkSharedCache.store name value c).2 = c' ∧
    ZkSharedCache._entries c' = ZkSharedCache._entries c ∧
    match Kazoo.set (full_path c name) value (world c) with
    | (Ok _, w1) =>
        (ZkSharedCache.store name value c).1 = Ok tt ∧ world c' = w1 ∧
        ZkSharedCache._incoming_entries c' =
          ZkSharedCache._incoming_entries c ++ [(name, Kazoo.clock w1)]
    | (Raise NoNodeError, w1) =>
        match Kazoo.create (full_path c name) value true w1 with
        | (Ok _, w2) =>
            (ZkSharedCache.store name value c).1 = Ok tt ∧ world c' = w2 ∧
            ZkSharedCache._incoming_entries c' =
              ZkSharedCache._incoming_entries c ++ [(name, Kazoo.clock w2)]
        | (Raise NodeExistsError, w2) =>
            (ZkSharedCache.store name value c).1 = Ok tt ∧ world c' = w2 ∧
            ZkSharedCache._incoming_entries c' = ZkSharedCache._incoming_entries c
        | (Raise e, w2) =>
            request_error e ∧
            (ZkSharedCache.store name value c).1 = Raise ZkNoConnection ∧ world c' = w2 ∧
            ZkSharedCache._incoming_entries c' = ZkSharedCache._incoming_entries c
        | (Diverge, _) => False
        end
    | (Raise e, w1) =>
        request_error e ∧
        (ZkSharedCache.store name value c).1 = Raise ZkNoConnection ∧ world c' = w1 ∧
        ZkSharedCache._incoming_entries c' = ZkSharedCache._incoming_entries c
    | (Diverge, _) => False
    end.
Proof.
  intros Hconn. eexists. split; [reflexivity|].
  destruct c as [zk path entries incoming batches].
  unfold ZkSharedCache.store. cache_unfold. simpl in *.
  autounfold with unf_m. simpl. rewrite Hconn. simpl.
  pose proof (Kazoo_request_outcome (Zookeeper.kazoo zk)) as Hreq.
  unfold Kazoo.set. autounfold with unf_m.
  destruct (Kazoo.request (Zookeeper.kazoo zk)) as [[[]|e|] w1]; simpl in *.
  - destruct (Kazoo.nodes w1 !! os_path_join path name) as [old|] eqn:Hnode; simpl.
    + done.
    + pose proof (Kazoo_request_outcome w1) as Hreq'.
      unfold Kazoo.create. autounfold with unf_m.
      destruct (Kazoo.request w1) as [[[]|e|] w2]; simpl in *.
      * destruct (Kazoo.nodes w2 !! os_path_join path name); simpl; done.
      * destruct Hreq' as [-> | ->]; simpl; unfold request_error; auto 6.
      * done.
  - destruct Hreq as [-> | ->]; simpl; unfold request_error; auto 6.
  - done.
Qed.

(** C5.  On a connected cache: when [set] fails with [NoNodeError] and the
    [create] that follows fails with [NodeExistsError], [store] returns
    normally and pushes nothing onto the FIFO; when [set] succeeds, or
    [create] succeeds after [set] failed with [NoNodeError], [store] returns
    normally and has pushed the name with the current time.  Among the calls
    that return normally, the first path is therefore the only one that
    leaves the FIFO as it was.  The timestamp map is never touched. *)
Theorem store_pushes_unless_lost_race (name : string) (value : bytes)
    (c : ZkSharedCache.t) :
  connected c = true ->
  let set_ := Kazoo.set (full_path c name) value (world c) in
  let create_ := Kazoo.create (full_path c name) value true set_.2 in
  let lost_race := set_.1 = Raise NoNodeError ∧ create_.1 = Raise NodeExistsError in
  let result := ZkSharedCache.store name value c in
  (lost_race ->
     result.1 = Ok tt ∧
     ZkSharedCache._incoming_entries result.2 = ZkSharedCache._incoming_entries c) ∧
  (set_.1 = Ok tt ->
     result.1 = Ok tt ∧
     ZkSharedCache._incoming_entries result.2 =
       ZkSharedCache._incoming_entries c ++ [(name, Kazoo.clock set_.2)]) ∧
  (set_.1 = Raise NoNodeError -> create_.1 = Ok tt ->
     result.1 = Ok tt ∧
     ZkSharedCache._incoming_entries result.2 =
       ZkSharedCache._incoming_entries c ++ [(name, Kazoo.clock create_.2)]) ∧
  (result.1 = Ok tt ->
     ZkSharedCache._incoming_entries result.2 = ZkSharedCache._incoming_entries c ->
     lost_race) ∧
  ZkSharedCache._entries result.2 = ZkSharedCache._entries c.
Proof.
  intros Hconn set_ create_ lost_race result.
  destruct (store_outcome name value c Hconn) as (c' & Hc' & Hentries & Hout).
  subst lost_race create_ set_ result. rewrite Hc'. clear Hc'.
  assert (∀ x, ZkSharedCache._incoming_entries c ++ [x] =
               ZkSharedCache._incoming_entries c -> False) as Hpush
    by (intros x Heq; by apply app_singleton_neq in Heq).
  destruct (Kazoo.set (full_path c name) value (world c)) as [[[]|e|] w1];
    simpl in *; [| |done].
  { destruct Hout as (-> & _ & ->).
    split; [intros [? _]; congruence|].
    split; [done|].
    split; [intros; congruence|].
    split; [|done].
    intros _ Heq. by apply Hpush in Heq. }
  destruct (decide (e = NoNodeError)) as [->|Hne].
  2: { assert ((ZkSharedCache.store name value c).1 = Raise ZkNoConnection) as Hr
         by (destruct e; try done; apply Hout).
       rewrite Hr.
       split; [intros [? _]; congruence|].
       split; [intros; congruence|].
       split; [intros; congruence|].
       split; [intros; congruence|done]. }
  destruct (Kazoo.create (full_path c name) value true w1) as [[[]|e|] w2];
    simpl in *; [| |done].
  { destruct Hout as (-> & _ & ->).
    split; [intros [_ ?]; congruence|].
    split; [intros; congruence|].
    split; [done|].
    split; [|done].
    intros _ Heq. by apply Hpush in Heq. }
  destruct (decide (e = NodeExistsError)) as [->|Hne].
  { destruct Hout as (-> & _ & ->).
    split; [done|].
    split; [intros; congruence|].
    split; [intros; congruence|].
    split; done. }
  assert ((ZkSharedCache.store name value c).1 = Raise ZkNoConnection) as Hr
    by (destruct e; try done; apply Hout).
  rewrite Hr.
  split; [intros [_ ?]; congruence|].
  split; [intros; congruence|].
  split; [intros; congruence|].
  split; [intros; congruence|done].
Qed.

(** *** Runs of the maintenance pass *)

(** The timestamp map after the FIFO has been drained into it. *)
Definition drained (incoming : list (string * Q)) (entries : gmap string Q)
    : gmap string Q :=
  foldl (fun m p => setdefault p.1 p.2 m) entries incoming.

(** The timestamp map after the names of [stale] have been deleted. *)
Definition pruned (stale : list string) (entries : gmap string Q) : gmap string Q :=
  foldl (fun m k => delete k m) entries stale.

Lemma setdefault_lookup {V} (k n : string) (v : V) (m : gmap string V) :
  setdefault k v m !! n =
  match m !! n with
  | Some x => Some x
  | None => if decide (k = n) then Some v else None
  end.
Proof.
  unfold setdefault. destruct (m !! k) as [x|] eqn:Hk.
  - destruct (m !! n) eqn:Hn; [done|]. case_decide; [congruence|done].
  - rewrite lookup_insert. case_decide; subst.
    + by rewrite Hk.
    + by destruct (m !! n).
Qed.

Lemma setdefault_dom {V} (k : string) (v : V) (m : gmap string V) :
  dom (setdefault k v m) = {[k]} ∪ dom m.
Proof.
  apply set_eq. intros n. rewrite elem_of_union, elem_of_singleton, !elem_of_dom.
  rewrite setdefault_lookup. destruct (m !! n) eqn:Hn.
  - split; [right|]; eauto.
  - case_decide; subst.
    + split; [by left|eauto].
    + split; [by intros [? ?]|]. intros [?|[? ?]]; congruence.
Qed.

Lemma drained_lookup_Some incoming entries n t :
  entries !! n = Some t -> drained incoming entries !! n = Some t.
Proof.
  revert entries. induction incoming as [|[k ts] rest IH]; intros entries Hn; [done|].
  simpl. apply IH. by rewrite setdefault_lookup, Hn.
Qed.

Lemma drained_app l1 l2 entries :
  drained (l1 ++ l2) entries = drained l2 (drained l1 entries).
Proof. unfold drained. by rewrite foldl_app. Qed.

Lemma drained_lookup_fresh incoming entries n :
  entries !! n = None -> n ∉ incoming.*1 -> drained incoming entries !! n = None.
Proof.
  revert entries. induction incoming as [|[k ts] rest IH]; intros entries Hn Hnot; [done|].
  simpl in *. apply not_elem_of_cons in Hnot as [Hne Hnot].
  apply IH; [|done]. rewrite setdefault_lookup, Hn. by case_decide.
Qed.

Lemma drained_dom incoming entries :
  dom (drained incoming entries) = dom entries ∪ list_to_set incoming.*1.
Proof.
  revert entries. induction incoming as [|[k ts] rest IH]; intros entries; simpl.
  - set_solver.
  - rewrite IH, setdefault_dom. set_solver.
Qed.

Lemma pruned_lookup stale entries n :
  pruned stale entries !! n = if decide (n ∈ stale) then None else entries !! n.
Proof.
  revert entries. induction stale as [|k rest IH]; intros entries; simpl.
  - done.
  - rewrite IH. destruct (decide (n ∈ rest)) as [Hin|Hnot].
    + rewrite decide_True; [done|set_solver].
    + destruct (decide (k = n)) as [->|Hne].
      * rewrite decide_True by set_solver. apply lookup_delete_eq.
      * rewrite decide_False by set_solver. by apply lookup_delete_ne.
Qed.

Lemma pruned_dom stale entries :
  dom (pruned stale entries) = dom entries ∖ list_to_set stale.
Proof.
  apply set_eq. intros n.
  rewrite elem_of_difference, elem_of_list_to_set, !elem_of_dom, pruned_lookup.
  case_decide; split; try tauto. by intros [? ?].
Qed.

Lemma with_zk_id c : ZkSharedCache.with_zk (ZkSharedCache._zk c) c = c.
Proof. by destruct c. Qed.

Lemma is_connected_run c :
  ZkSharedCache.on_zk Zookeeper.is_connected c = (Ok (connected c), c).
Proof. by destruct c. Qed.

Lemma drain_incoming_run incoming c :
  ZkSharedCache.drain_incoming incoming c =
  (Ok tt,
   match incoming with
   | [] => c
   | _ => ZkSharedCache.with_incoming []
            (ZkSharedCache.with_entries (drained incoming) c)
   end).
Proof.
  revert c. induction incoming as [|[k ts] rest IH]; intros c; [done|].
  simpl. autounfold with unf_m. simpl. rewrite IH.
  destruct c as [zk path entries inc batches]. by destruct rest.
Qed.

Lemma drain_incoming_entries c :
  ZkSharedCache._entries
    (ZkSharedCache.drain_incoming (ZkSharedCache._incoming_entries c) c).2 =
  drained (ZkSharedCache._incoming_entries c) (ZkSharedCache._entries c).
Proof.
  rewrite drain_incoming_run. by destruct (ZkSharedCache._incoming_entries c).
Qed.

Lemma prune_run stale c :
  NoDup stale ->
  (∀ k, k ∈ stale -> is_Some (ZkSharedCache._entries c !! k)) ->
  for_each stale ZkSharedCache.del_entry c =
  (Ok tt, ZkSharedCache.with_entries (pruned stale) c).
Proof.
  revert c. induction stale as [|k rest IH]; intros c Hnodup Hin.
  - by destruct c.
  - apply NoDup_cons in Hnodup as [Hk Hnodup].
    destruct (Hin k) as [ts Hts]; [set_solver|].
    simpl. unfold bind at 1. unfold ZkSharedCache.del_entry at 1.
    autounfold with unf_m. rewrite Hts. simpl.
    rewrite IH; [by destruct c|done|].
    intros k' Hk'. simpl. rewrite lookup_delete_ne by set_solver.
    apply Hin. set_solver.
Qed.

Lemma list_entries_keeps_entries :
  keeps ZkSharedCache._entries ZkSharedCache._list_entries.
Proof.
  unfold ZkSharedCache._list_entries, ZkSharedCache.on_kazoo, ZkSharedCache.on_zk.
  keeps_auto.
Qed.

Lemma list_entries_keeps_handled :
  keeps ZkSharedCache.handled ZkSharedCache._list_entries.
Proof.
  unfold ZkSharedCache._list_entries, ZkSharedCache.on_kazoo, ZkSharedCache.on_zk.
  keeps_auto.
Qed.

Lemma drain_incoming_handled incoming c :
  ZkSharedCache.handled (ZkSharedCache.drain_incoming incoming c).2 =
  ZkSharedCache.handled c.
Proof. rewrite drain_incoming_run. by destruct incoming. Qed.

(** What [_get] does to the timestamp map. *)
Lemma get_entries name c :
  match ZkSharedCache._get name c with
  | (Ok _, c') =>
      ZkSharedCache._entries c' =
        setdefault name (Kazoo.clock (world c')) (ZkSharedCache._entries c)
  | (Raise ZkNoNodeError, c') =>
      ZkSharedCache._entries c' = delete name (ZkSharedCache._entries c)
  | (Raise _, c') => ZkSharedCache._entries c' = ZkSharedCache._entries c
  | (Diverge, _) => False
  end.
Proof.
  destruct c as [zk path entries incoming batches].
  unfold ZkSharedCache._get. cache_unfold. simpl.
  pose proof (Kazoo_request_outcome (Zookeeper.kazoo zk)) as Hreq.
  unfold Kazoo.get in *. autounfold with unf_m. simpl.
  destruct (Kazoo.request (Zookeeper.kazoo zk)) as [[[]|e|] w1]; simpl in *.
  - by destruct (Kazoo.nodes w1 !! os_path_join path name) as [data|].
  - by destruct Hreq as [-> | ->].
  - done.
Qed.

Lemma get_entries_other name c n :
  n ≠ name ->
  ZkSharedCache._entries (ZkSharedCache._get name c).2 !! n =
  ZkSharedCache._entries c !! n.
Proof.
  intros Hne. pose proof (get_entries name c) as H.
  destruct (ZkSharedCache._get name c) as [[d|e|] c']; simpl; [| |done].
  - rewrite H, setdefault_lookup. destruct (_ !! n); [done|]. by case_decide.
  - destruct e; rewrite H; try done. by apply lookup_delete_ne.
Qed.

(** The fetch loop changes the timestamps of the names it is given only. *)
Lemma fetch_entries_other names data c n :
  n ∉ names ->
  ZkSharedCache._entries (ZkSharedCache.fetch_entries names data c).2 !! n =
  ZkSharedCache._entries c !! n.
Proof.
  revert data c. induction names as [|name rest IH]; intros data c Hn; [done|].
  apply not_elem_of_cons in Hn as [Hne Hn].
  pose proof (get_entries_other name c n Hne) as Hget.
  simpl. unfold bind, try_, ret.
  destruct (ZkSharedCache._get name c) as [[d|e|] c']; simpl in *; [| |done].
  - by rewrite IH.
  - destruct e; simpl; try done. by rewrite IH.
Qed.

(** Every [_get] the fetch loop makes for [names], in order, returns. *)
Fixpoint fetches_succeed (names : list string) (c : ZkSharedCache.t) : Prop :=
  match names with
  | [] => True
  | name :: rest =>
      match ZkSharedCache._get name c with
      | (Ok _, c') => fetches_succeed rest c'
      | _ => False
      end
  end.

Lemma fetch_entries_success names data c :
  fetches_succeed names c ->
  ∃ data' c',
    ZkSharedCache.fetch_entries names data c = (Ok data', c') ∧
    length data' = (length data + length names)%nat ∧
    dom (ZkSharedCache._entries c') =
      dom (ZkSharedCache._entries c) ∪ list_to_set names ∧
    (∀ n t, ZkSharedCache._entries c !! n = Some t ->
            ZkSharedCache._entries c' !! n = Some t).
Proof.
  revert data c. induction names as [|name rest IH]; intros data c Hok; simpl in *.
  - exists data, c. repeat split; [lia|set_solver|done].
  - pose proof (get_entries name c) as Hget.
    unfold bind, try_, ret.
    destruct (ZkSharedCache._get name c) as [[d|e|] c1]; try done.
    destruct (IH (data ++ [d]) c1 Hok) as (data' & c' & -> & Hlen & Hdom & Hkeep).
    exists data', c'. repeat split.
    + rewrite Hlen, length_app. simpl. lia.
    + rewrite Hdom, Hget, setdefault_dom. set_solver.
    + intros n t Hn. apply Hkeep. by rewrite Hget, setdefault_lookup, Hn.
Qed.

Lemma handle_entries_entries names c :
  ZkSharedCache._entries (ZkSharedCache._handle_entries names c).2 =
  ZkSharedCache._entries (ZkSharedCache.fetch_entries (elements names) [] c).2.
Proof.
  unfold ZkSharedCache._handle_entries, ZkSharedCache._handler.
  autounfold with unf_m.
  by destruct (ZkSharedCache.fetch_entries (elements names) [] c) as [[d|e|] c'].
Qed.

Lemma get_keeps_handled name :
  keeps ZkSharedCache.handled (ZkSharedCache._get name).
Proof.
  unfold ZkSharedCache._get, ZkSharedCache.on_kazoo, ZkSharedCache.on_zk.
  keeps_auto.
Qed.

Lemma fetch_entries_keeps_handled names data :
  keeps ZkSharedCache.handled (ZkSharedCache.fetch_entries names data).
Proof.
  revert data. induction names as [|name rest IH]; intros data; simpl.
  - keeps_auto.
  - keeps_auto; first [apply get_keeps_handled | apply IH].
Qed.

(** C3.  On a connected cache, when the listing made by [process] (after
    the FIFO has been drained) returns the set [C] and every fetch of a new
    name succeeds, [process] returns normally and the key-set of the
    timestamp map is [C]: the names tracked before ([previous]: the keys
    present or waiting in the FIFO) that are not in [C] are gone, the names
    of [C] that were not tracked are present, the names in both keep their
    timestamps, and the handler has received one payload per new name. *)
Theorem process_tracks_children (c c_listed : ZkSharedCache.t) (C : gset string) :
  connected c = true ->
  let c_drained :=
    (ZkSharedCache.drain_incoming (ZkSharedCache._incoming_entries c) c).2 in
  let previous := dom (ZkSharedCache._entries c_drained) in
  ZkSharedCache._list_entries c_drained = (Ok C, c_listed) ->
  let c_pruned :=
    (for_each (elements (previous ∖ C)) ZkSharedCache.del_entry c_listed).2 in
  fetches_succeed (elements (C ∖ previous)) c_pruned ->
  ∃ c',
    ZkSharedCache.process c = (Ok tt, c') ∧
    dom (ZkSharedCache._entries c') = C ∧
    (∀ n, n ∈ previous -> n ∉ C -> ZkSharedCache._entries c' !! n = None) ∧
    (∀ n, n ∉ previous -> n ∈ C -> is_Some (ZkSharedCache._entries c' !! n)) ∧
    (∀ n, n ∈ previous -> n ∈ C ->
          ZkSharedCache._entries c' !! n = ZkSharedCache._entries c_drained !! n) ∧
    previous = dom (ZkSharedCache._entries c)
                 ∪ list_to_set (ZkSharedCache._incoming_entries c).*1 ∧
    ∃ batch, ZkSharedCache.handled c' = ZkSharedCache.handled c ++ [batch] ∧
             length batch = size (C ∖ previous).
Proof.
  intros Hconn c_drained previous Hlist c_pruned Hfetch.
  assert (ZkSharedCache.drain_incoming (ZkSharedCache._incoming_entries c) c =
          (Ok tt, c_drained)) as Hdrain.
  { subst c_drained. by rewrite drain_incoming_run. }
  assert (ZkSharedCache._entries c_listed = ZkSharedCache._entries c_drained) as Hsame.
  { pose proof (list_entries_keeps_entries c_drained) as H. by rewrite Hlist in H. }
  assert (for_each (elements (previous ∖ C)) ZkSharedCache.del_entry c_listed =
          (Ok tt, ZkSharedCache.with_entries (pruned (elements (previous ∖ C))) c_listed))
    as Hprune.
  { apply prune_run; [apply NoDup_elements|].
    intros k Hk. apply elem_of_elements in Hk. rewrite Hsame.
    apply elem_of_dom. set_solver. }
  assert (c_pruned = ZkSharedCache.with_entries (pruned (elements (previous ∖ C))) c_listed)
    as Hpruned by (subst c_pruned; by rewrite Hprune).
  assert (dom (ZkSharedCache._entries c_pruned) = previous ∩ C) as Hdom_pruned.
  { rewrite Hpruned. simpl. rewrite pruned_dom, Hsame.
    fold previous. rewrite list_to_set_elements_L.
    apply set_eq. intros n. destruct (decide (n ∈ C)); set_solver. }
  destruct (fetch_entries_success _ [] _ Hfetch)
    as (batch & c_fetched & Hrun & Hlen & Hdom & Hkept).
  exists (ZkSharedCache.with_handled (ZkSharedCache.handled c_fetched ++ [batch]) c_fetched).
  split.
  { unfold ZkSharedCache.process. unfold bind at 1.
    rewrite is_connected_run, Hconn. simpl.
    unfold bind at 1, get_state. unfold bind at 1. rewrite Hdrain.
    unfold bind at 1. unfold bind at 1. rewrite Hlist.
    unfold bind at 1. fold previous. rewrite Hprune, <- Hpruned.
    unfold ZkSharedCache._handle_entries, ZkSharedCache._handler.
    autounfold with unf_m. by rewrite Hrun. }
  assert (∀ n, ZkSharedCache._entries c_pruned !! n =
               if decide (n ∈ previous ∧ n ∉ C) then None
               else ZkSharedCache._entries c_drained !! n) as Hlook.
  { intros n. rewrite Hpruned. simpl. rewrite pruned_lookup, Hsame.
    destruct (decide (n ∈ elements (previous ∖ C))) as [Hin|Hnot];
      rewrite elem_of_elements in *.
    - rewrite decide_True; [done|set_solver].
    - rewrite decide_False; [done|set_solver]. }
  simpl. repeat split.
  - rewrite Hdom, Hdom_pruned, list_to_set_elements_L.
    apply set_eq. intros n. destruct (decide (n ∈ previous)); set_solver.
  - intros n Hprev HC. apply not_elem_of_dom.
    rewrite Hdom, Hdom_pruned, list_to_set_elements_L. set_solver.
  - intros n Hprev HC. apply elem_of_dom.
    rewrite Hdom, list_to_set_elements_L. set_solver.
  - intros n Hprev HC.
    apply elem_of_dom in Hprev as [t Ht].
    rewrite Ht. apply Hkept. rewrite Hlook, decide_False; [done|tauto].
  - subst previous c_drained. by rewrite drain_incoming_entries, drained_dom.
  - exists batch. split.
    + f_equal. pose proof (fetch_entries_keeps_handled
                             (elements (C ∖ previous)) [] c_pruned) as H.
      rewrite Hrun in H. simpl in H. rewrite <- H, Hpruned. simpl.
      pose proof (list_entries_keeps_handled c_drained) as Hl.
      rewrite Hlist in Hl. simpl in Hl. rewrite <- Hl.
      apply drain_incoming_handled.
    + rewrite Hlen. done.
Qed.

Lemma store_keeps_entries name value :
  keeps ZkSharedCache._entries (ZkSharedCache.store name value).
Proof.
  unfold ZkSharedCache.store, ZkSharedCache.record_incoming,
    ZkSharedCache.on_kazoo, ZkSharedCache.on_zk.
  keeps_auto.
Qed.

Lemma cache_on_kazoo_keeps_connected {A} (m : M Kazoo.World A) :
  keeps connected (ZkSharedCache.on_kazoo m).
Proof.
  intros c. unfold ZkSharedCache.on_kazoo, ZkSharedCache.on_zk, Zookeeper.on_kazoo,
    zoom, connected.
  by destruct (m (Zookeeper.kazoo (ZkSharedCache._zk c))).
Qed.

Lemma store_keeps_connected name value :
  keeps connected (ZkSharedCache.store name value).
Proof.
  unfold ZkSharedCache.store, ZkSharedCache.record_incoming.
  keeps_auto.
  all: try apply cache_on_kazoo_keeps_connected.
  intros c. by rewrite is_connected_run.
Qed.

(** The timestamp of a tracked name after [process], whatever its outcome:
    it is kept, unless the listing succeeded and lacks the name. *)
Lemma process_entries c n :
  connected c = true ->
  let c_drained :=
    (ZkSharedCache.drain_incoming (ZkSharedCache._incoming_entries c) c).2 in
  is_Some (ZkSharedCache._entries c_drained !! n) ->
  ZkSharedCache._entries (ZkSharedCache.process c).2 !! n =
    match ZkSharedCache._list_entries c_drained with
    | (Ok C, _) => if decide (n ∈ C) then ZkSharedCache._entries c_drained !! n else None
    | _ => ZkSharedCache._entries c_drained !! n
    end.
Proof.
  intros Hconn c_drained Hn.
  assert (ZkSharedCache.drain_incoming (ZkSharedCache._incoming_entries c) c =
          (Ok tt, c_drained)) as Hdrain.
  { subst c_drained. by rewrite drain_incoming_run. }
  unfold ZkSharedCache.process. unfold bind at 1.
  rewrite is_connected_run, Hconn. simpl.
  unfold bind at 1, get_state. unfold bind at 1. rewrite Hdrain.
  unfold bind at 1. unfold bind at 1.
  pose proof (list_entries_keeps_entries c_drained) as Hsame.
  destruct (ZkSharedCache._list_entries c_drained) as [[C|e|] c_listed];
    simpl in *; [|by rewrite <- Hsame..].
  set (previous := dom (ZkSharedCache._entries c_drained)).
  unfold bind at 1. rewrite prune_run.
  2: apply NoDup_elements.
  2: { intros k Hk. apply elem_of_elements in Hk. rewrite <- Hsame.
       apply elem_of_dom. set_solver. }
  unfold bind at 1.
  pose proof (handle_entries_entries (C ∖ previous)
                (ZkSharedCache.with_entries (pruned (elements (previous ∖ C))) c_listed))
    as Hhandle.
  destruct (ZkSharedCache._handle_entries _ _) as [[count|e|] c'];
    simpl in *; rewrite Hhandle.
  all: rewrite fetch_entries_other
    by (rewrite elem_of_elements, elem_of_difference; intros [_ Hnot];
        apply Hnot, elem_of_dom, Hn).
  all: simpl; rewrite pruned_lookup, <- Hsame.
  all: destruct (decide (n ∈ C)) as [HC|HC].
  all: try (rewrite decide_False; [done|]; rewrite elem_of_elements; set_solver).
  all: rewrite decide_True; [done|]; rewrite elem_of_elements;
    apply elem_of_difference; split; [by apply elem_of_dom|done].
Qed.

Lemma store_disconnected name value c :
  connected c = false ->
  ZkSharedCache.store name value c = (Raise ZkNoConnection, c).
Proof.
  intros Hconn. unfold ZkSharedCache.store, bind.
  by rewrite is_connected_run, Hconn.
Qed.

Lemma process_disconnected c :
  connected c = false -> ZkSharedCache.process c = (Raise ZkNoConnection, c).
Proof.
  intros Hconn. unfold ZkSharedCache.process, bind.
  by rewrite is_connected_run, Hconn.
Qed.

(** C7.  A recorded first-seen timestamp is never overwritten.  Draining
    the FIFO leaves the timestamp of every name that has one unchanged,
    whatever pairs are drained; [process] as a whole either keeps it or
    removes the name.  After [store(n, v1)] and [store(n, v2)] have pushed
    [(n, t1)] and [(n, t2)] for a name that was not known before, the drain
    of [process] records [t1], and after [process] the timestamp of [n] is
    [t1], unless the listing succeeded without [n], in which case [n] has
    none. *)
Theorem first_seen_timestamp_is_kept :
  (∀ c incoming n t0,
     ZkSharedCache._entries c !! n = Some t0 ->
     ZkSharedCache._entries (ZkSharedCache.drain_incoming incoming c).2 !! n = Some t0) ∧
  (∀ c n t0,
     ZkSharedCache._entries c !! n = Some t0 ->
     ZkSharedCache._entries (ZkSharedCache.process c).2 !! n = Some t0 ∨
     ZkSharedCache._entries (ZkSharedCache.process c).2 !! n = None) ∧
  (∀ c n v1 v2 t1 t2 c1 c2,
     ZkSharedCache._entries c !! n = None ->
     n ∉ (ZkSharedCache._incoming_entries c).*1 ->
     ZkSharedCache.store n v1 c = (Ok tt, c1) ->
     ZkSharedCache._incoming_entries c1 = ZkSharedCache._incoming_entries c ++ [(n, t1)] ->
     ZkSharedCache.store n v2 c1 = (Ok tt, c2) ->
     ZkSharedCache._incoming_entries c2 = ZkSharedCache._incoming_entries c1 ++ [(n, t2)] ->
     let c_drained :=
       (ZkSharedCache.drain_incoming (ZkSharedCache._incoming_entries c2) c2).2 in
     ZkSharedCache._entries c_drained !! n = Some t1 ∧
     ZkSharedCache._entries (ZkSharedCache.process c2).2 !! n =
       match ZkSharedCache._list_entries c_drained with
       | (Ok C, _) => if decide (n ∈ C) then Some t1 else None
       | _ => Some t1
       end).
Proof.
  assert (∀ c incoming n t0,
     ZkSharedCache._entries c !! n = Some t0 ->
     ZkSharedCache._entries (ZkSharedCache.drain_incoming incoming c).2 !! n = Some t0)
    as Hdrain.
  { intros c incoming n t0 Hn. rewrite drain_incoming_run.
    destruct incoming as [|p rest]; [done|]. simpl.
    by apply (drained_lookup_Some (p :: rest)). }
  split; [exact Hdrain|]. split.
  - intros c n t0 Hn. destruct (connected c) eqn:Hconn.
    + pose proof (Hdrain c (ZkSharedCache._incoming_entries c) n t0 Hn) as Hd.
      rewrite (process_entries c n Hconn) by (by rewrite Hd).
      rewrite Hd.
      destruct (ZkSharedCache._list_entries _) as [[C|e|] c_l]; auto.
      case_decide; auto.
    + rewrite process_disconnected by done. by left.
  - intros c n v1 v2 t1 t2 c1 c2 Hnew Hfifo Hs1 Hi1 Hs2 Hi2 c_drained.
    assert (connected c = true) as Hconn.
    { destruct (connected c) eqn:E; [done|].
      rewrite store_disconnected in Hs1 by done. discriminate. }
    assert (connected c2 = true) as Hconn2.
    { pose proof (store_keeps_connected n v1 c) as H1.
      pose proof (store_keeps_connected n v2 c1) as H2.
      rewrite Hs1 in H1. rewrite Hs2 in H2. simpl in *. congruence. }
    assert (ZkSharedCache._entries c2 = ZkSharedCache._entries c) as Hentries.
    { pose proof (store_keeps_entries n v1 c) as H1.
      pose proof (store_keeps_entries n v2 c1) as H2.
      rewrite Hs1 in H1. rewrite Hs2 in H2. simpl in *. congruence. }
    assert (ZkSharedCache._entries c_drained !! n = Some t1) as Hd.
    { subst c_drained. rewrite drain_incoming_entries, Hi2, Hi1, Hentries.
      rewrite <- app_assoc, drained_app. simpl.
      rewrite setdefault_lookup, setdefault_lookup.
      rewrite drained_lookup_fresh by done. by rewrite decide_True. }
    split; [exact Hd|].
    rewrite (process_entries c2 n Hconn2) by (fold c_drained; by rewrite Hd).
    fold c_drained. rewrite Hd.
    by destruct (ZkSharedCache._list_entries c_drained) as [[C|e|] c_l].
Qed.

(** *** Expiry *)

(** A peer's action re-creates the node [p]: it creates [p] itself, or a
    node below [p], which brings [p] into existence as a parent. *)
Definition creates (p : string) (ev : Kazoo.EnvEvent) : Prop :=
  match ev with
  | Kazoo.PeerCreate p' _ => p = p' ∨ p ∈ Kazoo.ancestors p'
  | _ => False
  end.

Definition recreated (p : string) (events : list Kazoo.EnvEvent) : Prop :=
  Exists (creates p) events.

Lemma recreated_tail p events : recreated p (tail events) -> recreated p events.
Proof. destruct events; [done|]. by apply Exists_cons_tl. Qed.

Lemma recreated_first p events : recreated p (take 1 events) -> recreated p events.
Proof.
  destruct events as [|ev rest]; simpl; [done|].
  intros H. apply Exists_cons in H as [H|H].
  - by apply Exists_cons_hd.
  - by apply Exists_nil in H.
Qed.

Lemma touch_dom q (m : gmap string bytes) : dom (Kazoo.touch q m) = {[q]} ∪ dom m.
Proof.
  unfold Kazoo.touch. destruct (m !! q) eqn:Hq.
  - apply elem_of_dom_2 in Hq. set_solver.
  - apply dom_insert_L.
Qed.

Lemma make_parents_dom p (m : gmap string bytes) :
  dom (Kazoo.make_parents p m) = list_to_set (Kazoo.ancestors p) ∪ dom m.
Proof.
  unfold Kazoo.make_parents.
  induction (Kazoo.ancestors p) as [|a rest IH]; simpl.
  - set_solver.
  - rewrite touch_dom, IH. set_solver.
Qed.

Lemma Kazoo_request_pending w :
  Kazoo.pending (Kazoo.request w).2 = tail (Kazoo.pending w).
Proof.
  unfold Kazoo.request.
  destruct (Kazoo.pending w) as [|[] rest] eqn:E; simpl; by rewrite ?E.
Qed.

(** A request adds a node only by a peer's creation. *)
Lemma Kazoo_request_nodes q w :
  q ∉ dom (Kazoo.nodes w) ->
  q ∉ dom (Kazoo.nodes (Kazoo.request w).2) ∨ recreated q (take 1 (Kazoo.pending w)).
Proof.
  intros Hq. unfold Kazoo.request.
  destruct (Kazoo.pending w) as [|ev rest]; [by left|].
  destruct ev as [| | |p v|p|d|]; simpl; try (by left).
  - destruct (decide (q = p ∨ q ∈ Kazoo.ancestors p)) as [Hc|Hn].
    + right. by apply Exists_cons_hd.
    + left. rewrite dom_insert_L, make_parents_dom. set_solver.
  - left. rewrite dom_delete_L. set_solver.
Qed.

(** [delete]: what it returns, and the world it leaves. *)
Lemma Kazoo_delete_outcome p w :
  let served := (Kazoo.request w).2 in
  match Kazoo.delete p w with
  | (Ok _, w') =>
      is_Some (Kazoo.nodes served !! p) ∧ w' = Kazoo.with_nodes (delete p) served
  | (Raise e, w') =>
      w' = served ∧ (request_error e ∨ e = NoNodeError ∧ Kazoo.nodes served !! p = None)
  | (Diverge, _) => False
  end.
Proof.
  pose proof (Kazoo_request_outcome w) as Hreq.
  unfold Kazoo.delete. autounfold with unf_m.
  destruct (Kazoo.request w) as [[[]|e|] w1]; simpl in *; [| |done].
  - destruct (Kazoo.nodes w1 !! p) eqn:Hp; simpl; eauto.
  - auto.
Qed.

Lemma Kazoo_delete_frame p q w :
  q ∉ dom (Kazoo.nodes w) ->
  q ∉ dom (Kazoo.nodes (Kazoo.delete p w).2) ∨ recreated q (take 1 (Kazoo.pending w)).
Proof.
  intros Hq. pose proof (Kazoo_delete_outcome p w) as Hdel.
  destruct (Kazoo_request_nodes q w Hq) as [Hreq|Hrec]; [|by right]. left.
  destruct (Kazoo.delete p w) as [[[]|e|] w']; simpl in *; [| |done].
  - destruct Hdel as [_ ->]. simpl. rewrite dom_delete_L. set_solver.
  - by destruct Hdel as [-> _].
Qed.

Lemma Kazoo_delete_pending p w :
  Kazoo.pending (Kazoo.delete p w).2 = tail (Kazoo.pending w).
Proof.
  pose proof (Kazoo_delete_outcome p w) as Hdel.
  rewrite <- Kazoo_request_pending.
  destruct (Kazoo.delete p w) as [[[]|e|] w']; simpl in *; [| |done].
  - by destruct Hdel as [_ ->].
  - by destruct Hdel as [-> _].
Qed.

Lemma Kazoo_delete_gone p w w' :
  Kazoo.delete p w = (Ok tt, w') -> p ∉ dom (Kazoo.nodes w').
Proof.
  intros Hrun. pose proof (Kazoo_delete_outcome p w) as Hdel.
  rewrite Hrun in Hdel. destruct Hdel as [_ ->]. simpl.
  rewrite dom_delete_L. set_solver.
Qed.

(** The cache with its environment replaced. *)
Definition with_world (w : Kazoo.World) (c : ZkSharedCache.t) : ZkSharedCache.t :=
  ZkSharedCache.with_zk (Zookeeper.with_kazoo w (ZkSharedCache._zk c)) c.

Lemma cache_on_kazoo_run {A} (m : M Kazoo.World A) c :
  ZkSharedCache.on_kazoo m c = ((m (world c)).1, with_world (m (world c)).2 c).
Proof.
  unfold ZkSharedCache.on_kazoo, ZkSharedCache.on_zk, Zookeeper.on_kazoo, zoom,
    with_world, world.
  by destruct (m (Zookeeper.kazoo (ZkSharedCache._zk c))).
Qed.

Definition expired (now ttl ts : Q) : Prop := (ttl < now - ts)%Q.

Lemma Qgtb_expired now ttl ts : Qgtb (now - ts) ttl = true ↔ expired now ttl ts.
Proof.
  unfold Qgtb, expired. destruct (Qlt_le_dec ttl (now - ts)) as [Hlt|Hle].
  - done.
  - split; [done|]. intros Hlt. by apply Qle_not_lt in Hle.
Qed.

Lemma not_expired_le now ttl ts : ¬ expired now ttl ts ↔ (now - ts <= ttl)%Q.
Proof.
  unfold expired. split; [apply Qnot_lt_le|apply Qle_not_lt].
Qed.

(** One iteration of the sweep. *)
Lemma expire_entries_cons now ttl k ts rest count c :
  ZkSharedCache.expire_entries now ttl ((k, ts) :: rest) count c =
  if Qgtb (now - ts) ttl then
    match Kazoo.delete (full_path c k) (world c) with
    | (Ok _, w1) =>
        ZkSharedCache.expire_entries now ttl rest (count + 1) (with_world w1 c)
    | (Raise NoNodeError, w1) => (Raise ZkNoNodeError, with_world w1 c)
    | (Raise _, w1) => (Raise ZkNoConnection, with_world w1 c)
    | (Diverge, w1) => (Diverge, with_world w1 c)
    end
  else ZkSharedCache.expire_entries now ttl rest count c.
Proof.
  simpl. destruct (Qgtb (now - ts) ttl); [|done].
  unfold bind at 1, get_state. unfold bind at 1, try_.
  rewrite cache_on_kazoo_run. fold (full_path c k).
  pose proof (Kazoo_delete_outcome (full_path c k) (world c)) as Hdel.
  destruct (Kazoo.delete (full_path c k) (world c)) as [[[]|e|] w1];
    simpl in *; [done| |done].
  destruct Hdel as [_ [[-> | ->]|[-> _]]]; done.
Qed.

(** The sweep changes the environment only. *)
Lemma expire_entries_state now ttl items count c :
  ∃ w', (ZkSharedCache.expire_entries now ttl items count c).2 = with_world w' c ∨
        (ZkSharedCache.expire_entries now ttl items count c).2 = c.
Proof.
  revert count c. induction items as [|[k ts] rest IH]; intros count c.
  - exists (world c). by right.
  - rewrite expire_entries_cons. destruct (Qgtb (now - ts) ttl); [|apply IH].
    destruct (Kazoo.delete (full_path c k) (world c)) as [[[]|e|] w1].
    + destruct (IH (count + 1) (with_world w1 c)) as [w' [H|H]]; rewrite H.
      * exists w'. by left.
      * exists w1. by left.
    + exists w1. left. by destruct e.
    + exists w1. by left.
Qed.

Lemma expire_entries_keeps_entries now ttl items count c :
  ZkSharedCache._entries (ZkSharedCache.expire_entries now ttl items count c).2 =
  ZkSharedCache._entries c.
Proof.
  by destruct (expire_entries_state now ttl items count c) as [w' [-> | ->]].
Qed.

(** A node that is absent stays absent during the sweep, unless a peer
    re-creates it. *)
Lemma expire_entries_frame now ttl items count c q :
  q ∉ dom (Kazoo.nodes (world c)) ->
  q ∉ dom (Kazoo.nodes (world (ZkSharedCache.expire_entries now ttl items count c).2)) ∨
  recreated q (Kazoo.pending (world c)).
Proof.
  revert count c. induction items as [|[k ts] rest IH]; intros count c Hq; [by left|].
  rewrite expire_entries_cons. destruct (Qgtb (now - ts) ttl); [|by apply IH].
  pose proof (Kazoo_delete_frame (full_path c k) q (world c) Hq) as Hframe.
  pose proof (Kazoo_delete_pending (full_path c k) (world c)) as Hpend.
  destruct Hframe as [Hframe|Hrec]; [|right; by apply recreated_first].
  destruct (Kazoo.delete (full_path c k) (world c)) as [[[]|e|] w1]; simpl in *.
  - destruct (IH (count + 1) (with_world w1 c) Hframe) as [H|H]; [by left|].
    right. apply recreated_tail. by rewrite <- Hpend.
  - left. by destruct e.
  - by left.
Qed.

(** When the sweep completes, every expired entry has been deleted: its
    node is absent at the end, unless a peer re-created it meanwhile. *)
Lemma expire_entries_deleted now ttl items count c count' c' :
  ZkSharedCache.expire_entries now ttl items count c = (Ok count', c') ->
  ∀ k ts, (k, ts) ∈ items -> expired now ttl ts ->
    full_path c k ∉ dom (Kazoo.nodes (world c')) ∨
    recreated (full_path c k) (Kazoo.pending (world c)).
Proof.
  revert count c. induction items as [|[k0 ts0] rest IH];
    intros count c Hrun k ts Hin Hexp; [by apply elem_of_nil in Hin|].
  rewrite expire_entries_cons in Hrun.
  destruct (Qgtb (now - ts0) ttl) eqn:Hgt.
  - pose proof (Kazoo_delete_pending (full_path c k0) (world c)) as Hpend.
    destruct (Kazoo.delete (full_path c k0) (world c)) as [[[]|e|] w1] eqn:Hdel;
      simpl in *; [|by destruct e|done].
    assert (∀ q, recreated q (Kazoo.pending w1) ->
                 recreated q (Kazoo.pending (world c))) as Hlater.
    { intros q Hq. apply recreated_tail. by rewrite <- Hpend. }
    apply elem_of_cons in Hin as [[= -> ->]|Hin].
    + apply Kazoo_delete_gone in Hdel.
      pose proof (expire_entries_frame now ttl rest (count + 1)
                    (with_world w1 c) (full_path c k0) Hdel) as Hframe.
      rewrite Hrun in Hframe. simpl in Hframe.
      destruct Hframe as [H|H]; [by left|right; by apply Hlater].
    + destruct (IH _ _ Hrun k ts Hin Hexp) as [H|H]; [by left|].
      right. by apply Hlater.
  - apply elem_of_cons in Hin as [[= -> ->]|Hin].
    + apply (Qgtb_expired now ttl ts0) in Hexp. congruence.
    + by apply (IH _ _ Hrun k ts).
Qed.

Lemma expire_entries_app now ttl l1 l2 count c :
  ZkSharedCache.expire_entries now ttl (l1 ++ l2) count c =
  match ZkSharedCache.expire_entries now ttl l1 count c with
  | (Ok count', c1) => ZkSharedCache.expire_entries now ttl l2 count' c1
  | other => other
  end.
Proof.
  revert count c. induction l1 as [|[k ts] rest IH]; intros count c; [done|].
  simpl app. rewrite !expire_entries_cons.
  destruct (Qgtb (now - ts) ttl); [|apply IH].
  destruct (Kazoo.delete (full_path c k) (world c)) as [[[]|e|] w1]; [apply IH| |done].
  by destruct e.
Qed.

Lemma expire_entries_errors now ttl items count c :
  match (ZkSharedCache.expire_entries now ttl items count c).1 with
  | Ok _ => True
  | Raise e => e = ZkNoNodeError ∨ e = ZkNoConnection
  | Diverge => False
  end.
Proof.
  revert count c. induction items as [|[k ts] rest IH]; intros count c; [done|].
  rewrite expire_entries_cons. destruct (Qgtb (now - ts) ttl); [|apply IH].
  pose proof (Kazoo_delete_outcome (full_path c k) (world c)) as Hdel.
  destruct (Kazoo.delete (full_path c k) (world c)) as [[[]|e|] w1];
    simpl in *; [apply IH| |done].
  destruct e; simpl; auto.
Qed.

Lemma with_world_id c : with_world (world c) c = c.
Proof. destruct c as [zk ? ? ? ?]. by destruct zk. Qed.

Lemma expire_run ttl c :
  connected c = true ->
  let sweep :=
    ZkSharedCache.expire_entries (Kazoo.clock (world c)) ttl
      (map_to_list (ZkSharedCache._entries c)) 0 c in
  ZkSharedCache.expire ttl c =
  (match sweep.1 with
   | Ok _ => Ok tt
   | Raise e => Raise e
   | Diverge => Diverge
   end, sweep.2).
Proof.
  intros Hconn sweep. unfold ZkSharedCache.expire. unfold bind at 1.
  rewrite is_connected_run, Hconn. simpl.
  unfold bind at 1. rewrite cache_on_kazoo_run. unfold Kazoo.get_time, gets. simpl.
  rewrite with_world_id. unfold bind at 1, get_state. unfold bind at 1.
  fold sweep. by destruct sweep as [[count|e|] c'].
Qed.

(** C4.  [expire(ttl)] on a connected cache, called when the clock shows
    [now].  The timestamp map is not changed.  When the call completes
    without error, every tracked entry whose age [now - ts] exceeds [ttl] has
    been deleted from the store: its node is absent afterwards unless a peer
    re-created it during the sweep, so every tracked entry that survives in
    the store (and was not re-created) has [now - ts <= ttl].  When the
    delete of an expired entry finds no node, the sweep stops there and the
    call raises [ZkNoNodeError]; when the connection is lost, the sweep stops
    there and the call raises [ZkNoConnection].  The call raises nothing
    else. *)
Theorem expire_deletes_old_entries (ttl : Q) (c : ZkSharedCache.t) :
  connected c = true ->
  let now := Kazoo.clock (world c) in
  let result := ZkSharedCache.expire ttl c in
  ZkSharedCache._entries result.2 = ZkSharedCache._entries c ∧
  (result.1 = Ok tt ->
     ∀ k ts,
       ZkSharedCache._entries c !! k = Some ts ->
       (expired now ttl ts ->
          full_path c k ∉ dom (Kazoo.nodes (world result.2)) ∨
          recreated (full_path c k) (Kazoo.pending (world c))) ∧
       (full_path c k ∈ dom (Kazoo.nodes (world result.2)) ->
        ¬ recreated (full_path c k) (Kazoo.pending (world c)) ->
        (now - ts <= ttl)%Q)) ∧
  (∀ before k ts after count c1,
     map_to_list (ZkSharedCache._entries c) = before ++ (k, ts) :: after ->
     ZkSharedCache.expire_entries now ttl before 0 c = (Ok count, c1) ->
     expired now ttl ts ->
     match Kazoo.delete (full_path c k) (world c1) with
     | (Ok _, _) => True
     | (Raise NoNodeError, w2) =>
         result.1 = Raise ZkNoNodeError ∧ world result.2 = w2
     | (Raise _, w2) =>
         result.1 = Raise ZkNoConnection ∧ world result.2 = w2
     | (Diverge, _) => False
     end) ∧
  (∀ e, result.1 = Raise e -> e = ZkNoNodeError ∨ e = ZkNoConnection) ∧
  result.1 ≠ Diverge.
Proof.
  intros Hconn now result. subst result. rewrite (expire_run ttl c Hconn).
  fold now. cbn zeta.
  set (sweep := ZkSharedCache.expire_entries now ttl
                  (map_to_list (ZkSharedCache._entries c)) 0 c).
  pose proof (expire_entries_errors now ttl
                (map_to_list (ZkSharedCache._entries c)) 0 c) as Herr.
  fold sweep in Herr. simpl.
  split; [apply expire_entries_keeps_entries|].
  split; [|split; [|split]].
  - intros Hok k ts Hk.
    destruct sweep as [[count|e|] c'] eqn:Hsweep; simpl in *; try done.
    assert (expired now ttl ts ->
            full_path c k ∉ dom (Kazoo.nodes (world c')) ∨
            recreated (full_path c k) (Kazoo.pending (world c))) as Hdel.
    { intros Hexp. eapply expire_entries_deleted; [exact Hsweep| |exact Hexp].
      by apply elem_of_map_to_list. }
    split; [exact Hdel|].
    intros Hin Hnot. apply not_expired_le. intros Hexp.
    destruct (Hdel Hexp); done.
  - intros before k ts after count c1 Hsplit Hbefore Hexp.
    assert (sweep = ZkSharedCache.expire_entries now ttl ((k, ts) :: after) count c1)
      as Hrest.
    { subst sweep. by rewrite Hsplit, expire_entries_app, Hbefore. }
    rewrite expire_entries_cons in Hrest.
    apply Qgtb_expired in Hexp. rewrite Hexp in Hrest.
    assert (full_path c1 k = full_path c k) as Hpath.
    { pose proof (expire_entries_state now ttl before 0 c) as [w' [H|H]];
        rewrite Hbefore in H; simpl in H; by subst c1. }
    rewrite Hpath in Hrest.
    pose proof (Kazoo_delete_outcome (full_path c k) (world c1)) as Hout.
    destruct (Kazoo.delete (full_path c k) (world c1)) as [[[]|e|] w2];
      simpl in *; [done| |done].
    rewrite Hrest. destruct Hout as [_ [[-> | ->]|[-> _]]]; done.
  - intros e He. destruct sweep.1 as [count|e'|]; simpl in *; try done.
    by inversion He; subst.
  - by destruct sweep.1.
Qed.

(** ** The retry wrapper *)

(** More fuel does not change a wait that returned. *)
Lemma wait_connected_loop_mono fuel fuel' timeout start total zk :
  (fuel ≤ fuel')%nat ->
  (Zookeeper.wait_connected_loop fuel timeout start total zk).1 ≠ Diverge ->
  Zookeeper.wait_connected_loop fuel' timeout start total zk =
  Zookeeper.wait_connected_loop fuel timeout start total zk.
Proof.
  revert fuel' total zk. induction fuel as [|fuel IH]; intros fuel' total zk Hle Hret.
  - by destruct Hret.
  - destruct fuel' as [|fuel']; [lia|]. simpl in *.
    unfold bind in *.
    destruct (Zookeeper._connected_wait _ zk) as [[b|e|] zk1]; try done.
    destruct (Zookeeper.on_kazoo Kazoo.get_time zk1) as [[now|e|] zk2]; try done.
    destruct b; [done|].
    destruct (match timeout with Some tmo => _ | None => false end); [done|].
    apply IH; [lia|done].
Qed.

Lemma wait_connected_mono fuel fuel' timeout zk :
  (fuel ≤ fuel')%nat ->
  (Zookeeper.wait_connected fuel timeout zk).1 ≠ Diverge ->
  Zookeeper.wait_connected fuel' timeout zk = Zookeeper.wait_connected fuel timeout zk.
Proof.
  intros Hle. unfold Zookeeper.wait_connected, bind.
  destruct (Zookeeper.is_connected zk) as [[[]|e|] zk1]; try done.
  destruct (Zookeeper.on_kazoo Kazoo.get_time zk1) as [[now|e|] zk2]; try done.
  by apply wait_connected_loop_mono.
Qed.

Section Retry.
Context {A : Type} (f : M Zookeeper.t A) (_timeout : option Q).
Context (wait_fuel : nat).

(** [failed_attempts n zk zk']: from [zk], [n] attempts in a row fail, each
    because the wait for a connection expires or because [f] raises
    [ZkNoConnection], and they leave the client in [zk']. *)
Inductive failed_attempts : nat -> Zookeeper.t -> Zookeeper.t -> Prop :=
  | no_attempt zk : failed_attempts 0 zk zk
  | wait_expired n zk zk1 zk' :
      Zookeeper.wait_connected wait_fuel _timeout zk = (Raise ZkNoConnection, zk1) ->
      failed_attempts n zk1 zk' ->
      failed_attempts (S n) zk zk'
  | call_dropped n zk zk1 zk2 zk' :
      Zookeeper.wait_connected wait_fuel _timeout zk = (Ok tt, zk1) ->
      f zk1 = (Raise ZkNoConnection, zk2) ->
      failed_attempts n zk2 zk' ->
      failed_attempts (S n) zk zk'.

Lemma retry_loop_exhausts desc (r : Z) n :
  ∀ fuel count zk zk',
    failed_attempts n zk zk' ->
    count + Z.of_nat n = r ->
    (wait_fuel + n + 1 ≤ fuel)%nat ->
    Zookeeper.retry_loop fuel desc f (Some r) _timeout count zk =
    (Raise (ZkRetryLimit desc (1 + r)), zk').
Proof.
  induction n as [|n IH]; intros fuel count zk zk' Hfail Hcount Hfuel;
    (destruct fuel as [|fuel]; [lia|]); simpl.
  - inversion Hfail; subst. rewrite (proj2 (Z.ltb_lt _ _)) by lia. done.
  - rewrite (proj2 (Z.ltb_ge _ _)) by lia.
    unfold bind at 1, try_ at 1. unfold bind at 1.
    inversion Hfail as [|? ? zk1 ? Hwait Hrest|? ? zk1 zk2 ? Hwait Hcall Hrest]; subst.
    + rewrite wait_connected_mono with (fuel := wait_fuel);
        [|lia|by rewrite Hwait].
      rewrite Hwait. simpl. apply IH; [done|lia|lia].
    + rewrite wait_connected_mono with (fuel := wait_fuel);
        [|lia|by rewrite Hwait].
      rewrite Hwait. simpl. unfold try_. rewrite Hcall.
      apply IH; [done|lia|lia].
Qed.

Lemma retry_loop_returns desc (r : Z) n :
  ∀ fuel count zk zk1 zk2 zk3 a,
    failed_attempts n zk zk1 ->
    Zookeeper.wait_connected wait_fuel _timeout zk1 = (Ok tt, zk2) ->
    f zk2 = (Ok a, zk3) ->
    count + Z.of_nat n < r ->
    (wait_fuel + n + 1 ≤ fuel)%nat ->
    Zookeeper.retry_loop fuel desc f (Some r) _timeout count zk = (Ok a, zk3).
Proof.
  induction n as [|n IH]; intros fuel count zk zk1 zk2 zk3 a Hfail Hw Hf Hcount Hfuel;
    (destruct fuel as [|fuel]; [lia|]); simpl.
  - inversion Hfail; subst. rewrite (proj2 (Z.ltb_ge _ _)) by lia.
    unfold bind at 1, try_ at 1. unfold bind at 1.
    rewrite wait_connected_mono with (fuel := wait_fuel); [|lia|by rewrite Hw].
    rewrite Hw. simpl. unfold try_. by rewrite Hf.
  - rewrite (proj2 (Z.ltb_ge _ _)) by lia.
    unfold bind at 1, try_ at 1. unfold bind at 1.
    inversion Hfail as [|? ? zk' ? Hwait Hrest|? ? zk' zk'' ? Hwait Hcall Hrest]; subst.
    + rewrite wait_connected_mono with (fuel := wait_fuel);
        [|lia|by rewrite Hwait].
      rewrite Hwait. simpl. eapply IH; eauto; lia.
    + rewrite wait_connected_mono with (fuel := wait_fuel);
        [|lia|by rewrite Hwait].
      rewrite Hwait. simpl. unfold try_. rewrite Hcall.
      eapply IH; eauto; lia.
Qed.
End Retry.

(** *** Waiting with a finite timeout returns *)

Lemma Qgeb_le (x y : Q) : Qgeb x y = true ↔ (y <= x)%Q.
Proof.
  unfold Qgeb. destruct (Qlt_le_dec x y) as [Hlt|Hle]; split; try done.
  intros Hle. by apply Qle_not_lt in Hle.
Qed.

(** One iteration of the loop of [wait_connected]. *)
Lemma wait_connected_loop_step fuel tmo start total zk :
  Zookeeper.wait_connected_loop (S fuel) (Some tmo) start total zk =
  if Zookeeper._connected zk then (Ok tt, zk)
  else
    let waited :=
      Zookeeper.with_kazoo
        (Kazoo.with_clock
           (Kazoo.clock (Zookeeper.kazoo zk) + Qmax (Qmin (tmo - total) 10) 0)%Q
           (Zookeeper.kazoo zk)) zk in
    let total' := (Kazoo.clock (Zookeeper.kazoo waited) - start)%Q in
    let expire_or_wait :=
      if Qgeb total' tmo then (Raise ZkNoConnection, waited)
      else Zookeeper.wait_connected_loop fuel (Some tmo) start total' waited in
    match Kazoo.pending (Zookeeper.kazoo zk) with
    | Kazoo.WorkerConnects :: rest =>
        (Ok tt,
         Zookeeper.with_connected true
           (Zookeeper.with_kazoo (Kazoo.with_pending rest (Zookeeper.kazoo zk)) zk))
    | _ => expire_or_wait
    end.
Proof.
  destruct zk as [srv pre hc hd conn lk evs ce parties zl le w hooks].
  simpl. unfold bind at 1, Zookeeper._connected_wait.
  unfold bind at 1, get_state. simpl.
  destruct conn; [done|].
  destruct w as [nodes pending clock].
  destruct pending as [|[] rest];
    unfold bind, Zookeeper.on_kazoo, zoom, modify, ret, raise, Kazoo.get_time, gets;
    simpl; try reflexivity; by destruct (Qgeb _ tmo).
Qed.

Lemma wait_connected_loop_returns tmo n :
  ∀ start total zk,
    (total == Kazoo.clock (Zookeeper.kazoo zk) - start)%Q ->
    (tmo - total <= 10 * inject_Z (Z.of_nat n))%Q ->
    ∃ zk',
      Zookeeper.wait_connected_loop (S n) (Some tmo) start total zk = (Ok tt, zk') ∨
      Zookeeper.wait_connected_loop (S n) (Some tmo) start total zk =
        (Raise ZkNoConnection, zk').
Proof.
  induction n as [|n IH]; intros start total zk Hinv Hleft;
    rewrite wait_connected_loop_step; cbv zeta.
  all: destruct (Zookeeper._connected zk); [by eexists; left|].
  all: set (waited := Zookeeper.with_kazoo _ zk).
  all: set (total' := (Kazoo.clock (Zookeeper.kazoo waited) - start)%Q).
  all: assert (total' == total + Qmax (Qmin (tmo - total) 10) 0)%Q as Htotal
         by (subst total' waited; simpl; lra).
  all: destruct (Q.min_spec (tmo - total) 10) as [[Hm1 Hm2]|[Hm1 Hm2]].
  all: destruct (Q.max_spec (Qmin (tmo - total) 10) 0) as [[Hx1 Hx2]|[Hx1 Hx2]].
  all: destruct (Qgeb total' tmo) eqn:Hge;
         [destruct (Kazoo.pending (Zookeeper.kazoo zk)) as [|[] rest];
          by eexists; (left + right)|].
  all: assert (¬ (tmo <= total')%Q) as Hlt
         by (intros Hle; apply Qgeb_le in Hle; congruence).
  all: rewrite ?Nat2Z.inj_succ in Hleft; unfold Z.succ in Hleft;
       rewrite ?inject_Z_plus in Hleft;
       change (inject_Z 1) with 1%Q in Hleft;
       change (inject_Z (Z.of_nat 0)) with 0%Q in Hleft.
  all: try (exfalso; apply Hlt; lra).
  all: destruct (IH start total' waited ltac:(reflexivity) ltac:(lra)) as [zk' Hzk'].
  all: destruct (Kazoo.pending (Zookeeper.kazoo zk)) as [|[] rest];
         try (by exists zk'); by eexists; left.
Qed.

(** The number of iterations that suffices for a timeout. *)
Definition wait_bound (tmo : Q) : nat := S (Z.to_nat (Qceiling tmo)).

Lemma wait_connected_run fuel timeout zk :
  Zookeeper.wait_connected fuel timeout zk =
  if Zookeeper._connected zk then (Ok tt, zk)
  else Zookeeper.wait_connected_loop fuel timeout
         (Kazoo.clock (Zookeeper.kazoo zk)) 0%Q zk.
Proof.
  destruct zk as [srv pre hc hd conn lk evs ce parties zl le w hooks].
  unfold Zookeeper.wait_connected, Zookeeper.is_connected, bind, gets,
    Zookeeper.on_kazoo, zoom, Kazoo.get_time, ret.
  simpl. by destruct conn.
Qed.

Lemma wait_connected_returns tmo zk :
  ∃ zk',
    Zookeeper.wait_connected (wait_bound tmo) (Some tmo) zk = (Ok tt, zk') ∨
    Zookeeper.wait_connected (wait_bound tmo) (Some tmo) zk = (Raise ZkNoConnection, zk').
Proof.
  rewrite wait_connected_run. unfold wait_bound.
  destruct (Zookeeper._connected zk) eqn:Hconn; [by eexists; left|].
  apply wait_connected_loop_returns; [lra|].
  pose proof (Qle_ceiling tmo) as Hceil.
  destruct (Z.le_gt_cases 0 (Qceiling tmo)) as [Hpos|Hneg].
  - rewrite Z2Nat.id by done.
    assert (0 <= inject_Z (Qceiling tmo))%Q
      by (change 0%Q with (inject_Z 0); by rewrite <- Zle_Qle).
    lra.
  - rewrite Z2Nat.nonpos by lia.
    assert (inject_Z (Qceiling tmo) < 0)%Q
      by (change 0%Q with (inject_Z 0); by rewrite <- Zlt_Qlt).
    change (inject_Z (Z.of_nat 0)) with 0%Q. lra.
Qed.

(** When [f] raises [ZkNoConnection] whenever it is called and the timeout
    is finite, any number of attempts in a row fail. *)
Lemma always_dropped_fails {A} (f : M Zookeeper.t A) tmo :
  (∀ zk, (f zk).1 = Raise ZkNoConnection) ->
  ∀ n zk, ∃ zk', failed_attempts f (Some tmo) (wait_bound tmo) n zk zk'.
Proof.
  intros Hf. induction n as [|n IH]; intros zk.
  - exists zk. constructor.
  - destruct (wait_connected_returns tmo zk) as [zk1 [Hw|Hw]].
    + specialize (Hf zk1). destruct (f zk1) as [r zk2] eqn:Hcall. simpl in Hf. subst r.
      destruct (IH zk2) as [zk' Hrest]. exists zk'.
      by eapply call_dropped.
    + destruct (IH zk1) as [zk' Hrest]. exists zk'. by eapply wait_expired.
Qed.

(** C6.  [retry] with a finite number of retries [r].  When the first
    [r + 1] attempts all fail (the wait for a connection expires, or [f]
    raises [ZkNoConnection]), [retry] makes exactly these attempts and then
    raises [ZkRetryLimit]: it leaves the client as the last of them left it.
    When an attempt within the budget gets a connection and [f] returns,
    [retry] returns the result of [f] at once, leaving the client as [f]
    left it.  In particular, when [f] raises [ZkNoConnection] on every call
    and the timeout is finite, [retry] raises [ZkRetryLimit] after [r + 1]
    attempts from every client state: three attempts for [r = 2]. *)
Theorem retry_gives_up_after_all_attempts :
  (∀ (A : Type) (f : M Zookeeper.t A) desc (r : nat) _timeout wait_fuel fuel zk zk',
     failed_attempts f _timeout wait_fuel (S r) zk zk' ->
     (wait_fuel + S r + 1 ≤ fuel)%nat ->
     Zookeeper.retry fuel desc f (Some (Z.of_nat r)) _timeout zk =
     (Raise (ZkRetryLimit desc (1 + Z.of_nat r)), zk')) ∧
  (∀ (A : Type) (f : M Zookeeper.t A) desc (r : nat) _timeout wait_fuel fuel
     n zk zk1 zk2 zk3 a,
     failed_attempts f _timeout wait_fuel n zk zk1 ->
     (n ≤ r)%nat ->
     Zookeeper.wait_connected wait_fuel _timeout zk1 = (Ok tt, zk2) ->
     f zk2 = (Ok a, zk3) ->
     (wait_fuel + n + 1 ≤ fuel)%nat ->
     Zookeeper.retry fuel desc f (Some (Z.of_nat r)) _timeout zk = (Ok a, zk3)) ∧
  (∀ (A : Type) (f : M Zookeeper.t A) desc (r : nat) tmo zk,
     (∀ s, (f s).1 = Raise ZkNoConnection) ->
     ∃ zk',
       failed_attempts f (Some tmo) (wait_bound tmo) (S r) zk zk' ∧
       ∀ fuel, (wait_bound tmo + S r + 1 ≤ fuel)%nat ->
         Zookeeper.retry fuel desc f (Some (Z.of_nat r)) (Some tmo) zk =
         (Raise (ZkRetryLimit desc (1 + Z.of_nat r)), zk')).
Proof.
  split; [|split].
  - intros A f desc r _timeout wait_fuel fuel zk zk' Hfail Hfuel.
    unfold Zookeeper.retry. eapply retry_loop_exhausts; [exact Hfail|lia|lia].
  - intros A f desc r _timeout wait_fuel fuel n zk zk1 zk2 zk3 a Hfail Hn Hw Hf Hfuel.
    unfold Zookeeper.retry. eapply retry_loop_returns; eauto. lia.
  - intros A f desc r tmo zk Hf.
    destruct (always_dropped_fails f tmo Hf (S r) zk) as [zk' Hfail].
    exists zk'. split; [exact Hfail|].
    intros fuel Hfuel. unfold Zookeeper.retry.
    eapply retry_loop_exhausts; [exact Hfail|lia|lia].
Qed.

(** * Concrete runs *)

(** The beacon server [bs1] of AS 1-1 and its cache of path segments. *)
Definition world_of (nodes : list (string * bytes)) (events : list Kazoo.EnvEvent)
    (now : Q) : Kazoo.World :=
  {| Kazoo.nodes := list_to_map nodes; Kazoo.pending := events; Kazoo.clock := now |}.

Definition bs1 (w : Kazoo.World) : Zookeeper.t :=
  Zookeeper.init "1-1" "bs" "bs1" true true w.

Definition bs1_connected (w : Kazoo.World) : Zookeeper.t :=
  Zookeeper.with_connected true (bs1 w).

Definition pcb_cache (w : Kazoo.World) : ZkSharedCache.t :=
  ZkSharedCache.init (bs1_connected w) "pcb_cache".

Definition tracking (entries : list (string * Q)) (c : ZkSharedCache.t)
    : ZkSharedCache.t :=
  ZkSharedCache.with_entries (fun _ => list_to_map entries) c.

(** The client holds the lock after [get_lock]; a SUSPENDED notification
    alone makes [have_lock] release it. *)
Example have_lock_after_get_lock :
  (Zookeeper.get_lock 3 (Some 1%Q) None ;;; Zookeeper.have_lock)
    (bs1_connected (world_of [] [] 0)) =
  (Ok true,
   Zookeeper.with_lock true
     (Zookeeper.with_zk_lock
        (Some {| Kazoo.lock_path := "/1-1/bs/lock"; Kazoo.identifier := "bs1";
                 Kazoo.is_acquired := true |})
        (bs1_connected
           (world_of [("/1-1/bs/lock/bs1", []); ("/1-1/bs/lock", []);
                      ("/1-1/bs", []); ("/1-1", [])] [] 0)))).
Proof. vm_compute. reflexivity. Qed.

Example have_lock_after_suspend :
  let '(r, zk) :=
    (Zookeeper.get_lock 3 (Some 1%Q) None ;;;
     Zookeeper._state_listener SUSPENDED ;;;
     Zookeeper.have_lock) (bs1_connected (world_of [] [] 0)) in
  r = Ok false ∧ Zookeeper._lock zk = false ∧ Zookeeper.conn_epoch zk = 1 ∧
  Zookeeper._lock_epoch zk = 0 ∧
  Kazoo.nodes (Zookeeper.kazoo zk) !! "/1-1/bs/lock/bs1" = None.
Proof. vm_compute. done. Qed.

(** [release_lock] drops the [NoNodeError] of a contender node that is
    already gone, and the [ConnectionLoss] of a release that fails. *)
Definition holding (w : Kazoo.World) : Zookeeper.t :=
  Zookeeper.with_lock true
    (Zookeeper.with_zk_lock
       (Some {| Kazoo.lock_path := "/1-1/bs/lock"; Kazoo.identifier := "bs1";
                Kazoo.is_acquired := true |})
       (bs1_connected w)).

Example release_lock_drops_NoNodeError :
  (Kazoo.release {| Kazoo.lock_path := "/1-1/bs/lock"; Kazoo.identifier := "bs1";
                    Kazoo.is_acquired := true |} (world_of [] [] 0)).1 =
    Raise NoNodeError ∧
  (Zookeeper.release_lock (holding (world_of [] [] 0))).1 = Ok tt.
Proof. vm_compute. done. Qed.

Example release_lock_drops_ConnectionLoss :
  (Kazoo.release {| Kazoo.lock_path := "/1-1/bs/lock"; Kazoo.identifier := "bs1";
                    Kazoo.is_acquired := true |}
     (world_of [("/1-1/bs/lock/bs1", [])] [Kazoo.Drop] 0)).1 = Raise ConnectionLoss ∧
  (Zookeeper.release_lock
     (holding (world_of [("/1-1/bs/lock/bs1", [])] [Kazoo.Drop] 0))).1 = Ok tt.
Proof. vm_compute. done. Qed.

(** C9 at a client whose first request after CONNECTED is dropped. *)
Lemma state_connected_returns_early_witness :
  reconnect_fails (bs1 (world_of [] [Kazoo.Drop] 0)) ∧
  ∃ zk', Zookeeper._state_connected (bs1 (world_of [] [Kazoo.Drop] 0)) = (Ok tt, zk') ∧
         Zookeeper._connected zk' = false ∧
         Zookeeper.hook_calls zk' = [].
Proof.
  assert (reconnect_fails (bs1 (world_of [] [Kazoo.Drop] 0))) as Hfails
    by (left; reflexivity).
  split; [exact Hfails|].
  destruct (state_connected_returns_early _ Hfails) as [(zk' & Hrun & _ & Hc & Hh) _].
  exists zk'. split; [exact Hrun|]. split; [exact Hc|exact Hh].
Defined.

(** The join of a registered party fails: same outcome. *)
Example state_connected_party_fails :
  let zk :=
    Zookeeper.with_parties
      {[ "/1-1/bs/party" :=
           {| ZkParty._autojoin := true; ZkParty._path := "/1-1/bs/party";
              ZkParty._party := {| Kazoo.party_path := "/1-1/bs/party";
                                   Kazoo.party_id := "bs1" |} |} ]}
      (bs1 (world_of [] [Kazoo.Calm; Kazoo.Expire] 0)) in
  (Zookeeper.ensure_path (Zookeeper.prefix zk) true zk).1 = Ok tt ∧
  (Zookeeper.reconnect_setup zk).1 = Raise ZkNoConnection ∧
  (Zookeeper._state_connected zk).1 = Ok tt ∧
  Zookeeper._connected (Zookeeper._state_connected zk).2 = false ∧
  Zookeeper.hook_calls (Zookeeper._state_connected zk).2 = [].
Proof. vm_compute. done. Qed.

(** With a connection, the flag is set and the hook is called. *)
Example state_connected_succeeds :
  let zk := bs1 (world_of [] [] 0) in
  (Zookeeper._state_connected zk).1 = Ok tt ∧
  Zookeeper._connected (Zookeeper._state_connected zk).2 = true ∧
  Zookeeper.hook_calls (Zookeeper._state_connected zk).2 = [on_connect].
Proof. vm_compute. done. Qed.

(** C5, the race on creation: the node is absent when [set] is served, and
    a peer creates it just before [create] is. *)
Definition racing : ZkSharedCache.t :=
  pcb_cache (world_of [] [Kazoo.Calm;
                          Kazoo.PeerCreate "/1-1/bs/pcb_cache/dup" [Byte.x78]] 0).

Lemma store_pushes_unless_lost_race_witness :
  connected racing = true ∧
  (Kazoo.set "/1-1/bs/pcb_cache/dup" [Byte.x78] (world racing)).1 = Raise NoNodeError ∧
  (ZkSharedCache.store "dup" [Byte.x78] racing).1 = Ok tt ∧
  ZkSharedCache._incoming_entries (ZkSharedCache.store "dup" [Byte.x78] racing).2 = [].
Proof.
  split; [reflexivity|]. split; [reflexivity|].
  apply (store_pushes_unless_lost_race "dup" [Byte.x78] racing eq_refl).
  split; reflexivity.
Defined.

(** The winner of the race, and a later update, push the name. *)
Example store_winner_pushes :
  let c := pcb_cache (world_of [] [Kazoo.Elapse 5] 0) in
  ZkSharedCache.store "dup" [Byte.x78] c =
  (Ok tt,
   ZkSharedCache.with_incoming [("dup", 5%Q)]
     (pcb_cache (world_of [("/1-1/bs/pcb_cache/dup", [Byte.x78]);
                           ("/1-1/bs/pcb_cache", []); ("/1-1/bs", []); ("/1-1", [])]
                          [] 5))).
Proof. vm_compute. reflexivity. Qed.

(** C10: a tracked entry whose node has vanished loses its timestamp. *)
Example get_forgets_vanished_entry :
  let c := tracking [("pcb1", 2%Q)] (pcb_cache (world_of [] [] 7)) in
  (ZkSharedCache._get "pcb1" c).1 = Raise ZkNoNodeError ∧
  ZkSharedCache._entries (ZkSharedCache._get "pcb1" c).2 = ∅.
Proof. vm_compute. done. Qed.

Example get_keeps_first_seen :
  let w := world_of [("/1-1/bs/pcb_cache/pcb1", [Byte.x01]);
                     ("/1-1/bs/pcb_cache/pcb2", [Byte.x02])] [] 7 in
  let c := tracking [("pcb1", 2%Q)] (pcb_cache w) in
  (ZkSharedCache._get "pcb1" c).1 = Ok [Byte.x01] ∧
  ZkSharedCache._entries (ZkSharedCache._get "pcb1" c).2 = {[ "pcb1" := 2%Q ]} ∧
  (ZkSharedCache._get "pcb2" c).1 = Ok [Byte.x02] ∧
  ZkSharedCache._entries (ZkSharedCache._get "pcb2" c).2 =
    {[ "pcb1" := 2%Q; "pcb2" := 7%Q ]}.
Proof. vm_compute. done. Qed.

(** C4: ["old"] was first seen at 0 and ["new"] at 5; at time 6,
    [expire(3)] deletes ["old"] and keeps ["new"]. *)
Definition aging : ZkSharedCache.t :=
  tracking [("old", 0%Q); ("new", 5%Q)]
    (pcb_cache (world_of [("/1-1/bs/pcb_cache/old", [Byte.x01]);
                          ("/1-1/bs/pcb_cache/new", [Byte.x02]);
                          ("/1-1/bs/pcb_cache", [])] [] 6)).

Lemma expire_deletes_old_entries_witness :
  connected aging = true ∧
  (ZkSharedCache.expire 3 aging).1 = Ok tt ∧
  ("/1-1/bs/pcb_cache/old"
     ∉ dom (Kazoo.nodes (world (ZkSharedCache.expire 3 aging).2))) ∧
  ("/1-1/bs/pcb_cache/new"
     ∈ dom (Kazoo.nodes (world (ZkSharedCache.expire 3 aging).2))) ∧
  (6 - 5 <= 3)%Q.
Proof.
  assert ((ZkSharedCache.expire 3 aging).1 = Ok tt) as Hok by reflexivity.
  assert ("/1-1/bs/pcb_cache/new"
            ∈ dom (Kazoo.nodes (world (ZkSharedCache.expire 3 aging).2))) as Hnew
    by (apply elem_of_dom; vm_compute; eauto).
  assert (¬ recreated "/1-1/bs/pcb_cache/new" (Kazoo.pending (world aging))) as Hquiet
    by (intros H; inversion H).
  pose proof (expire_deletes_old_entries 3 aging eq_refl) as (_ & Hdeleted & _).
  split; [reflexivity|]. split; [exact Hok|]. split; [|split; [exact Hnew|]].
  - destruct (proj1 (Hdeleted Hok "old" 0%Q eq_refl)) as [Hgone|Hback].
    + reflexivity.
    + exact Hgone.
    + inversion Hback.
  - exact (proj2 (Hdeleted Hok "new" 5%Q eq_refl) Hnew Hquiet).
Defined.

(** The timestamp map still has both names: they go at the next
    [process]. *)
Example expire_leaves_timestamps :
  ZkSharedCache._entries (ZkSharedCache.expire 3 aging).2 =
    {[ "old" := 0%Q; "new" := 5%Q ]} ∧
  dom (ZkSharedCache._entries
         ((ZkSharedCache.expire 3 ;;; ZkSharedCache.process) aging).2) = {[ "new" ]}.
Proof. vm_compute. done. Qed.

(** A second sweep by a peer that still tracks ["old"] finds no node. *)
Example expire_surfaces_NoNode :
  ((ZkSharedCache.expire 3 ;;; ZkSharedCache.expire 3) aging).1 = Raise ZkNoNodeError.
Proof. reflexivity. Qed.

Example expire_aborts_on_connection_loss :
  let c := tracking [("old", 0%Q); ("older", (-1)%Q)]
             (pcb_cache (world_of [("/1-1/bs/pcb_cache/old", [Byte.x01]);
                                   ("/1-1/bs/pcb_cache/older", [Byte.x02])]
                                  [Kazoo.Drop] 6)) in
  (ZkSharedCache.expire 3 c).1 = Raise ZkNoConnection ∧
  dom (Kazoo.nodes (world (ZkSharedCache.expire 3 c).2)) =
    {[ "/1-1/bs/pcb_cache/old"; "/1-1/bs/pcb_cache/older" ]}.
Proof. vm_compute. done. Qed.

(** C3: a reader that tracks ["gone"] and has ["p01"] waiting in its FIFO
    finds the children ["p01"] and ["p02"]. *)
Definition reader : ZkSharedCache.t :=
  ZkSharedCache.with_incoming [("p01", 1%Q)]
    (tracking [("gone", 0%Q)]
       (pcb_cache (world_of [("/1-1/bs/pcb_cache/p01", [Byte.x01]);
                             ("/1-1/bs/pcb_cache/p02", [Byte.x02]);
                             ("/1-1/bs/pcb_cache", [])] [] 4))).

Lemma process_tracks_children_witness :
  connected reader = true ∧
  ∃ c',
    ZkSharedCache.process reader = (Ok tt, c') ∧
    dom (ZkSharedCache._entries c') = {[ "p01"; "p02" ]} ∧
    ZkSharedCache._entries c' !! "gone" = None.
Proof.
  split; [reflexivity|].
  destruct (process_tracks_children reader
              (ZkSharedCache.with_incoming [] (tracking [("gone", 0%Q); ("p01", 1%Q)] reader))
              {[ "p01"; "p02" ]} eq_refl)
    as (c' & Hrun & Hdom & Hgone & _).
  - vm_compute. reflexivity.
  - vm_compute. exact I.
  - exists c'. split; [exact Hrun|]. split; [exact Hdom|].
    apply Hgone.
    + apply elem_of_dom. vm_compute. eauto.
    + vm_compute. intros H. discriminate H.
Defined.

Example process_reader_run :
  let c' := (ZkSharedCache.process reader).2 in
  ZkSharedCache._entries c' = {[ "p01" := 1%Q; "p02" := 4%Q ]} ∧
  ZkSharedCache._incoming_entries c' = [] ∧
  ZkSharedCache.handled c' = [[[Byte.x02]]] ∧
  ZkSharedCache.handled (ZkSharedCache.process c').2 = [[[Byte.x02]]; []].
Proof. vm_compute. done. Qed.

(** C7: ["p01"] is stored at time 2 and again at time 7; [process] records
    the first time. *)
Definition writer : ZkSharedCache.t :=
  pcb_cache (world_of [] [Kazoo.Calm; Kazoo.Elapse 2; Kazoo.Elapse 5] 0).

Lemma first_seen_timestamp_is_kept_witness :
  let c1 := (ZkSharedCache.store "p01" [Byte.x01] writer).2 in
  let c2 := (ZkSharedCache.store "p01" [Byte.x02] c1).2 in
  let c_drained :=
    (ZkSharedCache.drain_incoming (ZkSharedCache._incoming_entries c2) c2).2 in
  ZkSharedCache._incoming_entries c2 = [("p01", 2%Q); ("p01", 7%Q)] ∧
  ZkSharedCache._entries c_drained !! "p01" = Some 2%Q ∧
  ZkSharedCache._entries (ZkSharedCache.process c2).2 !! "p01" =
    match ZkSharedCache._list_entries c_drained with
    | (Ok C, _) => if decide ("p01" ∈ C) then Some 2%Q else None
    | _ => Some 2%Q
    end.
Proof.
  intros c1 c2 c_drained.
  split; [vm_compute; reflexivity|].
  apply (proj2 (proj2 first_seen_timestamp_is_kept)
           writer "p01" [Byte.x01] [Byte.x02] 2%Q 7%Q c1 c2).
  - vm_compute. reflexivity.
  - vm_compute. intros H. inversion H.
  - vm_compute. reflexivity.
  - vm_compute. reflexivity.
  - vm_compute. reflexivity.
  - vm_compute. reflexivity.
Defined.

Example store_twice_then_process :
  ZkSharedCache._entries
    ((ZkSharedCache.store "p01" [Byte.x01] ;;; ZkSharedCache.store "p01" [Byte.x02] ;;;
      ZkSharedCache.process) writer).2 = {[ "p01" := 2%Q ]}.
Proof. vm_compute. reflexivity. Qed.

(** C6: [f] notes each call (as a hook invocation, for want of a counter)
    and raises [ZkNoConnection]. *)
Definition dropping : M Zookeeper.t nat :=
  Zookeeper.call_hook on_connect ;;; raise ZkNoConnection.

Lemma retry_gives_up_after_all_attempts_witness :
  (∀ s, (dropping s).1 = Raise ZkNoConnection) ∧
  ∃ zk',
    failed_attempts dropping (Some (1 # 10)) (wait_bound (1 # 10)) 3
      (bs1_connected (world_of [] [] 0)) zk' ∧
    Zookeeper.retry 6 "op" dropping (Some 2) (Some (1 # 10))
      (bs1_connected (world_of [] [] 0)) =
    (Raise (ZkRetryLimit "op" 3), zk').
Proof.
  split; [intros s; reflexivity|].
  destruct (proj2 (proj2 retry_gives_up_after_all_attempts) nat dropping "op" 2%nat
              (1 # 10) (bs1_connected (world_of [] [] 0)) (fun s => eq_refl))
    as (zk' & Hfailed & Hretry).
  exists zk'. split; [exact Hfailed|].
  apply (Hretry 6%nat). vm_compute. lia.
Defined.

Example retry_makes_three_attempts :
  Zookeeper.retry 6 "op" dropping (Some 2) (Some (1 # 10)) (bs1_connected (world_of [] [] 0)) =
  (Raise (ZkRetryLimit "op" 3),
   Zookeeper.with_hook_calls [on_connect; on_connect; on_connect]
     (bs1_connected (world_of [] [] 0))).
Proof. vm_compute. reflexivity. Qed.

(** Disconnected, each attempt waits for its timeout and [f] is never
    called.  When two calls are dropped and the third goes through, its
    result is returned. *)
Example retry_waits_then_gives_up :
  let '(r, zk) := Zookeeper.retry 6 "op" dropping (Some 2) (Some (1 # 10))
                    (bs1 (world_of [] [] 0)) in
  r = Raise (ZkRetryLimit "op" 3) ∧ Zookeeper.hook_calls zk = [] ∧
  (Kazoo.clock (Zookeeper.kazoo zk) == 3 # 10)%Q.
Proof. vm_compute. done. Qed.

Example retry_returns_result :
  let '(r, zk) :=
    Zookeeper.retry 6 "op"
      (Zookeeper.call_hook on_connect ;;;
       Zookeeper.ensure_path "pcb_cache" false ;;; ret 42%nat)
      (Some 2) (Some (1 # 10))
      (bs1_connected (world_of [] [Kazoo.Drop; Kazoo.Expire] 0)) in
  r = Ok 42%nat ∧
  Zookeeper.hook_calls zk = [on_connect; on_connect; on_connect] ∧
  is_Some (Kazoo.nodes (Zookeeper.kazoo zk) !! "/1-1/bs/pcb_cache").
Proof. vm_compute. eauto. Qed.

(** A negative number of retries makes no attempt at all. *)
Example retry_negative_retries :
  Zookeeper.retry 6 "op" dropping (Some (-5)) (Some (1 # 10))
    (bs1_connected (world_of [] [] 0)) =
  (Raise (ZkRetryLimit "op" (-4)), bs1_connected (world_of [] [] 0)).
Proof. vm_compute. reflexivity. Qed.


(** * Further properties *)

(** ** Which exceptions a computation can raise *)

(** [raises_only P m]: every run of [m] returns, or raises an exception that
    satisfies [P]; no run blocks. *)
Definition raises_only {S A} (P : PyExc -> Prop) (m : M S A) : Prop :=
  ∀ s, match (m s).1 with
       | Ok _ => True
       | Raise e => P e
       | Diverge => False
       end.

Definition never (e : PyExc) : Prop := False.

Section RaisesOnly.
Context {S : Type} (P : PyExc -> Prop).

Lemma raises_only_ret {A} (a : A) : raises_only P (ret a : M S A).
Proof. by intros s. Qed.

Lemma raises_only_raise {A} e : P e -> raises_only P (raise e : M S A).
Proof. by intros He s. Qed.

Lemma raises_only_get_state : raises_only P (get_state : M S S).
Proof. by intros s. Qed.

Lemma raises_only_gets {A} (f : S -> A) : raises_only P (gets f).
Proof. by intros s. Qed.

Lemma raises_only_modify (f : S -> S) : raises_only P (modify f).
Proof. by intros s. Qed.

Lemma raises_only_bind {A B} (m : M S A) (k : A -> M S B) :
  raises_only P m -> (∀ a, raises_only P (k a)) -> raises_only P (bind m k).
Proof.
  intros Hm Hk s. unfold bind. specialize (Hm s).
  destruct (m s) as [[a|e|] s']; simpl in *; try done. apply Hk.
Qed.

Lemma raises_only_try {A} (Q : PyExc -> Prop) (m : M S A)
    (except : PyExc -> option (M S A)) :
  raises_only Q m ->
  (∀ e, Q e -> match except e with
               | Some handler => raises_only P handler
               | None => P e
               end) ->
  raises_only P (try_ m except).
Proof.
  intros Hm Hh s. unfold try_. specialize (Hm s).
  destruct (m s) as [[a|e|] s']; simpl in *; try done.
  specialize (Hh e Hm). destruct (except e) as [handler|]; [apply Hh|done].
Qed.

Lemma raises_only_zoom {T A} (get_t : S -> T) (upd : T -> S -> S) (m : M T A) :
  raises_only P m -> raises_only P (zoom get_t upd m).
Proof.
  intros Hm s. unfold zoom. specialize (Hm (get_t s)).
  by destruct (m (get_t s)) as [r t'].
Qed.

Lemma raises_only_for_each {X} (xs : list X) (body : X -> M S unit) :
  (∀ x, raises_only P (body x)) -> raises_only P (for_each xs body).
Proof.
  intros Hb. induction xs as [|x xs IH]; simpl.
  - apply raises_only_ret.
  - apply raises_only_bind; auto.
Qed.
End RaisesOnly.

Lemma raises_only_weaken {S A} (P Q : PyExc -> Prop) (m : M S A) :
  (∀ e, P e -> Q e) -> raises_only P m -> raises_only Q m.
Proof.
  intros HPQ Hm s. specialize (Hm s). destruct ((m s).1); auto.
Qed.

(** The requests of the Kazoo client. *)
Definition node_absent (e : PyExc) : Prop := request_error e ∨ e = NoNodeError.
Definition node_exists (e : PyExc) : Prop := request_error e ∨ e = NodeExistsError.
Definition no_connection_only (e : PyExc) : Prop := e = ZkNoConnection.

Lemma request_raises : raises_only request_error Kazoo.request.
Proof. intros w. apply Kazoo_request_outcome. Qed.

Ltac raises_step :=
  match goal with
  | |- raises_only _ (ret _) => apply raises_only_ret
  | |- raises_only _ get_state => apply raises_only_get_state
  | |- raises_only _ (gets _) => apply raises_only_gets
  | |- raises_only _ (modify _) => apply raises_only_modify
  | |- raises_only _ (bind _ _) => apply raises_only_bind; [|intros ?]
  | |- raises_only _ (for_each _ _) => apply raises_only_for_each; intros ?
  | |- raises_only _ (zoom _ _ _) => apply raises_only_zoom
  | |- raises_only _ (raise _) =>
      apply raises_only_raise;
      unfold node_absent, node_exists, no_connection_only, request_error; auto
  | |- raises_only _ Kazoo.request =>
      eapply raises_only_weaken; [|apply request_raises];
      unfold node_absent, node_exists, request_error; tauto
  | |- raises_only _ (match ?x with _ => _ end) => destruct x
  | |- raises_only _ _ => assumption
  end.
Ltac raises_auto := repeat raises_step.

Lemma Kazoo_ensure_path_raises p : raises_only request_error (Kazoo.ensure_path p).
Proof. unfold Kazoo.ensure_path. raises_auto. Qed.

Lemma Kazoo_get_raises p : raises_only node_absent (Kazoo.get p).
Proof. unfold Kazoo.get. raises_auto. Qed.

Lemma Kazoo_set_raises p v : raises_only node_absent (Kazoo.set p v).
Proof. unfold Kazoo.set. raises_auto. Qed.

Lemma Kazoo_create_raises p v : raises_only node_exists (Kazoo.create p v true).
Proof. unfold Kazoo.create. raises_auto. Qed.

Lemma Kazoo_get_children_raises p : raises_only node_absent (Kazoo.get_children p).
Proof. unfold Kazoo.get_children. raises_auto. Qed.

Lemma Kazoo_party_join_raises p : raises_only request_error (Kazoo.party_join p).
Proof. unfold Kazoo.party_join. apply Kazoo_ensure_path_raises. Qed.

Lemma Kazoo_party_iter_raises p : raises_only request_error (Kazoo.party_iter p).
Proof. unfold Kazoo.party_iter. raises_auto. Qed.

(** [try: m except (ConnectionLoss, SessionExpiredError): raise
    ZkNoConnection], around a request that fails only that way. *)
Lemma no_connection_raises {S A} (m : M S A) :
  raises_only request_error m ->
  raises_only no_connection_only (try_ m no_connection).
Proof.
  intros Hm. eapply raises_only_try; [exact Hm|].
  intros e [-> | ->]; simpl; by apply raises_only_raise.
Qed.

Lemma ZkParty_autojoin_raises party :
  raises_only no_connection_only (ZkParty.autojoin party).
Proof.
  unfold ZkParty.autojoin, ZkParty.join, ZkParty.list.
  raises_auto; apply no_connection_raises;
    [apply Kazoo_party_join_raises|].
  raises_auto. apply Kazoo_party_iter_raises.
Qed.

Lemma ensure_path_raises path abs :
  raises_only no_connection_only (Zookeeper.ensure_path path abs).
Proof.
  unfold Zookeeper.ensure_path, Zookeeper.on_kazoo. raises_auto.
  all: apply no_connection_raises, raises_only_zoom, Kazoo_ensure_path_raises.
Qed.

Lemma reconnect_setup_raises :
  raises_only no_connection_only Zookeeper.reconnect_setup.
Proof.
  unfold Zookeeper.reconnect_setup, Zookeeper.on_kazoo. raises_auto.
  - apply ensure_path_raises.
  - apply ZkParty_autojoin_raises.
Qed.

Lemma state_connected_never_raises : raises_only never Zookeeper._state_connected.
Proof.
  unfold Zookeeper._state_connected, Zookeeper.call_hook.
  apply raises_only_bind.
  - eapply raises_only_try.
    + apply raises_only_bind; [apply reconnect_setup_raises|].
      intros ?. apply raises_only_ret.
    + intros e ->. simpl. apply raises_only_ret.
  - intros proceed. raises_auto.
Qed.

Lemma state_suspended_never_raises : raises_only never Zookeeper._state_suspended.
Proof. unfold Zookeeper._state_suspended, Zookeeper.call_hook. raises_auto. Qed.

Lemma state_lost_never_raises : raises_only never Zookeeper._state_lost.
Proof. unfold Zookeeper._state_lost, Zookeeper.call_hook. raises_auto. Qed.

(** ** The state worker *)

(** What the worker does for a state it does not drop. *)
Definition dispatch (new_state : KazooState) : M Zookeeper.t unit :=
  match new_state with
  | CONNECTED => Zookeeper._state_connected
  | SUSPENDED => Zookeeper._state_suspended
  | LOST => Zookeeper._state_lost
  end.

(** Whether the worker drops the state it has taken from the queue: a
    CONNECTED with more states queued behind it, or the state it saw last. *)
Definition dropped (old_state : WorkerState) (new_state : KazooState)
    (rest : list KazooState) : bool :=
  bool_decide (new_state = CONNECTED) && negb (bool_decide (rest = []))
  || bool_decide (seen new_state = old_state).

Lemma dispatch_never_raises new_state : raises_only never (dispatch new_state).
Proof.
  destruct new_state; simpl;
    auto using state_connected_never_raises, state_suspended_never_raises,
      state_lost_never_raises.
Qed.

Lemma dispatch_keeps_state_events new_state :
  keeps Zookeeper._state_events (dispatch new_state).
Proof.
  destruct new_state; simpl.
  - by apply keeps_state_connected.
  - by apply keeps_state_suspended.
  - by apply keeps_state_lost.
Qed.

Lemma state_handler_iter_run old_state zk :
  Zookeeper._state_handler_iter old_state zk =
  match Zookeeper._state_events zk with
  | [] => (Diverge, zk)
  | new_state :: rest =>
      let zk0 := Zookeeper.with_state_events rest zk in
      if dropped old_state new_state rest then (Ok old_state, zk0)
      else (Ok (seen new_state), (dispatch new_state zk0).2)
  end.
Proof.
  unfold Zookeeper._state_handler_iter, dropped.
  unfold bind at 1, get_state.
  destruct (Zookeeper._state_events zk) as [|new_state rest]; [done|].
  unfold bind at 1, modify. cbv zeta.
  destruct (bool_decide (new_state = CONNECTED) && negb (bool_decide (rest = [])));
    [done|].
  destruct (bool_decide (seen new_state = old_state)); [done|]. simpl.
  pose proof (dispatch_never_raises new_state
                (Zookeeper.with_state_events rest zk)) as Hok.
  unfold bind, ret. fold (dispatch new_state).
  by destruct (dispatch new_state (Zookeeper.with_state_events rest zk))
    as [[[]|e|] zk1].
Qed.

Lemma perform_worker old_state zk :
  perform (old_state, zk) WorkerIterates =
  match Zookeeper._state_events zk with
  | [] => (old_state, zk)
  | new_state :: rest =>
      let zk0 := Zookeeper.with_state_events rest zk in
      if dropped old_state new_state rest then (old_state, zk0)
      else (seen new_state, (dispatch new_state zk0).2)
  end.
Proof.
  simpl. rewrite state_handler_iter_run.
  destruct (Zookeeper._state_events zk) as [|new_state rest]; [done|].
  cbv zeta. by destruct (dropped old_state new_state rest).
Qed.

Lemma perform_worker_events st :
  Zookeeper._state_events (perform st WorkerIterates).2 =
  tail (Zookeeper._state_events st.2).
Proof.
  destruct st as [old_state zk]. rewrite perform_worker. simpl.
  destruct (Zookeeper._state_events zk) as [|new_state rest] eqn:Hq; simpl.
  - by rewrite Hq.
  - destruct (dropped old_state new_state rest); simpl; [done|].
    by rewrite <- (dispatch_keeps_state_events new_state).
Qed.

Lemma run_cons a trace st : run (a :: trace) st = run trace (perform st a).
Proof. done. Qed.

(** The loop of the worker follows the iterations one by one. *)
Lemma state_handler_run fuel old_state zk :
  (length (Zookeeper._state_events zk) < fuel)%nat ->
  Zookeeper._state_handler fuel old_state zk =
  (Diverge,
   (run (replicate (length (Zookeeper._state_events zk)) WorkerIterates)
      (old_state, zk)).2).
Proof.
  revert old_state zk. induction fuel as [|fuel IH]; intros old_state zk Hfuel; [lia|].
  simpl. unfold bind.
  pose proof (perform_worker_events (old_state, zk)) as Hpop.
  rewrite perform_worker in Hpop. rewrite state_handler_iter_run.
  destruct (Zookeeper._state_events zk) as [|new_state rest] eqn:Hq; [done|].
  simpl replicate. rewrite run_cons, perform_worker, Hq. cbv zeta in *. simpl in Hfuel, Hpop.
  destruct (dropped old_state new_state rest); simpl in Hpop.
  - rewrite IH by (simpl; lia). done.
  - assert (Zookeeper._state_events
              (dispatch new_state (Zookeeper.with_state_events rest zk)).2 = rest)
      as Hrest by (by rewrite <- (dispatch_keeps_state_events new_state)).
    rewrite IH by (rewrite Hrest; lia). by rewrite Hrest.
Qed.


(** The connected flag agrees with the worker: when the flag is set, the
    state the worker saw last is CONNECTED. *)
Definition worker_consistent (st : WorkerState * Zookeeper.t) : Prop :=
  Zookeeper._connected st.2 = true -> st.1 = seen CONNECTED.

(** The calls that wait for a connection.  In the environment here a thread
    that waits sees the worker set the flag, so these calls stand in for
    the worker. *)
Definition waits (c : ApiCall) : bool :=
  match c with
  | call_wait_connected _ _ | call_get_lock _ _ _ | call_retry _ _ _ _ _ => true
  | _ => false
  end.

Definition without_waiting (a : Activity) : bool :=
  match a with
  | Called c => negb (waits c)
  | _ => true
  end.

Lemma disconnect_clears_flag new_state zk :
  new_state ≠ CONNECTED ->
  Zookeeper._connected (dispatch new_state zk).2 = false.
Proof.
  destruct new_state; [done| |]; intros _; simpl;
    unfold Zookeeper._state_suspended, Zookeeper._state_lost, Zookeeper.call_hook;
    autounfold with unf_m; simpl;
    by destruct (Zookeeper._on_disconnect zk).
Qed.

Lemma api_keeps_connected c :
  waits c = false -> keeps Zookeeper._connected (api c).
Proof.
  destruct c; try done; intros _; simpl.
  - by apply keeps_ensure_path.
  - keeps_auto. by apply keeps_party_setup.
  - by apply keeps_release_lock.
  - keeps_auto. by apply keeps_have_lock.
Qed.

Lemma perform_consistent st a :
  without_waiting a = true -> worker_consistent st -> worker_consistent (perform st a).
Proof.
  destruct st as [old_state zk]. unfold worker_consistent.
  destruct a as [new_state| |c]; intros Hquiet Hst.
  - done.
  - rewrite perform_worker.
    destruct (Zookeeper._state_events zk) as [|new_state rest]; [done|].
    cbv zeta. destruct (dropped old_state new_state rest); [done|]. simpl.
    destruct (decide (new_state = CONNECTED)) as [->|Hne]; [done|].
    by rewrite disconnect_clears_flag.
  - simpl in *. apply negb_true_iff in Hquiet.
    by rewrite <- (api_keeps_connected c Hquiet zk).
Qed.

(** X2.  The connected flag never runs ahead of the worker.  Through
    notifications, iterations of the worker and calls that do not wait for a
    connection, the flag is set only while the last state the worker acted
    on is CONNECTED: once SUSPENDED or LOST has been dispatched,
    [is_connected] is false until the worker dispatches CONNECTED again. *)
Theorem connected_flag_follows_worker (trace : list Activity)
    (st : WorkerState * Zookeeper.t) :
  forallb without_waiting trace = true ->
  worker_consistent st ->
  worker_consistent (run trace st).
Proof.
  revert st. induction trace as [|a trace IH]; intros st Hquiet Hst; [done|].
  simpl in Hquiet. apply andb_true_iff in Hquiet as [Ha Htrace].
  rewrite run_cons. apply IH; [done|]. by apply perform_consistent.
Qed.

Lemma run_worker_events n st :
  Zookeeper._state_events (run (replicate n WorkerIterates) st).2 =
  drop n (Zookeeper._state_events st.2).
Proof.
  revert st. induction n as [|n IH]; intros st; [by rewrite drop_0|].
  simpl replicate. rewrite run_cons, IH, perform_worker_events.
  destruct (Zookeeper._state_events st.2); simpl; [by rewrite drop_nil|done].
Qed.

Lemma forallb_replicate_worker n :
  forallb without_waiting (replicate n WorkerIterates) = true.
Proof. induction n; simpl; auto. Qed.

(** X3.  The last queued state decides.  When the queue ends with SUSPENDED
    or LOST, the client is disconnected once the worker has worked through
    the queue, whatever flapping came before and whether or not the worker
    dropped that last state as a repetition. *)
Theorem worker_ends_disconnected (old_state : WorkerState) (zk : Zookeeper.t)
    (earlier : list KazooState) (last_state : KazooState) :
  worker_consistent (old_state, zk) ->
  Zookeeper._state_events zk = earlier ++ [last_state] ->
  last_state ≠ CONNECTED ->
  ∃ zk',
    Zookeeper._state_handler (S (length (earlier ++ [last_state]))) old_state zk =
      (Diverge, zk') ∧
    Zookeeper._state_events zk' = [] ∧
    Zookeeper._connected zk' = false.
Proof.
  intros Hst Hq Hlast.
  rewrite state_handler_run by (rewrite Hq; lia). rewrite Hq.
  eexists. split; [reflexivity|].
  split; [rewrite run_worker_events; simpl; rewrite Hq; apply drop_all|].
  rewrite length_app. simpl length.
  rewrite replicate_add. unfold run. rewrite foldl_app.
  fold (run (replicate (length earlier) WorkerIterates) (old_state, zk)).
  set (st1 := run (replicate (length earlier) WorkerIterates) (old_state, zk)).
  assert (worker_consistent st1) as Hst1
    by (apply connected_flag_follows_worker;
        [apply forallb_replicate_worker|done]).
  assert (Zookeeper._state_events st1.2 = [last_state]) as Hq1.
  { subst st1. rewrite run_worker_events. simpl. rewrite Hq.
    by rewrite drop_app_length. }
  destruct st1 as [old1 zk1]. simpl in *. fold (perform (old1, zk1) WorkerIterates).
  rewrite perform_worker, Hq1. cbv zeta.
  destruct (dropped old1 last_state []) eqn:Hdrop; simpl.
  - unfold dropped in Hdrop. simpl in Hdrop.
    rewrite andb_false_r in Hdrop. simpl in Hdrop.
    apply bool_decide_eq_true in Hdrop.
    destruct (Zookeeper._connected zk1) eqn:Hc; [|done].
    specialize (Hst1 Hc). simpl in Hst1. congruence.
  - by apply disconnect_clears_flag.
Qed.

Global Instance Hook_eq_dec : EqDecision Hook.
Proof. solve_decision. Defined.

(** The hook a dispatch calls, if one was supplied. *)
Definition hook_of (new_state : KazooState) : Hook :=
  match new_state with
  | CONNECTED => on_connect
  | _ => on_disconnect
  end.

Lemma dispatch_hook_calls new_state zk :
  Zookeeper.hook_calls (dispatch new_state zk).2 = Zookeeper.hook_calls zk ∨
  Zookeeper.hook_calls (dispatch new_state zk).2 =
    Zookeeper.hook_calls zk ++ [hook_of new_state].
Proof.
  destruct new_state; simpl.
  - assert (keeps Zookeeper.hook_calls Zookeeper.reconnect_setup) as Hkeep
      by (by apply keeps_reconnect_setup).
    specialize (Hkeep zk).
    unfold Zookeeper._state_connected, Zookeeper.call_hook, bind, try_, ret,
      modify, get_state.
    destruct (Zookeeper.reconnect_setup zk) as [[[]|e|] zk1]; simpl in *.
    + rewrite Hkeep. destruct (Zookeeper._on_connect zk1); simpl; auto.
    + rewrite Hkeep. destruct e; simpl; auto.
    + auto.
  - unfold Zookeeper._state_suspended, Zookeeper.call_hook. autounfold with unf_m.
    simpl. destruct (Zookeeper._on_disconnect zk); simpl; auto.
  - unfold Zookeeper._state_lost, Zookeeper.call_hook. autounfold with unf_m.
    simpl. destruct (Zookeeper._on_disconnect zk); simpl; auto.
Qed.

Definition connect_calls (hooks : list Hook) : nat :=
  length (List.filter (fun h => bool_decide (h = on_connect)) hooks).

Lemma drain_hook_calls queue :
  ∀ old_state zk,
    Zookeeper._state_events zk = queue ->
    ∃ hooks,
      Zookeeper.hook_calls
        (run (replicate (length queue) WorkerIterates) (old_state, zk)).2 =
      Zookeeper.hook_calls zk ++ hooks ∧
      (connect_calls hooks ≤ if bool_decide (last queue = Some CONNECTED) then 1 else 0)%nat.
Proof.
  induction queue as [|new_state rest IH]; intros old_state zk Hq.
  - exists []. simpl. by rewrite app_nil_r.
  - simpl replicate. rewrite run_cons, perform_worker, Hq. cbv zeta.
    set (zk0 := Zookeeper.with_state_events rest zk).
    assert (∀ zk1, Zookeeper._state_events zk1 = rest ->
                   Zookeeper.hook_calls zk1 = Zookeeper.hook_calls zk ->
                   ∀ old1, ∃ hooks,
                     Zookeeper.hook_calls
                       (run (replicate (length rest) WorkerIterates) (old1, zk1)).2 =
                     Zookeeper.hook_calls zk ++ hooks ∧
                     (connect_calls hooks ≤
                      if bool_decide (last (new_state :: rest) = Some CONNECTED)
                      then 1 else 0)%nat) as Hsame.
    { intros zk1 Hq1 Hh1 old1. destruct (IH old1 zk1 Hq1) as (hooks & Hrun & Hcount).
      exists hooks. rewrite Hrun, Hh1. split; [done|].
      destruct rest as [|s rest']; [by destruct hooks; simpl in *; lia|].
      by rewrite last_cons_cons. }
    destruct (dropped old_state new_state rest) eqn:Hdrop; [by apply Hsame|].
    assert (Zookeeper._state_events (dispatch new_state zk0).2 = rest) as Hq1
      by (by rewrite <- (dispatch_keeps_state_events new_state)).
    destruct (dispatch_hook_calls new_state zk0) as [Hh|Hh]; [by apply Hsame|].
    destruct (IH (seen new_state) _ Hq1) as (hooks & Hrun & Hcount).
    exists (hook_of new_state :: hooks).
    rewrite Hrun, Hh. simpl. rewrite <- app_assoc. split; [done|].
    destruct (decide (new_state = CONNECTED)) as [->|Hne].
    + unfold dropped in Hdrop. apply orb_false_iff in Hdrop as [Hdrop _].
      rewrite bool_decide_eq_true_2 in Hdrop by done. simpl in Hdrop.
      apply negb_false_iff, bool_decide_eq_true in Hdrop. subst zk0. subst rest.
      simpl in *. unfold connect_calls in *. simpl. lia.
    + assert (connect_calls (hook_of new_state :: hooks) = connect_calls hooks) as ->
        by (destruct new_state; [done|reflexivity|reflexivity]).
      etrans; [exact Hcount|].
      destruct rest as [|s rest'];
        [simpl; repeat case_bool_decide; simpl in *; try done; lia|].
      by rewrite last_cons_cons.
Qed.

(** X4.  Flapping is collapsed.  However many states are queued, working
    through the queue calls the on-connect hook at most once, and not at all
    unless the last queued state is CONNECTED: a CONNECTED that is followed
    by another state is never acted on. *)
Theorem on_connect_at_most_once_per_drain (old_state : WorkerState)
    (zk : Zookeeper.t) :
  ∃ zk' hooks,
    Zookeeper._state_handler (S (length (Zookeeper._state_events zk))) old_state zk =
      (Diverge, zk') ∧
    Zookeeper.hook_calls zk' = Zookeeper.hook_calls zk ++ hooks ∧
    (connect_calls hooks ≤ 1)%nat ∧
    (last (Zookeeper._state_events zk) ≠ Some CONNECTED -> connect_calls hooks = 0%nat).
Proof.
  rewrite state_handler_run by lia.
  destruct (drain_hook_calls _ old_state zk eq_refl) as (hooks & Hrun & Hcount).
  eexists _, hooks. split; [reflexivity|]. split; [exact Hrun|].
  case_bool_decide; split; try lia; done.
Qed.

(** ** Waiting for a connection *)

(** How a wait ends: it returns with the connected flag set, or it raises
    [ZkNoConnection] with the flag clear, and then the timeout is finite and
    has passed since [start]. *)
Definition wait_ended (timeout : option Q) (start : Q)
    (out : Res unit * Zookeeper.t) : Prop :=
  match out with
  | (Ok _, zk') => Zookeeper._connected zk' = true
  | (Raise e, zk') =>
      e = ZkNoConnection ∧ Zookeeper._connected zk' = false ∧
      ∃ tmo, timeout = Some tmo ∧
             (start + tmo <= Kazoo.clock (Zookeeper.kazoo zk'))%Q
  | (Diverge, _) => True
  end.

Lemma wait_connected_loop_ended fuel timeout start :
  ∀ total zk,
    wait_ended timeout start
      (Zookeeper.wait_connected_loop fuel timeout start total zk).
Proof.
  induction fuel as [|fuel IH]; intros total zk; [done|].
  destruct zk as [srv pre hc hd conn lk evs ce parties zl le w hooks].
  simpl. unfold bind at 1, Zookeeper._connected_wait.
  unfold bind at 1, get_state. simpl.
  destruct conn; [done|].
  destruct w as [nodes pending clock].
  assert (∀ waited total',
            Zookeeper._connected waited = false ->
            (total' == Kazoo.clock (Zookeeper.kazoo waited) - start)%Q ->
            wait_ended timeout start
              ((if match timeout with
                   | Some tmo => Qgeb total' tmo
                   | None => false
                   end
                then raise ZkNoConnection
                else Zookeeper.wait_connected_loop fuel timeout start total') waited))
    as Hrest.
  { intros waited total' Hconn Htotal. destruct timeout as [tmo|]; [|apply IH].
    destruct (Qgeb total' tmo) eqn:Hge; [|apply IH].
    apply Qgeb_le in Hge. simpl. split; [done|]. split; [done|].
    exists tmo. split; [done|]. lra. }
  destruct pending as [|[] rest];
    unfold bind, Zookeeper.on_kazoo, zoom, modify, ret, raise, Kazoo.get_time, gets;
    simpl; try done; apply Hrest; simpl; try done; lra.
Qed.

Lemma wait_connected_ended fuel timeout zk :
  wait_ended timeout (Kazoo.clock (Zookeeper.kazoo zk))
    (Zookeeper.wait_connected fuel timeout zk).
Proof.
  rewrite wait_connected_run.
  destruct (Zookeeper._connected zk) eqn:Hconn; [done|].
  apply wait_connected_loop_ended.
Qed.

(** X5.  [wait_connected] returns only with the connected flag set.  It
    raises nothing but [ZkNoConnection], and only when the timeout is finite
    and at least that many seconds have passed since the call; the flag is
    clear then.  With a finite timeout the wait does end, after at most
    [wait_bound] rounds of the loop.  With an already connected client the
    call returns at once and changes nothing. *)
Theorem wait_connected_outcome (fuel : nat) (timeout : option Q)
    (zk : Zookeeper.t) :
  wait_ended timeout (Kazoo.clock (Zookeeper.kazoo zk))
    (Zookeeper.wait_connected fuel timeout zk) ∧
  (∀ tmo, (Zookeeper.wait_connected (wait_bound tmo) (Some tmo) zk).1 ≠ Diverge) ∧
  (Zookeeper._connected zk = true ->
   Zookeeper.wait_connected fuel timeout zk = (Ok tt, zk)).
Proof.
  split; [apply wait_connected_ended|]. split.
  - intros tmo. by destruct (wait_connected_returns tmo zk) as [zk' [-> | ->]].
  - intros Hconn. by rewrite wait_connected_run, Hconn.
Qed.

(** ** The lock, continued *)

Lemma have_lock_run (zk : Zookeeper.t) :
  Zookeeper.have_lock zk =
  if bool_decide (lock_held zk) then (Ok true, zk)
  else (Ok false, (Zookeeper.release_lock zk).2).
Proof.
  destruct (release_lock_returns zk) as (zk1 & Hrel & _).
  destruct (decide (lock_held zk)) as [(Hc & Hl & He)|Hnot].
  - rewrite bool_decide_eq_true_2 by done.
    unfold Zookeeper.have_lock. autounfold with unf_m.
    by rewrite Hc, Hl, He, Z.eqb_refl.
  - rewrite bool_decide_eq_false_2 by done.
    assert (Zookeeper._connected zk
            && (Zookeeper._lock_epoch zk =? Zookeeper.conn_epoch zk)
            && Zookeeper._lock zk = false) as Hcond.
    { apply not_true_is_false. intros Hcond. apply Hnot.
      apply andb_true_iff in Hcond as [Hcond Hl].
      apply andb_true_iff in Hcond as [Hc He].
      apply Z.eqb_eq in He. done. }
    unfold Zookeeper.have_lock. autounfold with unf_m.
    rewrite Hcond, Hrel. done.
Qed.

(** What the answer of [have_lock] says about the client it leaves. *)
Definition lock_answer (out : Res bool * Zookeeper.t) : Prop :=
  match out with
  | (Ok held, zk') =>
      (held = true ↔ lock_held zk') ∧ (held = false -> Zookeeper._lock zk' = false)
  | (Raise e, _) => e = ZkNoConnection
  | (Diverge, _) => True
  end.

Lemma have_lock_answer zk : lock_answer (Zookeeper.have_lock zk).
Proof.
  rewrite have_lock_run. case_bool_decide as Hheld; simpl.
  - done.
  - destruct (release_lock_returns zk) as (zk1 & Hrel & Hbit & _).
    rewrite Hrel. simpl. split; [|done].
    split; [done|]. intros (_ & ? & _). congruence.
Qed.

Lemma Kazoo_acquire_outcome timeout l w :
  match (Kazoo.acquire timeout l w).1 with
  | Raise e => e = ConnectionLoss ∨ e = SessionExpiredError ∨ e = LockTimeout
  | _ => True
  end.
Proof.
  unfold Kazoo.acquire. unfold bind at 1.
  pose proof (Kazoo_request_outcome w) as Hreq.
  destruct (Kazoo.request w) as [[[]|e|] w1]; simpl in *;
    [|unfold request_error in Hreq; tauto|done].
  unfold bind, gets. simpl.
  destruct (List.filter _ _); simpl; [done|].
  destruct timeout; simpl; auto.
Qed.

Lemma lock_answer_bind {A} (m : M Zookeeper.t A) (k : A -> M Zookeeper.t bool) s :
  match (m s).1 with Raise e => e = ZkNoConnection | _ => True end ->
  (∀ a s', lock_answer (k a s')) ->
  lock_answer (bind m k s).
Proof.
  intros Hm Hk. unfold bind.
  destruct (m s) as [[a|e|] s']; simpl in *; [apply Hk|done|done].
Qed.

(** The [try] statement of [get_lock] around [Lock.acquire]. *)
Lemma acquire_block_raises lock_timeout s :
  match (try_ (zk <- get_state ;;
               match Zookeeper._zk_lock zk with
               | Some zk_lock =>
                   r <- Zookeeper.on_kazoo (Kazoo.acquire lock_timeout zk_lock) ;;
                   modify (Zookeeper.with_zk_lock (Some (snd r))) ;;;
                   if fst r then modify (Zookeeper.with_lock true) else ret tt
               | None => ret tt
               end)
              (fun e => match e with
                        | ConnectionLoss | SessionExpiredError =>
                            Some (raise ZkNoConnection)
                        | LockTimeout => Some (ret tt)
                        | _ => None
                        end) s).1 with
  | Raise e => e = ZkNoConnection
  | _ => True
  end.
Proof.
  unfold try_, bind at 1, get_state.
  destruct (Zookeeper._zk_lock s) as [zk_lock|]; [|done].
  unfold bind at 1, Zookeeper.on_kazoo, zoom.
  pose proof (Kazoo_acquire_outcome lock_timeout zk_lock (Zookeeper.kazoo s)) as Hacq.
  destruct (Kazoo.acquire lock_timeout zk_lock (Zookeeper.kazoo s))
    as [[[got l']|e|] w']; simpl in Hacq |- *.
  - by destruct got.
  - by destruct Hacq as [->|[->| ->]].
  - done.
Qed.

(** X6.  [get_lock] answers like [have_lock]: when it returns, it returns
    [True] exactly when the client it leaves holds the lock (connected,
    acquired bit set, acquired in the current connection epoch), and after
    [False] the acquired bit is clear.  It raises nothing but
    [ZkNoConnection].  A client that holds the lock gets [True] at once and
    is left as it was.  [wait_lock] after an answer of [True] returns at
    once. *)
Theorem get_lock_outcome (fuel : nat) (lock_timeout conn_timeout : option Q)
    (zk : Zookeeper.t) :
  lock_answer (Zookeeper.get_lock fuel lock_timeout conn_timeout zk) ∧
  (lock_held zk -> is_Some (Zookeeper._zk_lock zk) ->
   Zookeeper.get_lock fuel lock_timeout conn_timeout zk = (Ok true, zk)) ∧
  (∀ zk', Zookeeper.get_lock fuel lock_timeout conn_timeout zk = (Ok true, zk') ->
          wait_lock zk' = (Ok tt, zk')).
Proof.
  assert (lock_answer (Zookeeper.get_lock fuel lock_timeout conn_timeout zk)) as Hans.
  { unfold Zookeeper.get_lock. unfold bind at 1, get_state. unfold bind at 1.
    set (first_held := match Zookeeper._zk_lock zk with
                       | Some _ => Zookeeper.have_lock
                       | None => _
                       end).
    assert (match first_held zk with
            | (Ok true, zk1) => lock_held zk1
            | (Ok false, _) => True
            | _ => False
            end) as Hfirst.
    { subst first_held. destruct (Zookeeper._zk_lock zk); [|done].
      pose proof (have_lock_answer zk) as Hans.
      destruct (Zookeeper.have_lock zk) as [[[]|e|] zk1] eqn:Hhave; simpl in Hans.
      - by apply Hans.
      - done.
      - rewrite have_lock_run in Hhave. by case_bool_decide.
      - rewrite have_lock_run in Hhave. by case_bool_decide. }
    destruct (first_held zk) as [[[]|e|] zk1]; try done.
    apply lock_answer_bind.
    { pose proof (wait_connected_ended fuel conn_timeout zk1) as Hwait.
      destruct (Zookeeper.wait_connected fuel conn_timeout zk1) as [[[]|e|] zk2];
        simpl in *; try done. by destruct Hwait. }
    intros _ zk2. apply lock_answer_bind; [done|].
    intros _ zk3. apply lock_answer_bind; [apply acquire_block_raises|].
    intros _ zk4. unfold bind.
    pose proof (have_lock_answer zk4) as Hans.
    by destruct (Zookeeper.have_lock zk4) as [[[]|e|] zk5]. }
  split; [exact Hans|]. split.
  - intros Hheld [zk_lock Hobj].
    unfold Zookeeper.get_lock. unfold bind at 1, get_state. unfold bind at 1.
    rewrite Hobj, have_lock_run, bool_decide_eq_true_2 by done. done.
  - intros zk' Hget. rewrite Hget in Hans. simpl in Hans.
    destruct Hans as [Hheld _]. destruct (proj1 Hheld eq_refl) as (_ & Hbit & _).
    unfold wait_lock. autounfold with unf_m. by rewrite Hbit.
Qed.

(** X7.  Releasing twice is releasing once: after [release_lock], a second
    [release_lock] returns without contacting the store and leaves the
    client as it is.  So does [have_lock], which answers [False]. *)
Theorem release_lock_idempotent (zk : Zookeeper.t) :
  let zk' := (Zookeeper.release_lock zk).2 in
  Zookeeper.release_lock zk' = (Ok tt, zk') ∧
  Zookeeper.have_lock zk' = (Ok false, zk').
Proof.
  cbv zeta.
  assert (Zookeeper.release_lock (Zookeeper.release_lock zk).2 =
          (Ok tt, (Zookeeper.release_lock zk).2)) as Hagain.
  { destruct (release_lock_returns zk) as (zk' & Hrel & Hbit & _ & Hobj & _).
    rewrite Hrel. cbn [snd]. clear Hrel.
    destruct zk' as [srv pre hc hd conn lk evs ce parties zl le w hooks].
    simpl in *. subst lk.
    unfold Zookeeper.release_lock. autounfold with unf_m. simpl.
    destruct zl as [l'|]; [|done].
    destruct (Zookeeper._zk_lock zk) as [l|]; [|done].
    simpl in Hobj. inversion Hobj; subst l'. clear Hobj.
    unfold Zookeeper.on_kazoo, zoom, Kazoo.release. simpl.
    by destruct conn. }
  split; [exact Hagain|].
  rewrite have_lock_run, Hagain.
  destruct (release_lock_returns zk) as (zk' & Hrel & Hbit & _).
  rewrite Hrel in *. cbn [snd].
  rewrite bool_decide_eq_false_2; [done|].
  intros (_ & ? & _). congruence.
Qed.

(** ** A lock from an earlier connection epoch *)

Definition epochs (zk : Zookeeper.t) : Z * Z :=
  (Zookeeper._lock_epoch zk, Zookeeper.conn_epoch zk).

(** The lock epoch is not ahead of the connection epoch, and stays so. *)
Definition not_ahead (before after : Z * Z) : Prop :=
  before.1 ≤ before.2 -> after.1 ≤ after.2.

Global Instance not_ahead_refl : Reflexive not_ahead.
Proof. intros p Hp. exact Hp. Qed.

Global Instance not_ahead_trans : Transitive not_ahead.
Proof. intros p q r Hpq Hqr Hp. apply Hqr, Hpq, Hp. Qed.

Lemma keeps_maintains {S X A} (R : relation X) `{!Reflexive R} (proj : S -> X)
    (m : M S A) :
  keeps proj m -> maintains R proj m.
Proof. intros Hm s. by rewrite <- (Hm s). Qed.

Lemma get_lock_not_ahead fuel lock_timeout conn_timeout :
  maintains not_ahead epochs (Zookeeper.get_lock fuel lock_timeout conn_timeout).
Proof.
  assert (keeps epochs Zookeeper.have_lock) as Hhave
    by (by apply keeps_have_lock).
  assert (keeps epochs (Zookeeper.wait_connected fuel conn_timeout)) as Hwait
    by (by apply keeps_wait_connected).
  assert (∀ A (m : M Kazoo.World A), keeps epochs (Zookeeper.on_kazoo m)) as Hkazoo
    by (intros; by apply keeps_on_kazoo).
  apply (keeps_maintains not_ahead) in Hhave, Hwait.
  unfold Zookeeper.get_lock.
  repeat first
    [ keeps_step
    | apply (keeps_maintains not_ahead), Hkazoo
    | apply maintains_modify; intros s; unfold not_ahead, epochs; simpl; lia ].
Qed.

Lemma retry_loop_not_ahead {A} fuel desc (f : M Zookeeper.t A) _retries _timeout :
  maintains not_ahead epochs f ->
  ∀ count,
    maintains not_ahead epochs
      (Zookeeper.retry_loop fuel desc f _retries _timeout count).
Proof.
  intros Hf. induction fuel as [|fuel IH]; intros count; simpl; [keeps_auto|].
  assert (keeps epochs (Zookeeper.wait_connected fuel _timeout)) as Hwait
    by (by apply keeps_wait_connected).
  apply (keeps_maintains not_ahead) in Hwait.
  keeps_auto; apply IH.
Qed.

Lemma api_not_ahead c : maintains not_ahead epochs (api c).
Proof.
  induction c; simpl.
  - unfold Zookeeper.is_connected. keeps_auto.
  - apply (keeps_maintains not_ahead). by apply keeps_wait_connected.
  - apply (keeps_maintains not_ahead). by apply keeps_ensure_path.
  - keeps_auto. apply (keeps_maintains not_ahead). by apply keeps_party_setup.
  - keeps_auto. apply get_lock_not_ahead.
  - apply (keeps_maintains not_ahead). by apply keeps_release_lock.
  - keeps_auto. apply (keeps_maintains not_ahead). by apply keeps_have_lock.
  - unfold Zookeeper.retry. by apply retry_loop_not_ahead.
Qed.

Lemma perform_not_ahead st a : not_ahead (epochs st.2) (epochs (perform st a).2).
Proof.
  destruct st as [old_state zk]. destruct a as [new_state| |c]; simpl.
  - unfold not_ahead, epochs. simpl. lia.
  - assert (keeps epochs (Zookeeper._state_handler_iter old_state)) as Hkeep
      by (by apply keeps_state_handler_iter).
    specialize (Hkeep zk).
    destruct (Zookeeper._state_handler_iter old_state zk) as [[old'|e|] zk'];
      simpl in *; by rewrite Hkeep.
  - apply api_not_ahead.
Qed.

Lemma run_not_ahead trace st : not_ahead (epochs st.2) (epochs (run trace st).2).
Proof.
  revert st. induction trace as [|a trace IH]; intros st; [done|].
  rewrite run_cons. etrans; [apply perform_not_ahead|apply IH].
Qed.

(** Calls that may acquire the lock: [get_lock], also through [retry]. *)
Fixpoint acquires (c : ApiCall) : bool :=
  match c with
  | call_get_lock _ _ _ => true
  | call_retry _ _ f _ _ => acquires f
  | _ => false
  end.

Definition without_acquiring (a : Activity) : bool :=
  match a with
  | Called c => negb (acquires c)
  | _ => true
  end.

Definition stale (zk : Zookeeper.t) : Prop :=
  Zookeeper._lock_epoch zk < Zookeeper.conn_epoch zk.

Lemma api_keeps_lock_epoch c :
  acquires c = false -> keeps Zookeeper._lock_epoch (api c).
Proof.
  induction c; simpl; intros Hacq; try done.
  - by apply keeps_wait_connected.
  - by apply keeps_ensure_path.
  - keeps_auto. by apply keeps_party_setup.
  - by apply keeps_release_lock.
  - keeps_auto. by apply keeps_have_lock.
  - unfold Zookeeper.retry. apply keeps_retry_loop; try done. by apply IHc.
Qed.

Lemma perform_stale st a :
  without_acquiring a = true -> stale st.2 -> stale (perform st a).2.
Proof.
  intros Ha. unfold stale.
  pose proof (perform_conn_epoch st a) as Hepoch.
  assert (Zookeeper._lock_epoch (perform st a).2 = Zookeeper._lock_epoch st.2) as Hlock.
  { destruct st as [old_state zk]. destruct a as [new_state| |c]; simpl.
    - done.
    - assert (keeps Zookeeper._lock_epoch (Zookeeper._state_handler_iter old_state))
        as Hkeep by (by apply keeps_state_handler_iter).
      specialize (Hkeep zk).
      by destruct (Zookeeper._state_handler_iter old_state zk) as [[old'|e|] zk'].
    - symmetry. apply api_keeps_lock_epoch. simpl in Ha. by destruct (acquires c). }
  rewrite Hepoch, Hlock. destruct (is_notification a); lia.
Qed.

Lemma run_stale trace st :
  forallb without_acquiring trace = true -> stale st.2 -> stale (run trace st).2.
Proof.
  revert st. induction trace as [|a trace IH]; intros st Htrace Hstale; [done|].
  simpl in Htrace. apply andb_true_iff in Htrace as [Ha Htrace].
  rewrite run_cons. apply IH; [done|]. by apply perform_stale.
Qed.

(** X8.  A lock is lost with the connection state it was acquired in.
    Take a client from its construction through any interleaving of
    notifications, worker iterations and calls.  The epoch recorded at the
    last acquisition is never ahead of the connection epoch.  Once Kazoo has
    notified a state change, and until [get_lock] is called again, the client
    does not hold the lock: [have_lock] answers [False] and leaves the
    acquired bit clear, whatever the worker and the other calls do in
    between. *)
Theorem lost_lock_is_not_regained (isd_as srv_type srv_id : string)
    (on_connect_ on_disconnect_ : bool) (w : Kazoo.World)
    (before after : list Activity) (new_state : KazooState) :
  forallb without_acquiring after = true ->
  let fresh := (startup, Zookeeper.init isd_as srv_type srv_id
                           on_connect_ on_disconnect_ w) in
  let earlier := (run before fresh).2 in
  let zk := (run (before ++ Notified new_state :: after) fresh).2 in
  Zookeeper._lock_epoch earlier ≤ Zookeeper.conn_epoch earlier ∧
  ¬ lock_held zk ∧
  ∃ zk', Zookeeper.have_lock zk = (Ok false, zk') ∧ Zookeeper._lock zk' = false.
Proof.
  intros Hafter fresh earlier zk.
  assert (Zookeeper._lock_epoch earlier ≤ Zookeeper.conn_epoch earlier) as Hle.
  { apply (run_not_ahead before fresh). simpl. lia. }
  assert (stale zk) as Hstale.
  { subst zk. unfold run. rewrite foldl_app. fold (run before fresh).
    change (foldl perform (run before fresh) (Notified new_state :: after))
      with (run (Notified new_state :: after) (run before fresh)).
    rewrite run_cons. apply run_stale; [done|].
    unfold stale. rewrite perform_conn_epoch. subst earlier.
    destruct (run before fresh) as [old_state zk0]. simpl in *. lia. }
  assert (¬ lock_held zk) as Hnot.
  { intros (_ & _ & Heq). unfold stale in Hstale. lia. }
  split; [done|]. split; [done|].
  rewrite have_lock_run, bool_decide_eq_false_2 by done.
  destruct (release_lock_returns zk) as (zk' & Hrel & Hbit & _).
  exists zk'. by rewrite Hrel.
Qed.

(** ** What [retry] lets through *)

(** X9.  [retry] calls [f] only on a connected client, and swallows nothing
    but [ZkNoConnection].  A result it returns is the result of a call of
    [f] on a connected client, which left the client as [retry] leaves it.
    An exception it raises is [ZkRetryLimit] for its own description and
    budget, which needs a finite budget, or an exception other than
    [ZkNoConnection] that such a call of [f] raised.  So [retry] itself never
    raises [ZkNoConnection], and without a budget it never gives up. *)
Theorem retry_outcome {A} (fuel : nat) (desc : string) (f : M Zookeeper.t A)
    (_retries : option Z) (_timeout : option Q) (zk : Zookeeper.t) :
  match Zookeeper.retry fuel desc f _retries _timeout zk with
  | (Ok a, zk') =>
      ∃ zk1, Zookeeper._connected zk1 = true ∧ f zk1 = (Ok a, zk')
  | (Raise e, zk') =>
      e ≠ ZkNoConnection ∧
      ((∃ r, _retries = Some r ∧ e = ZkRetryLimit desc (1 + r)) ∨
       (∃ zk1, Zookeeper._connected zk1 = true ∧ f zk1 = (Raise e, zk')))
  | (Diverge, _) => True
  end.
Proof.
  unfold Zookeeper.retry. generalize (-1). revert zk.
  induction fuel as [|fuel IH]; intros zk count; [done|].
  simpl.
  assert (match
            (connected <- try_ (Zookeeper.wait_connected fuel _timeout ;;; ret true)
                               (fun e => match e with
                                         | ZkNoConnection => Some (ret false)
                                         | _ => None
                                         end) ;;
             if connected : bool then
               try_ f
                    (fun e => match e with
                              | ZkNoConnection =>
                                  Some (Zookeeper.retry_loop fuel desc f _retries
                                          _timeout (count + 1))
                              | _ => None
                              end)
             else Zookeeper.retry_loop fuel desc f _retries _timeout (count + 1)) zk
          with
          | (Ok a, zk') =>
              ∃ zk1, Zookeeper._connected zk1 = true ∧ f zk1 = (Ok a, zk')
          | (Raise e, zk') =>
              e ≠ ZkNoConnection ∧
              ((∃ r, _retries = Some r ∧ e = ZkRetryLimit desc (1 + r)) ∨
               (∃ zk1, Zookeeper._connected zk1 = true ∧ f zk1 = (Raise e, zk')))
          | (Diverge, _) => True
          end) as Hattempt.
  { unfold bind at 1, try_ at 1. unfold bind at 1.
    pose proof (wait_connected_ended fuel _timeout zk) as Hwait.
    destruct (Zookeeper.wait_connected fuel _timeout zk) as [[[]|e|] zk1];
      simpl in Hwait |- *; [|destruct Hwait as [-> _]; apply IH|done].
    unfold try_. destruct (f zk1) as [[a|e|] zk2] eqn:Hcall; [by exists zk1| |done].
    destruct (decide (e = ZkNoConnection)) as [->|Hne]; [apply IH|].
    assert ((Raise e, zk2) =
            match (match e with
                   | ZkNoConnection =>
                       Some (Zookeeper.retry_loop fuel desc f _retries _timeout (count + 1))
                   | _ => None
                   end) with
            | Some handler => handler zk2
            | None => (Raise e, zk2)
            end) as <- by (by destruct e).
    split; [done|]. right. by exists zk1. }
  destruct _retries as [r|]; [|exact Hattempt].
  destruct (r <? count + 1); [|exact Hattempt].
  simpl. split; [done|]. left. by exists r.
Qed.

(** ** Parties *)

Lemma ZkParty_init_outcome path id_ autojoin_ w :
  match ZkParty.init path id_ autojoin_ w with
  | (Ok party, _) =>
      party = {| ZkParty._autojoin := autojoin_; ZkParty._path := path;
                 ZkParty._party := {| Kazoo.party_path := path;
                                      Kazoo.party_id := id_ |} |}
  | (Raise e, _) => e = ZkNoConnection
  | (Diverge, _) => False
  end.
Proof.
  unfold ZkParty.init. unfold bind at 1, try_ at 1, ret at 1. unfold bind.
  set (party := {| ZkParty._autojoin := autojoin_ |}).
  pose proof (ZkParty_autojoin_raises party w) as Hjoin.
  by destruct (ZkParty.autojoin party w) as [[[]|e|] w'].
Qed.

(** X10.  [party_setup] without a connection raises [ZkNoConnection] before
    anything is touched.  With one, it returns the party for
    [<prefix>/party], the client's own prefix unless one is given, with this
    client's id and the [autojoin] asked for, and registers it under that
    path for the reconnect handling; or it raises [ZkNoConnection], the only
    exception it raises, and then no party is registered. *)
Theorem party_setup_outcome (prefix_ : option string) (autojoin : bool)
    (zk : Zookeeper.t) :
  let party_path := os_path_join (default (Zookeeper.prefix zk) prefix_) "party" in
  match Zookeeper.party_setup prefix_ autojoin zk with
  | (Ok party, zk') =>
      Zookeeper._connected zk = true ∧
      party = {| ZkParty._autojoin := autojoin; ZkParty._path := party_path;
                 ZkParty._party := {| Kazoo.party_path := party_path;
                                      Kazoo.party_id := Zookeeper._srv_id zk |} |} ∧
      Zookeeper._parties zk' = <[party_path := party]> (Zookeeper._parties zk)
  | (Raise e, zk') =>
      e = ZkNoConnection ∧ Zookeeper._parties zk' = Zookeeper._parties zk ∧
      (Zookeeper._connected zk = false -> zk' = zk)
  | (Diverge, _) => False
  end.
Proof.
  cbv zeta. unfold Zookeeper.party_setup, Zookeeper.is_connected.
  unfold bind at 1, gets.
  destruct (Zookeeper._connected zk) eqn:Hconn; simpl; [|done].
  unfold bind at 1, get_state. unfold bind at 1.
  change (match prefix_ with Some p => p | None => Zookeeper.prefix zk end)
    with (default (Zookeeper.prefix zk) prefix_).
  set (party_path := os_path_join _ "party").
  pose proof (ensure_path_raises party_path true zk) as Hensure.
  assert (keeps (fun zk => (Zookeeper._parties zk, Zookeeper._srv_id zk))
            (Zookeeper.ensure_path party_path true)) as Hkeep
    by (by apply keeps_ensure_path).
  specialize (Hkeep zk).
  destruct (Zookeeper.ensure_path party_path true zk) as [[[]|e|] zk1];
    simpl in Hensure, Hkeep; [|by inversion Hkeep|done].
  inversion Hkeep as [[Hparties Hid]].
  unfold bind at 1, Zookeeper.on_kazoo, zoom.
  pose proof (ZkParty_init_outcome party_path (Zookeeper._srv_id zk) autojoin
                (Zookeeper.kazoo zk1)) as Hinit.
  destruct (ZkParty.init party_path (Zookeeper._srv_id zk) autojoin
              (Zookeeper.kazoo zk1)) as [[party|e|] w']; simpl.
  - split; [done|]. split; [done|]. by rewrite Hparties.
  - split; [done|]. split; [by rewrite Hparties|done].
  - done.
Qed.

(** ** The lock holder *)

Fixpoint count_char (c : Ascii.ascii) (s : string) : nat :=
  match s with
  | EmptyString => 0
  | String c' rest => (if Ascii.eqb c' c then 1 else 0) + count_char c rest
  end.

Lemma py_split_length c s : length (py_split c s) = S (count_char c s).
Proof.
  induction s as [|c' rest IH]; [done|]. simpl.
  destruct (py_split c rest) as [|field fields]; [done|].
  destruct (Ascii.eqb c' c); simpl in *; lia.
Qed.

Lemma py_split_fields c s : Forall (fun field => count_char c field = 0%nat) (py_split c s).
Proof.
  induction s as [|c' rest IH]; [by repeat constructor|]. simpl.
  pose proof (py_split_length c rest) as Hlen.
  destruct (py_split c rest) as [|field fields]; [done|].
  inversion IH as [|? ? Hfield Hfields]; subst.
  destruct (Ascii.eqb c' c) eqn:Heq.
  - by repeat constructor.
  - constructor; [|done]. simpl. by rewrite Heq.
Qed.

Lemma py_split_join c s : String.concat (String c "") (py_split c s) = s.
Proof.
  induction s as [|c' rest IH]; [done|]. simpl.
  pose proof (py_split_length c rest) as Hlen.
  destruct (py_split c rest) as [|field fields]; [done|].
  destruct (Ascii.eqb_spec c' c) as [->|Hne].
  - change (String.concat (String c "") ("" :: field :: fields))
      with (String c (String.concat (String c "") (field :: fields))).
    by rewrite IH.
  - assert (String.concat (String c "") (String c' field :: fields) =
            String c' (String.concat (String c "") (field :: fields))) as ->
      by (by destruct fields).
    by rewrite IH.
Qed.

Lemma py_split_field c field :
  count_char c field = 0%nat -> py_split c field = [field].
Proof.
  induction field as [|c' rest IH]; [done|]. simpl.
  destruct (Ascii.eqb c' c); [done|]. intros Hrest. by rewrite IH.
Qed.

Lemma py_split_app c field rest :
  count_char c field = 0%nat ->
  py_split c (String.append field (String c rest)) = field :: py_split c rest.
Proof.
  pose proof (py_split_length c rest) as Hlen.
  induction field as [|c' field IH]; simpl.
  - intros _. rewrite Ascii.eqb_refl.
    by destruct (py_split c rest).
  - destruct (Ascii.eqb c' c); [done|]. intros Hfield. by rewrite IH.
Qed.

(** [str.split] on one character undoes joining with it, and the other way
    round: splitting yields one field more than there are separators, no
    field contains the separator, and joining the fields gives the string
    back; fields without the separator, joined, split into themselves. *)
Lemma py_split_round_trip (c : Ascii.ascii) :
  (∀ s, length (py_split c s) = S (count_char c s) ∧
        Forall (fun field => count_char c field = 0%nat) (py_split c s) ∧
        String.concat (String c "") (py_split c s) = s) ∧
  (∀ field fields,
     Forall (fun field => count_char c field = 0%nat) (field :: fields) ->
     py_split c (String.concat (String c "") (field :: fields)) = field :: fields).
Proof.
  split.
  - intros s. auto using py_split_length, py_split_fields, py_split_join.
  - intros field fields. revert field.
    induction fields as [|field' fields IH]; intros field Hfields.
    + inversion Hfields; subst. by apply py_split_field.
    + inversion Hfields as [|? ? Hfield Hrest]; subst.
      change (String.concat (String c "") (field :: field' :: fields))
        with (String.append field
                (String c (String.concat (String c "") (field' :: fields)))).
      rewrite py_split_app by done. by rewrite IH.
Qed.

Lemma lock_contenders_raises l : raises_only request_error (lock_contenders l).
Proof. unfold lock_contenders. raises_auto. Qed.

(** X11.  [get_lock_holder].  Without a lock object it returns [None] and
    contacts nothing; with no contender queued it returns [None].  Otherwise
    the answer comes from the first contender alone: when that has exactly
    two NUL bytes, the text after the second, and when it has any other
    number, the unpacking fails with a [ValueError], which the method does
    not catch.  A lost connection surfaces as [ZkNoConnection]; nothing else
    is raised. *)
Theorem get_lock_holder_outcome (zk : Zookeeper.t) :
  match Zookeeper._zk_lock zk with
  | None => get_lock_holder zk = (holder None, zk)
  | Some zk_lock =>
      match Zookeeper.on_kazoo (lock_contenders zk_lock) zk with
      | (Ok [], zk') => get_lock_holder zk = (holder None, zk')
      | (Ok (first :: _), zk') =>
          if bool_decide (count_char NUL first = 2%nat) then
            ∃ a b server_addr,
              first = String.concat (String NUL "") [a; b; server_addr] ∧
              count_char NUL server_addr = 0%nat ∧
              get_lock_holder zk = (holder (Some server_addr), zk')
          else
            get_lock_holder zk = (holder_ValueError (py_split NUL first), zk')
      | (Raise e, zk') =>
          get_lock_holder zk = (holder_raises ZkNoConnection, zk')
      | (Diverge, _) => False
      end
  end.
Proof.
  unfold get_lock_holder.
  destruct (Zookeeper._zk_lock zk) as [zk_lock|]; [|done].
  pose proof (raises_only_zoom request_error Zookeeper.kazoo Zookeeper.with_kazoo _
                (lock_contenders_raises zk_lock) zk) as Hreq.
  fold (Zookeeper.on_kazoo (lock_contenders zk_lock)) in Hreq.
  destruct (Zookeeper.on_kazoo (lock_contenders zk_lock) zk)
    as [[[|first rest]|e|] zk']; simpl in Hreq; try done.
  - pose proof (py_split_length NUL first) as Hlen.
    pose proof (py_split_fields NUL first) as Hfields.
    pose proof (py_split_join NUL first) as Hjoin.
    case_bool_decide as Hcount.
    + rewrite Hcount in Hlen.
      destruct (py_split NUL first) as [|a [|b [|server_addr [|]]]]; try done.
      exists a, b, server_addr. split; [done|]. split; [|done].
      inversion Hfields as [|? ? _ Hfields']; subst.
      inversion Hfields' as [|? ? _ Hfields'']; subst.
      by inversion Hfields''.
    + destruct (py_split NUL first) as [|a [|b [|server_addr [|]]]]; try done.
      simpl in Hlen. lia.
  - by destruct Hreq as [-> | ->].
Qed.

(** ** The shared cache: exceptions and batches *)

(** The two exceptions of the module that the cache lets out. *)
Definition zk_errors (e : PyExc) : Prop := e = ZkNoConnection ∨ e = ZkNoNodeError.

Lemma cache_on_kazoo_raises {A} P (m : M Kazoo.World A) :
  raises_only P m -> raises_only P (ZkSharedCache.on_kazoo m).
Proof.
  intros Hm. unfold ZkSharedCache.on_kazoo, ZkSharedCache.on_zk, Zookeeper.on_kazoo.
  by do 2 apply raises_only_zoom.
Qed.

Lemma get_time_raises P : raises_only P (ZkSharedCache.on_kazoo Kazoo.get_time).
Proof. apply cache_on_kazoo_raises. unfold Kazoo.get_time. raises_auto. Qed.

Lemma get_raises name : raises_only zk_errors (ZkSharedCache._get name).
Proof.
  unfold ZkSharedCache._get.
  apply raises_only_bind; [raises_auto|]. intros c.
  apply raises_only_bind.
  - eapply raises_only_try; [apply cache_on_kazoo_raises, Kazoo_get_raises|].
    unfold zk_errors.
    intros e [[-> | ->] | ->]; simpl; raises_auto; apply raises_only_raise; auto.
  - intros data. apply raises_only_bind; [apply get_time_raises|].
    intros now. raises_auto.
Qed.

Lemma record_incoming_raises P name :
  raises_only P (ZkSharedCache.record_incoming name).
Proof.
  unfold ZkSharedCache.record_incoming.
  apply raises_only_bind; [apply get_time_raises|]. intros now. raises_auto.
Qed.

Lemma store_raises name value :
  raises_only no_connection_only (ZkSharedCache.store name value).
Proof.
  unfold ZkSharedCache.store, ZkSharedCache.on_zk at 1, Zookeeper.is_connected.
  apply raises_only_bind; [raises_auto|]. intros conn.
  destruct (negb conn); [raises_auto|].
  apply raises_only_bind; [raises_auto|]. intros c.
  apply raises_only_bind.
  - apply (raises_only_try _ node_absent).
    + apply raises_only_bind; [apply cache_on_kazoo_raises, Kazoo_set_raises|].
      intros _. apply raises_only_bind; [apply record_incoming_raises|].
      intros _. raises_auto.
    + intros e [[-> | ->] | ->]; simpl; raises_auto.
  - intros [|]; [raises_auto|].
    apply (raises_only_try _ node_exists).
    + apply raises_only_bind; [apply cache_on_kazoo_raises, Kazoo_create_raises|].
      intros _. apply record_incoming_raises.
    + intros e [[-> | ->] | ->]; simpl; raises_auto.
Qed.

Lemma list_entries_raises :
  raises_only no_connection_only ZkSharedCache._list_entries.
Proof.
  unfold ZkSharedCache._list_entries.
  apply raises_only_bind; [raises_auto|]. intros c.
  apply (raises_only_try _ node_absent).
  - apply raises_only_bind; [apply cache_on_kazoo_raises, Kazoo_get_children_raises|].
    intros children. raises_auto.
  - intros e [[-> | ->] | ->]; simpl; raises_auto.
Qed.

Lemma fetch_entries_raises names :
  ∀ data, raises_only never (ZkSharedCache.fetch_entries names data).
Proof.
  induction names as [|name rest IH]; intros data; simpl; [raises_auto|].
  apply raises_only_bind.
  - apply (raises_only_try _ zk_errors).
    + apply raises_only_bind; [apply get_raises|]. intros d. raises_auto.
    + intros e [-> | ->]; simpl; raises_auto.
  - intros [data'|]; [apply IH|raises_auto].
Qed.

Definition batch_state (c : ZkSharedCache.t) : list (list bytes) * list (string * Q) :=
  (ZkSharedCache.handled c, ZkSharedCache._incoming_entries c).

Lemma get_keeps_batch_state name : keeps batch_state (ZkSharedCache._get name).
Proof.
  unfold ZkSharedCache._get, ZkSharedCache.on_kazoo, ZkSharedCache.on_zk.
  keeps_auto.
Qed.

(** The fetch loop always hands back a batch: what it was given, then at
    most one payload per name. *)
Lemma fetch_entries_returns names :
  ∀ data c, ∃ more c',
    ZkSharedCache.fetch_entries names data c = (Ok (data ++ more), c') ∧
    (length more ≤ length names)%nat ∧
    batch_state c' = batch_state c.
Proof.
  induction names as [|name rest IH]; intros data c; simpl.
  - exists [], c. by rewrite app_nil_r.
  - pose proof (get_raises name c) as Hraise.
    pose proof (get_keeps_batch_state name c) as Hkeep.
    unfold bind, try_, ret.
    destruct (ZkSharedCache._get name c) as [[d|e|] c1]; simpl in *; [| |done].
    + destruct (IH (data ++ [d]) c1) as (more & c' & -> & Hlen & Hstate).
      exists (d :: more), c'. rewrite <- app_assoc. simpl.
      split; [done|]. split; [simpl; lia|congruence].
    + destruct Hraise as [-> | ->]; simpl.
      * exists [], c1. rewrite app_nil_r. split; [done|]. split; [simpl; lia|done].
      * destruct (IH data c1) as (more & c' & -> & Hlen & Hstate).
        exists more, c'. split; [done|]. split; [simpl; lia|congruence].
Qed.

(** X12.  [_handle_entries] always returns, whatever happens to the
    connection and to the nodes while it fetches.  It calls the handler
    exactly once, with the payloads it could fetch, at most one per name, and
    returns their number; it leaves the FIFO alone.  A name whose node has
    vanished is skipped, and a lost connection ends the batch early: neither
    is reported to the caller.  (The handler is taken to return.) *)
Theorem handle_entries_hands_one_batch (entry_names : gset string)
    (c : ZkSharedCache.t) :
  ∃ data c',
    ZkSharedCache._handle_entries entry_names c = (Ok (length data), c') ∧
    ZkSharedCache.handled c' = ZkSharedCache.handled c ++ [data] ∧
    (length data ≤ size entry_names)%nat ∧
    ZkSharedCache._incoming_entries c' = ZkSharedCache._incoming_entries c.
Proof.
  destruct (fetch_entries_returns (elements entry_names) [] c)
    as (data & c1 & Hfetch & Hlen & Hstate).
  inversion Hstate as [[Hhandled Hincoming]].
  exists data, (ZkSharedCache.with_handled (ZkSharedCache.handled c1 ++ [data]) c1).
  unfold ZkSharedCache._handle_entries, ZkSharedCache._handler.
  autounfold with unf_m. rewrite Hfetch. simpl.
  split; [done|]. split; [by rewrite Hhandled|]. split; done.
Qed.

Lemma handle_entries_returns names c :
  ∃ data c',
    ZkSharedCache._handle_entries names c = (Ok (length data), c') ∧
    ZkSharedCache.handled c' = ZkSharedCache.handled c ++ [data] ∧
    ZkSharedCache._incoming_entries c' = ZkSharedCache._incoming_entries c.
Proof.
  destruct (fetch_entries_returns (elements names) [] c)
    as (data & c1 & Hfetch & Hlen & Hstate).
  inversion Hstate as [[Hhandled Hincoming]].
  exists data, (ZkSharedCache.with_handled (ZkSharedCache.handled c1 ++ [data]) c1).
  unfold ZkSharedCache._handle_entries, ZkSharedCache._handler.
  autounfold with unf_m. rewrite Hfetch. simpl.
  split; [done|]. split; [by rewrite Hhandled|done].
Qed.

Lemma list_entries_keeps_batch_state :
  keeps batch_state ZkSharedCache._list_entries.
Proof.
  unfold ZkSharedCache._list_entries, ZkSharedCache.on_kazoo, ZkSharedCache.on_zk.
  keeps_auto.
Qed.

Lemma process_run c :
  connected c = true ->
  match ZkSharedCache.process c with
  | (Ok _, c') =>
      ZkSharedCache._incoming_entries c' = [] ∧
      ∃ batch, ZkSharedCache.handled c' = ZkSharedCache.handled c ++ [batch]
  | (Raise e, c') =>
      e = ZkNoConnection ∧
      ZkSharedCache._incoming_entries c' = [] ∧
      ZkSharedCache.handled c' = ZkSharedCache.handled c
  | (Diverge, _) => False
  end.
Proof.
  intros Hconn.
  set (c_drained :=
         (ZkSharedCache.drain_incoming (ZkSharedCache._incoming_entries c) c).2).
  assert (ZkSharedCache.drain_incoming (ZkSharedCache._incoming_entries c) c =
          (Ok tt, c_drained)) as Hdrain.
  { subst c_drained. by rewrite drain_incoming_run. }
  assert (batch_state c_drained = (ZkSharedCache.handled c, [])) as Hstate.
  { subst c_drained. rewrite drain_incoming_run.
    by destruct (ZkSharedCache._incoming_entries c) eqn:Hinc; destruct c; simpl in *;
      subst. }
  unfold ZkSharedCache.process. unfold bind at 1.
  rewrite is_connected_run, Hconn. simpl.
  unfold bind at 1, get_state. unfold bind at 1. rewrite Hdrain.
  unfold bind at 1. unfold bind at 1.
  pose proof (list_entries_keeps_entries c_drained) as Hsame.
  pose proof (list_entries_keeps_batch_state c_drained) as Hbatch.
  pose proof (list_entries_raises c_drained) as Hraise.
  rewrite Hstate in Hbatch.
  destruct (ZkSharedCache._list_entries c_drained) as [[C|e|] c_listed];
    simpl in *; [|by inversion Hbatch|done].
  set (previous := dom (ZkSharedCache._entries c_drained)).
  unfold bind at 1. rewrite prune_run.
  2: apply NoDup_elements.
  2: { intros k Hk. apply elem_of_elements in Hk. rewrite <- Hsame.
       apply elem_of_dom. set_solver. }
  unfold bind at 1.
  destruct (handle_entries_returns (C ∖ previous)
              (ZkSharedCache.with_entries (pruned (elements (previous ∖ C))) c_listed))
    as (data & c' & -> & Hhandled & Hincoming).
  simpl in *. inversion Hbatch as [[Hh Hi]].
  rewrite Hincoming, Hhandled, <- Hh, <- Hi. split; [done|]. by exists data.
Qed.

Lemma expire_entries_raises now ttl items :
  ∀ count, raises_only zk_errors (ZkSharedCache.expire_entries now ttl items count).
Proof.
  induction items as [|[entry ts] rest IH]; intros count; simpl; [raises_auto|].
  destruct (Qgtb (now - ts) ttl); [|apply IH].
  apply raises_only_bind; [raises_auto|]. intros c.
  apply raises_only_bind; [|intros _; apply IH].
  apply (raises_only_try _ node_absent).
  - apply cache_on_kazoo_raises. unfold Kazoo.delete. raises_auto.
  - unfold zk_errors.
    intros e [[-> | ->] | ->]; simpl; apply raises_only_raise; auto.
Qed.

Lemma expire_disconnected ttl c :
  connected c = false -> ZkSharedCache.expire ttl c = (Raise ZkNoConnection, c).
Proof.
  intros Hconn. unfold ZkSharedCache.expire, bind.
  by rewrite is_connected_run, Hconn.
Qed.

(** X13.  The exceptions of the cache.  Every call returns or raises; none
    blocks.  [store] and [process] raise nothing but [ZkNoConnection]:
    [process] never fails on the [del] of a stale name, and what goes wrong
    while the new entries are fetched stays inside.  [expire] and [_get]
    raise nothing but [ZkNoConnection] and [ZkNoNodeError]. *)
Theorem cache_exceptions :
  (∀ name value, raises_only no_connection_only (ZkSharedCache.store name value)) ∧
  raises_only no_connection_only ZkSharedCache.process ∧
  (∀ ttl, raises_only zk_errors (ZkSharedCache.expire ttl)) ∧
  (∀ name, raises_only zk_errors (ZkSharedCache._get name)).
Proof.
  split; [apply store_raises|]. split; [|split; [|apply get_raises]].
  - intros c. destruct (connected c) eqn:Hconn.
    + pose proof (process_run c Hconn) as Hrun.
      destruct (ZkSharedCache.process c) as [[[]|e|] c']; simpl; [done| |done].
      by destruct Hrun.
    + by rewrite process_disconnected.
  - intros ttl. unfold ZkSharedCache.expire, ZkSharedCache.on_zk at 1,
      Zookeeper.is_connected.
    apply raises_only_bind; [raises_auto|]. intros conn.
    destruct (negb conn); [apply raises_only_raise; by left|].
    apply raises_only_bind; [apply get_time_raises|]. intros now.
    apply raises_only_bind; [raises_auto|]. intros c.
    apply raises_only_bind; [apply expire_entries_raises|]. intros count.
    raises_auto.
Qed.

(** X14.  [process] on a connected cache empties the FIFO, whatever
    happens afterwards.  When it returns it has called the handler exactly
    once, also when there is nothing new, in which case the batch is empty.
    When it raises, which is when the listing has no connection, the handler
    has not been called. *)
Theorem process_hands_one_batch (c : ZkSharedCache.t) :
  connected c = true ->
  match ZkSharedCache.process c with
  | (Ok _, c') =>
      ZkSharedCache._incoming_entries c' = [] ∧
      ∃ batch, ZkSharedCache.handled c' = ZkSharedCache.handled c ++ [batch]
  | (Raise e, c') =>
      e = ZkNoConnection ∧
      ZkSharedCache._incoming_entries c' = [] ∧
      ZkSharedCache.handled c' = ZkSharedCache.handled c
  | (Diverge, _) => False
  end.
Proof. apply process_run. Qed.

(** X15.  Without a connection the cache does nothing: [store], [process]
    and [expire] raise [ZkNoConnection] and leave the cache, its FIFO and
    the store as they are. *)
Theorem cache_needs_connection (c : ZkSharedCache.t) :
  connected c = false ->
  (∀ name value, ZkSharedCache.store name value c = (Raise ZkNoConnection, c)) ∧
  ZkSharedCache.process c = (Raise ZkNoConnection, c) ∧
  (∀ ttl, ZkSharedCache.expire ttl c = (Raise ZkNoConnection, c)).
Proof.
  intros Hconn.
  auto using store_disconnected, process_disconnected, expire_disconnected.
Qed.

(** ** Storing and reading back *)

(** X16.  What [store] writes, [_get] reads.  On a connected cache, with
    nothing else happening in the store meanwhile, [store(name, value)]
    returns, whether the node existed or had to be created, and pushes the
    name with the current time onto the FIFO; a [_get] of the name then
    returns [value]. *)
Theorem store_then_get (name : string) (value : bytes) (c : ZkSharedCache.t) :
  connected c = true ->
  Kazoo.pending (world c) = [] ->
  ∃ c1 c2,
    ZkSharedCache.store name value c = (Ok tt, c1) ∧
    ZkSharedCache._incoming_entries c1 =
      ZkSharedCache._incoming_entries c ++ [(name, Kazoo.clock (world c))] ∧
    Kazoo.nodes (world c1) !! full_path c name = Some value ∧
    ZkSharedCache._get name c1 = (Ok value, c2) ∧
    world c2 = world c1.
Proof.
  intros Hconn Hquiet.
  destruct c as [zk path entries incoming batches].
  destruct zk as [srv pre hc hd conn lk evs ce parties zl le w hooks].
  destruct w as [nodes pending clock].
  unfold connected, world, full_path in *. simpl in *. subst conn pending.
  unfold ZkSharedCache.store, ZkSharedCache._get. cache_unfold.
  unfold Kazoo.set, Kazoo.create, Kazoo.get, Kazoo.request.
  autounfold with unf_m. simpl.
  destruct (nodes !! os_path_join path name) as [old|] eqn:Hnode; simpl.
  - eexists _, _. split; [reflexivity|]. simpl.
    split; [reflexivity|]. split; [apply lookup_insert_eq|].
    rewrite lookup_insert_eq. simpl. split; reflexivity.
  - rewrite Hnode. simpl.
    eexists _, _. split; [reflexivity|]. simpl.
    split; [reflexivity|]. split; [apply lookup_insert_eq|].
    rewrite lookup_insert_eq. simpl. split; reflexivity.
Qed.

(** ** Kazoo's connection errors are translated *)

Lemma ZkParty_init_raises path id_ autojoin_ :
  raises_only no_connection_only (ZkParty.init path id_ autojoin_).
Proof.
  intros w. pose proof (ZkParty_init_outcome path id_ autojoin_ w) as Hinit.
  by destruct (ZkParty.init path id_ autojoin_ w) as [[party|e|] w'].
Qed.

(** X17.  [ensure_path] and the methods of [ZkParty] return or raise
    [ZkNoConnection]: Kazoo's [ConnectionLoss] and [SessionExpiredError]
    never reach the caller, and no call blocks. *)
Theorem connection_errors_are_translated :
  (∀ path abs, raises_only no_connection_only (Zookeeper.ensure_path path abs)) ∧
  (∀ party, raises_only no_connection_only (ZkParty.join party)) ∧
  (∀ party, raises_only no_connection_only (ZkParty.list party)) ∧
  (∀ party, raises_only no_connection_only (ZkParty.autojoin party)) ∧
  (∀ path id_ autojoin_,
     raises_only no_connection_only (ZkParty.init path id_ autojoin_)).
Proof.
  split; [apply ensure_path_raises|].
  split; [intros party; apply no_connection_raises, Kazoo_party_join_raises|].
  split; [|split; [apply ZkParty_autojoin_raises|apply ZkParty_init_raises]].
  intros party. apply no_connection_raises. raises_auto.
  apply Kazoo_party_iter_raises.
Qed.

(** ** A cache without its directory *)

Lemma list_entries_run c :
  ZkSharedCache._list_entries c =
  match Kazoo.get_children (ZkSharedCache._path c) (world c) with
  | (Ok children, w) => (Ok (list_to_set children), with_world w c)
  | (Raise NoNodeError, w) => (Ok ∅, with_world w c)
  | (Raise ConnectionLoss, w) | (Raise SessionExpiredError, w) =>
      (Raise ZkNoConnection, with_world w c)
  | (Raise e, w) => (Raise e, with_world w c)
  | (Diverge, w) => (Diverge, with_world w c)
  end.
Proof.
  unfold ZkSharedCache._list_entries. unfold bind at 1, get_state, try_.
  unfold bind at 1. rewrite cache_on_kazoo_run.
  destruct (Kazoo.get_children (ZkSharedCache._path c) (world c)) as [[l|e|] w];
    simpl; try done.
  by destruct e.
Qed.

(** X18.  A cache directory that does not exist yet is an empty cache.
    When the listing of [process] finds no node at the cache path, [process]
    returns normally: every name it tracked, in the timestamp map or in the
    FIFO, is forgotten, and the handler gets one empty batch. *)
Theorem process_without_directory (c : ZkSharedCache.t) :
  connected c = true ->
  (Kazoo.get_children (ZkSharedCache._path c) (world c)).1 = Raise NoNodeError ->
  ∃ c',
    ZkSharedCache.process c = (Ok tt, c') ∧
    ZkSharedCache._entries c' = ∅ ∧
    ZkSharedCache._incoming_entries c' = [] ∧
    ZkSharedCache.handled c' = ZkSharedCache.handled c ++ [[]].
Proof.
  intros Hconn Hlist.
  set (c_drained :=
         (ZkSharedCache.drain_incoming (ZkSharedCache._incoming_entries c) c).2).
  assert (ZkSharedCache.drain_incoming (ZkSharedCache._incoming_entries c) c =
          (Ok tt, c_drained)) as Hdrain.
  { subst c_drained. by rewrite drain_incoming_run. }
  assert (batch_state c_drained = (ZkSharedCache.handled c, []) ∧
          ZkSharedCache._path c_drained = ZkSharedCache._path c ∧
          world c_drained = world c) as (Hstate & Hpath & Hworld).
  { subst c_drained. rewrite drain_incoming_run.
    by destruct (ZkSharedCache._incoming_entries c) eqn:Hinc; destruct c; simpl in *;
      subst. }
  unfold ZkSharedCache.process. unfold bind at 1.
  rewrite is_connected_run, Hconn. simpl.
  unfold bind at 1, get_state. unfold bind at 1. rewrite Hdrain.
  unfold bind at 1. unfold bind at 1.
  rewrite list_entries_run, Hpath, Hworld.
  destruct (Kazoo.get_children (ZkSharedCache._path c) (world c)) as [r w].
  simpl in Hlist. subst r.
  set (c_listed := with_world w c_drained).
  set (previous := dom (ZkSharedCache._entries c_drained)).
  unfold bind at 1. rewrite prune_run.
  2: apply NoDup_elements.
  2: { intros k Hk. apply elem_of_elements in Hk.
       apply elem_of_dom. set_solver. }
  unfold bind at 1.
  assert (∅ ∖ previous = (∅ : gset string)) as -> by set_solver.
  unfold ZkSharedCache._handle_entries, ZkSharedCache._handler.
  rewrite elements_empty. autounfold with unf_m. simpl.
  eexists. split; [reflexivity|]. simpl.
  inversion Hstate as [[Hhandled Hincoming]].
  split; [|by rewrite Hhandled, Hincoming].
  apply dom_empty_inv_L. rewrite pruned_dom.
  apply set_eq. intros n. rewrite elem_of_difference, elem_of_list_to_set,
    elem_of_elements.
  subst previous. set_solver.
Qed.
(** * Further concrete runs *)

(** Kazoo reports CONNECTED and then SUSPENDED before the worker has run. *)
Definition flapping : Zookeeper.t :=
  Zookeeper.with_state_events [CONNECTED; SUSPENDED] (bs1 (world_of [] [] 0)).

Definition reconnecting : list Activity :=
  [Notified CONNECTED; WorkerIterates; Called call_have_lock;
   Notified SUSPENDED; WorkerIterates].

Lemma connected_flag_follows_worker_witness :
  forallb without_waiting reconnecting = true ∧
  worker_consistent (startup, bs1 (world_of [] [] 0)) ∧
  worker_consistent (run reconnecting (startup, bs1 (world_of [] [] 0))).
Proof.
  assert (worker_consistent (startup, bs1 (world_of [] [] 0))) as Hfresh
    by (intros Hconn; discriminate Hconn).
  split; [reflexivity|]. split; [exact Hfresh|].
  apply connected_flag_follows_worker; [reflexivity|exact Hfresh].
Defined.

Lemma worker_ends_disconnected_witness :
  worker_consistent (startup, flapping) ∧
  Zookeeper._state_events flapping = [CONNECTED] ++ [SUSPENDED] ∧
  SUSPENDED ≠ CONNECTED ∧
  ∃ zk', Zookeeper._state_handler 3 startup flapping = (Diverge, zk') ∧
         Zookeeper._state_events zk' = [] ∧
         Zookeeper._connected zk' = false.
Proof.
  assert (worker_consistent (startup, flapping)) as Hfresh
    by (intros Hconn; discriminate Hconn).
  assert (SUSPENDED ≠ CONNECTED) as Hlast by (intros Heq; discriminate Heq).
  split; [exact Hfresh|]. split; [reflexivity|]. split; [exact Hlast|].
  exact (worker_ends_disconnected startup flapping [CONNECTED] SUSPENDED
           Hfresh eq_refl Hlast).
Defined.

(** The client connects and takes the lock; the connection is suspended;
    the lock is asked for before and after the worker has run. *)
Definition electing : list Activity :=
  [Notified CONNECTED; WorkerIterates;
   Called (call_get_lock 3 (Some 1%Q) (Some 1%Q))].

Definition suspended_after : list Activity :=
  [Called call_have_lock; WorkerIterates; Called call_release_lock].

Lemma lost_lock_is_not_regained_witness :
  forallb without_acquiring suspended_after = true ∧
  ¬ lock_held
      (run (electing ++ Notified SUSPENDED :: suspended_after)
         (startup, bs1 (world_of [] [] 0))).2.
Proof.
  split; [reflexivity|].
  pose proof (lost_lock_is_not_regained "1-1" "bs" "bs1" true true (world_of [] [] 0)
                electing suspended_after SUSPENDED eq_refl) as Hlost.
  cbv zeta in Hlost. exact (proj1 (proj2 Hlost)).
Defined.

Example lock_held_after_election :
  lock_held (run electing (startup, bs1 (world_of [] [] 0))).2.
Proof. vm_compute. done. Qed.

Lemma process_hands_one_batch_witness :
  connected reader = true ∧ (ZkSharedCache.process reader).1 ≠ Diverge.
Proof.
  split; [reflexivity|].
  pose proof (process_hands_one_batch reader eq_refl) as Hrun.
  destruct (ZkSharedCache.process reader) as [[[]|e|] c'];
    [discriminate|discriminate|destruct Hrun].
Defined.

(** A cache whose client has not connected yet. *)
Definition offline : ZkSharedCache.t :=
  ZkSharedCache.init (bs1 (world_of [] [] 0)) "pcb_cache".

Lemma cache_needs_connection_witness :
  connected offline = false ∧
  ZkSharedCache.store "p01" [Byte.x01] offline = (Raise ZkNoConnection, offline) ∧
  ZkSharedCache.process offline = (Raise ZkNoConnection, offline) ∧
  ZkSharedCache.expire 10 offline = (Raise ZkNoConnection, offline).
Proof.
  split; [reflexivity|].
  destruct (cache_needs_connection offline eq_refl) as (Hstore & Hprocess & Hexpire).
  split; [apply Hstore|]. split; [exact Hprocess|apply Hexpire].
Defined.

Lemma store_then_get_witness :
  connected (pcb_cache (world_of [] [] 0)) = true ∧
  Kazoo.pending (world (pcb_cache (world_of [] [] 0))) = [] ∧
  ∃ c1 c2,
    ZkSharedCache.store "p01" [Byte.x01] (pcb_cache (world_of [] [] 0)) = (Ok tt, c1) ∧
    ZkSharedCache._get "p01" c1 = (Ok [Byte.x01], c2).
Proof.
  split; [reflexivity|]. split; [reflexivity|].
  destruct (store_then_get "p01" [Byte.x01] (pcb_cache (world_of [] [] 0))
              eq_refl eq_refl) as (c1 & c2 & Hstore & _ & _ & Hget & _).
  exists c1, c2. split; [exact Hstore|exact Hget].
Defined.

(** The holder of the lock, from the first contender. *)
Example get_lock_holder_first_contender :
  (get_lock_holder
     (holding (world_of
        [(String.append "/1-1/bs/lock/bs1"
            (String NUL (String.append "1-1" (String NUL "10.0.0.1"))), [])]
        [] 0))).1 =
  holder (Some "10.0.0.1").
Proof. vm_compute. reflexivity. Qed.

Example get_lock_holder_malformed :
  (get_lock_holder (holding (world_of [("/1-1/bs/lock/bs1", [])] [] 0))).1 =
  holder_ValueError ["bs1"].
Proof. vm_compute. reflexivity. Qed.

(** A connected cache that tracks an entry, while the cache directory has
    never been created. *)
Definition orphaned : ZkSharedCache.t :=
  ZkSharedCache.with_incoming [("p01", 1%Q)]
    (tracking [("old", 0%Q)] (pcb_cache (world_of [] [] 4))).

Lemma process_without_directory_witness :
  connected orphaned = true ∧
  (Kazoo.get_children (ZkSharedCache._path orphaned) (world orphaned)).1 =
    Raise NoNodeError ∧
  ∃ c',
    ZkSharedCache.process orphaned = (Ok tt, c') ∧
    ZkSharedCache._entries c' = ∅ ∧
    ZkSharedCache.handled c' = [[]].
Proof.
  assert ((Kazoo.get_children (ZkSharedCache._path orphaned) (world orphaned)).1 =
          Raise NoNodeError) as Hlist by (vm_compute; reflexivity).
  split; [reflexivity|]. split; [exact Hlist|].
  destruct (process_without_directory orphaned eq_refl Hlist)
    as (c' & Hrun & Hentries & _ & Hhandled).
  exists c'. split; [exact Hrun|]. split; [exact Hentries|exact Hhandled].
Defined.
